(** * Two Paradigms of Finance: library catalog, timeline and periodicals charts

    Shallow embedding of [static/js/library.js] (catalog and timeline scripts)
    and of the periodicals scripts, with the properties of their filtering,
    sorting, incremental rendering, hit-testing, decade averaging and series
    plotting.

    Conventions of the embedding.
    - JavaScript numbers are modelled exactly: integers ([Z]) for years, counters
      and indices, rationals ([Q]) for canvas coordinates; a Euclidean
      distance is the real square root of a rational.  Rounding of IEEE
      doubles, [NaN] and infinities are outside the model, except where the
      source tests for [NaN] through [||] (see [Number]) or passes it on to
      the canvas (see [parseInt]).
    - Strings are sequences of 8-bit code units; [toLowerCase] and [trim] act on
      the ASCII letters and ASCII white space.
    - Arrays that the scripts share by reference live in an explicit store
      ([heap]), so that in-place operations ([sort], [push]) and aliasing are
      visible. *)

From Stdlib Require Import ZArith QArith Lia Lqa Ascii String.
From Stdlib Require Reals Qreals Qround.
From stdpp Require Import base tactics option list sorting gmap strings pretty.

Local Open Scope Z_scope.

(** ** JavaScript primitives *)

Module JS.

(** Primitive values found in the JSON datasets. *)
Inductive value :=
  | VUndef
  | VNull
  | VBool (b : bool)
  | VNum (n : Z)
  | VStr (s : string).

(** A field that holds a string when present: the scripts call string
    methods ([split], [toLowerCase]) on such fields, which only strings and
    the falsy [undefined] and [null] reach without a TypeError. *)
Inductive text :=
  | TUndef
  | TNull
  | TStr (s : string).

Definition text_value (t : text) : value :=
  match t with
  | TUndef => VUndef
  | TNull => VNull
  | TStr s => VStr s
  end.
Coercion text_value : text >-> value.

(** ToBoolean. *)
Definition truthy (v : value) : bool :=
  match v with
  | VUndef | VNull => false
  | VBool b => b
  | VNum n => negb (n =? 0)
  | VStr s => negb (String.eqb s "")
  end.

(** ToString. *)
Definition String_ (v : value) : string :=
  match v with
  | VUndef => "undefined"
  | VNull => "null"
  | VBool true => "true"
  | VBool false => "false"
  | VNum n => pretty n
  | VStr s => s
  end.

(** [a || b]. *)
Definition or_ (a b : value) : value := if truthy a then a else b.

(** Strict equality of a value with a string, [v === s]. *)
Definition strict_eq_str (v : value) (s : string) : bool :=
  match v with
  | VStr t => String.eqb t s
  | _ => false
  end.

(** *** Strings *)

Definition lower_ascii (c : ascii) : ascii :=
  let n := N_of_ascii c in
  if ((65 <=? n) && (n <=? 90))%N then ascii_of_N (n + 32) else c.

Fixpoint toLowerCase (s : string) : string :=
  match s with
  | EmptyString => EmptyString
  | String c s' => String (lower_ascii c) (toLowerCase s')
  end.

(** White space of [String.prototype.trim] within ASCII: TAB, LF, VT, FF, CR
    and SPACE. *)
Definition is_white (c : ascii) : bool :=
  let n := N_of_ascii c in
  (((9 <=? n) && (n <=? 13)) || (n =? 32))%N.

Fixpoint trimStart (s : string) : string :=
  match s with
  | EmptyString => EmptyString
  | String c s' => if is_white c then trimStart s' else s
  end.

Definition trim (s : string) : string :=
  String.rev (trimStart (String.rev (trimStart s))).

(** [hay.includes(needle)]. *)
Fixpoint includes (hay needle : string) : bool :=
  String.prefix needle hay ||
  match hay with
  | EmptyString => false
  | String _ hay' => includes hay' needle
  end.

(** [s.replace(/[cs]/g, '')]: every character of the class is dropped. *)
Fixpoint remove_chars (cls : ascii → bool) (s : string) : string :=
  match s with
  | EmptyString => EmptyString
  | String c s' =>
      if cls c then remove_chars cls s' else String c (remove_chars cls s')
  end.

(** Word characters of the regular expression class [\w]. *)
Definition is_word (c : ascii) : bool :=
  let n := N_of_ascii c in
  (((48 <=? n) && (n <=? 57)) || ((65 <=? n) && (n <=? 90))
   || ((97 <=? n) && (n <=? 122)) || (n =? 95))%N.

(** ASCII letters: the class [[A-Z]] under the [i] flag. *)
Definition is_letter (c : ascii) : bool :=
  let n := N_of_ascii c in
  (((65 <=? n) && (n <=? 90)) || ((97 <=? n) && (n <=? 122)))%N.

(** Comparison of two strings by code units, [a < b]. *)
Definition str_lt (a b : string) : bool := String.ltb a b.

(** *** Numbers *)

Definition digit_of (c : ascii) : option Z :=
  let n := N_of_ascii c in
  if ((48 <=? n) && (n <=? 57))%N then Some (Z.of_N n - 48) else None.

(** Value of a run of decimal digits, [None] when another character occurs. *)
Fixpoint digits_value (acc : Z) (s : string) : option Z :=
  match s with
  | EmptyString => Some acc
  | String c s' =>
      match digit_of c with
      | Some d => digits_value (10 * acc + d) s'
      | None => None
      end
  end.

(** StringToNumber on the integer fragment: surrounding white space is
    dropped, the empty string is 0, an optional sign is followed by decimal
    digits.  [None] stands for [NaN].  Literals with a fraction, an exponent or
    a radix prefix have no value in the integer model. *)
Definition StringToNumber (s : string) : option Z :=
  match trim s with
  | EmptyString => Some 0
  | String "-" (String c r) => Z.opp <$> digits_value 0 (String c r)
  | String "+" (String c r) => digits_value 0 (String c r)
  | String "-" EmptyString | String "+" EmptyString => None
  | t => digits_value 0 t
  end.

(** [Number(v)]; [None] stands for [NaN]. *)
Definition Number (v : value) : option Z :=
  match v with
  | VUndef => None
  | VNull => Some 0
  | VBool b => Some (if b then 1 else 0)
  | VNum n => Some n
  | VStr s => StringToNumber s
  end.

(** [Number(v) || 0]: [NaN] and [0] are the falsy numbers. *)
Definition NumberOr0 (v : value) : Z := default 0 (Number v).

(** *** Array.prototype.sort

    The sort is stable and in place; it is modelled by a stable insertion sort
    driven by the comparator's sign, applied to the array's contents. *)
Section sort.
Context {A : Type} (cmp : A → A → Z).

Fixpoint sort_insert (x : A) (l : list A) : list A :=
  match l with
  | [] => [x]
  | y :: l' => if cmp x y <=? 0 then x :: l else y :: sort_insert x l'
  end.

Definition sort (l : list A) : list A := foldr sort_insert [] l.
End sort.

End JS.

(** ** The library catalog (first script of [static/js/library.js]) *)

Module Library.
Import JS.

(** One entry of [window.LIBRARY_DATA]. *)
Record record := {
  author : text;
  title : text;
  key_concepts : text;
  stream : text;
  topic : text;
  url : text;
  year : value;
  have : value;
}.

(** Property access [d[field]]. *)
Definition getField (field : string) (d : record) : value :=
  if String.eqb field "author" then author d
  else if String.eqb field "title" then title d
  else if String.eqb field "key_concepts" then key_concepts d
  else if String.eqb field "stream" then stream d
  else if String.eqb field "topic" then topic d
  else if String.eqb field "url" then url d
  else if String.eqb field "year" then year d
  else if String.eqb field "have" then have d
  else VUndef.

Definition BATCH_SIZE : Z := 60.

(** *** Author keys *)

(** Number of white-space characters at the head of [s]. *)
Definition white_run (s : string) : nat :=
  String.length s - String.length (trimStart s).

(** Length of the separator that [/[;&]|,\s+(?=[A-Z])|\band\b/i] matches at the
    head of [s], where [prev] is the character before it; [0] when there is no
    match.  Under the [i] flag the look-ahead accepts a letter of either case. *)
Definition separator_at (prev : option ascii) (s : string) : nat :=
  match s with
  | String c r =>
      if (Ascii.eqb c ";" || Ascii.eqb c "&")%bool then 1%nat
      else if Ascii.eqb c "," then
        match white_run r, trimStart r with
        | S n, String l _ => if is_letter l then S (S n) else 0%nat
        | _, _ => 0%nat
        end
      else
        match r with
        | String c2 (String c3 rest) =>
            if (Ascii.eqb (lower_ascii c) "a" && Ascii.eqb (lower_ascii c2) "n"
                && Ascii.eqb (lower_ascii c3) "d"
                && negb (from_option is_word false prev)
                && negb (match rest with String n _ => is_word n | _ => false end))%bool
            then 3%nat else 0%nat
        | _ => 0%nat
        end
  | EmptyString => 0%nat
  end.

(** [s.split(re)] for the separator above.  [skip] counts the characters of a
    separator still to be consumed and [cur] is the current piece, reversed. *)
Fixpoint split_go (skip : nat) (prev : option ascii) (cur : string) (s : string)
  : list string :=
  match s with
  | EmptyString => [String.rev cur]
  | String c r =>
      match skip with
      | S k => split_go k (Some c) cur r
      | O =>
          match separator_at prev s with
          | O => split_go 0 (Some c) (String c cur) r
          | S k => String.rev cur :: split_go k (Some c) EmptyString r
          end
      end
  end.

Definition split_authors (s : string) : list string :=
  split_go 0 None EmptyString s.

Definition is_dot_or_comma (c : ascii) : bool :=
  (Ascii.eqb c "." || Ascii.eqb c ",")%bool.

Definition getAuthorKeys (authorStr : text) : list string :=
  match authorStr with
  | TStr s =>
      if String.eqb s "" then []
      else
        omap (λ p,
          let trimmed := trim p in
          if String.eqb trimmed "" then None
          else
            let normalized := toLowerCase (trim (remove_chars is_dot_or_comma trimmed)) in
            if (2 <? String.length normalized)%nat then Some normalized else None)
          (split_authors s)
  | _ => []
  end.

(** The piece before the first [,] or [;]: [s.split(/[,;]/)[0]]. *)
Fixpoint first_piece (s : string) : string :=
  match s with
  | EmptyString => EmptyString
  | String c r =>
      if (Ascii.eqb c "," || Ascii.eqb c ";")%bool then EmptyString
      else String c (first_piece r)
  end.

Definition getPrimaryAuthorKey (authorStr : text) : string :=
  match authorStr with
  | TStr s =>
      if String.eqb s "" then ""
      else remove_chars (Ascii.eqb ".") (toLowerCase (trim (first_piece s)))
  | _ => ""
  end.

(** *** Era ranges *)

Definition getEraRange (era : string) : Z * Z :=
  if String.eqb era "pre-1800" then (0, 1799)
  else if String.eqb era "1800-1900" then (1800, 1900)
  else if String.eqb era "1900-1958" then (1901, 1957)
  else if String.eqb era "1958-1980" then (1958, 1980)
  else if String.eqb era "1980-present" then (1981, 9999)
  else (0, 9999).

(** The five named eras of the era filter. *)
Definition eras : list string :=
  ["pre-1800"; "1800-1900"; "1900-1958"; "1958-1980"; "1980-present"].

(** *** Filter and sort *)

(** Values of the five controls. *)
Record controls := {
  searchValue : string;
  streamValue : string;
  topicValue : string;
  eraValue : string;
  haveValue : string;
}.

(** [(searchInput.value || '').toLowerCase().trim()]. *)
Definition queryOf (c : controls) : string := trim (toLowerCase (searchValue c)).

(** [d.author + ' ' + d.title + ' ' + d.key_concepts], lowercased. *)
Definition hay (d : record) : string :=
  toLowerCase (String_ (author d) +:+ " " +:+ String_ (title d) +:+ " "
               +:+ String_ (key_concepts d)).

(** The callback of [data.filter] in [applyFilters]. *)
Definition passes (c : controls) (d : record) : bool :=
  let query := queryOf c in
  let '(eraMin, eraMax) := getEraRange (eraValue c) in
  if (negb (String.eqb query "") && negb (includes (hay d) query))%bool then false
  else if (negb (String.eqb (streamValue c) "")
           && negb (strict_eq_str (stream d) (streamValue c)))%bool then false
  else if (negb (String.eqb (topicValue c) "")
           && negb (strict_eq_str (topic d) (topicValue c)))%bool then false
  else if (negb (String.eqb (eraValue c) "")
           && (let y := NumberOr0 (year d) in (y <? eraMin) || (y >? eraMax)))%bool
       then false
  else if (String.eqb (haveValue c) "yes" && negb (truthy (have d)))%bool then false
  else if (String.eqb (haveValue c) "no" && truthy (have d))%bool then false
  else true.

(** The comparator of [filtered.sort] in [applyFilters]. *)
Definition compareRecords (sortField : string) (sortDir : Z) (a b : record) : Z :=
  let va := getField sortField a in
  let vb := getField sortField b in
  if String.eqb sortField "year" then
    let va := NumberOr0 va in
    let vb := NumberOr0 vb in
    if va <? vb then - sortDir
    else if va >? vb then sortDir
    else 0
  else
    let va := toLowerCase (String_ (or_ va (VStr ""))) in
    let vb := toLowerCase (String_ (or_ vb (VStr ""))) in
    if str_lt va vb then - sortDir
    else if str_lt vb va then sortDir
    else 0.

(** The comparator of [showAuthorJourney]. *)
Definition compareYears (a b : record) : Z :=
  NumberOr0 (year a) - NumberOr0 (year b).

(** *** Page state

    Arrays are objects of a store; [data], [filtered] and the lists of
    [authorIndex] are references into it. *)

Definition loc := nat.

(** A table row: the record it shows and, when the author cell is a link, the
    link's [data-author-key]. *)
Record row := {
  row_record : record;
  row_link : option string;
}.

(** The author-journey panel: its [display] style, heading and items. *)
Record panel := {
  panel_display : string;
  panel_name : string;
  panel_items : list record;
}.

(** Bindings fixed once the script has started. *)
Record env := {
  data : loc;
  authorIndex : gmap string loc;
  multiWorkAuthors : gset string;
}.

Record state := {
  heap : gmap loc (list record);
  next_loc : loc;
  filtered : loc;
  rendered : Z;
  sortField : string;
  sortDir : Z;
  ctl : controls;
  tbody : list row;
  loadMoreDisplay : string;
  journeyPanel : panel;
  timer : option Z;
}.

(** Contents of the array at a reference. *)
Definition arr (h : gmap loc (list record)) (l : loc) : list record :=
  default [] (h !! l).

Definition filteredArr (st : state) : list record := arr (heap st) (filtered st).

Definition set_heap (h : gmap loc (list record)) (n : loc) (st : state) : state :=
  {| heap := h; next_loc := n; filtered := filtered st; rendered := rendered st;
     sortField := sortField st; sortDir := sortDir st; ctl := ctl st;
     tbody := tbody st; loadMoreDisplay := loadMoreDisplay st;
     journeyPanel := journeyPanel st; timer := timer st |}.

Definition set_filtered (l : loc) (st : state) : state :=
  {| heap := heap st; next_loc := next_loc st; filtered := l; rendered := rendered st;
     sortField := sortField st; sortDir := sortDir st; ctl := ctl st;
     tbody := tbody st; loadMoreDisplay := loadMoreDisplay st;
     journeyPanel := journeyPanel st; timer := timer st |}.

Definition set_table (r : Z) (rows : list row) (disp : string) (st : state) : state :=
  {| heap := heap st; next_loc := next_loc st; filtered := filtered st; rendered := r;
     sortField := sortField st; sortDir := sortDir st; ctl := ctl st;
     tbody := rows; loadMoreDisplay := disp;
     journeyPanel := journeyPanel st; timer := timer st |}.

Definition set_sort (f : string) (dir : Z) (st : state) : state :=
  {| heap := heap st; next_loc := next_loc st; filtered := filtered st;
     rendered := rendered st; sortField := f; sortDir := dir; ctl := ctl st;
     tbody := tbody st; loadMoreDisplay := loadMoreDisplay st;
     journeyPanel := journeyPanel st; timer := timer st |}.

Definition set_ctl (c : controls) (st : state) : state :=
  {| heap := heap st; next_loc := next_loc st; filtered := filtered st;
     rendered := rendered st; sortField := sortField st; sortDir := sortDir st;
     ctl := c; tbody := tbody st; loadMoreDisplay := loadMoreDisplay st;
     journeyPanel := journeyPanel st; timer := timer st |}.

Definition set_panel (p : panel) (st : state) : state :=
  {| heap := heap st; next_loc := next_loc st; filtered := filtered st;
     rendered := rendered st; sortField := sortField st; sortDir := sortDir st;
     ctl := ctl st; tbody := tbody st; loadMoreDisplay := loadMoreDisplay st;
     journeyPanel := p; timer := timer st |}.

Definition set_timer (t : option Z) (st : state) : state :=
  {| heap := heap st; next_loc := next_loc st; filtered := filtered st;
     rendered := rendered st; sortField := sortField st; sortDir := sortDir st;
     ctl := ctl st; tbody := tbody st; loadMoreDisplay := loadMoreDisplay st;
     journeyPanel := journeyPanel st; timer := t |}.

(** A new array object holding [l]; returns its reference. *)
Definition alloc (l : list record) (st : state) : loc * state :=
  (next_loc st, set_heap (<[next_loc st := l]> (heap st)) (S (next_loc st)) st).

(** In-place [sort] of the array at [l]. *)
Definition sort_in_place (cmp : record → record → Z) (l : loc) (st : state) : state :=
  set_heap (<[l := sort cmp (arr (heap st) l)]> (heap st)) (next_loc st) st.

(** *** Rendering *)

Definition renderRow (e : env) (d : record) : row :=
  let authorKey := getPrimaryAuthorKey (author d) in
  {| row_record := d;
     row_link :=
       if (negb (String.eqb authorKey "")
           && bool_decide (authorKey ∈ multiWorkAuthors e))%bool
       then Some authorKey else None |}.

(** The elements [a[from] .. a[to - 1]] visited by the row loop. *)
Definition slice (a : list record) (from to : Z) : list record :=
  take (Z.to_nat (to - from)) (drop (Z.to_nat from) a).

(** [renderBatch]: the rows of one batch are appended to the table body and
    the sentinel is shown or hidden. *)
Definition renderBatch (e : env) (st : state) : state :=
  let len := Z.of_nat (length (filteredArr st)) in
  let end_ := Z.min (rendered st + BATCH_SIZE) len in
  if rendered st >=? end_ then
    set_table (rendered st) (tbody st) "none" st
  else
    let fragment := renderRow e <$> slice (filteredArr st) (rendered st) end_ in
    set_table end_ (tbody st ++ fragment)
      (if end_ <? len then "block" else "none") st.

(** [applyFilters]; its last call, [updateStats], only writes the counts into
    the status line and is left out. *)
Definition applyFilters (e : env) (st : state) : state :=
  let c := ctl st in
  let '(l, st1) := alloc (filter (λ d, passes c d) (arr (heap st) (data e))) st in
  let st2 := set_filtered l st1 in
  let st3 := sort_in_place (compareRecords (sortField st2) (sortDir st2)) (filtered st2) st2 in
  let st4 := set_table 0 [] (loadMoreDisplay st3) st3 in
  renderBatch e st4.

(** *** Author journey *)

(** [showAuthorJourney]; of the panel, the heading, the items and the [display]
    style are kept (the subtitle repeats the count and the span of years). *)
Definition showAuthorJourney (e : env) (key displayName : string) (st : state) : state :=
  let source :=
    match authorIndex e !! key with
    | Some l => arr (heap st) l
    | None => []
    end in
  let '(w, st1) := alloc source st in
  let st2 := sort_in_place compareYears w st1 in
  let works := arr (heap st2) w in
  if (length works <? 2)%nat then st2
  else
    set_panel {| panel_display := "block"; panel_name := displayName;
                 panel_items := works |} st2.

(** *** Start of the script *)

(** [authorIndex[k].push(d)], after [authorIndex[k] = []] for a new key. *)
Definition index_push (d : record) (acc : gmap string loc * state) (k : string)
  : gmap string loc * state :=
  let '(idx, st) := acc in
  match idx !! k with
  | Some l =>
      (idx, set_heap (<[l := arr (heap st) l ++ [d]]> (heap st)) (next_loc st) st)
  | None =>
      let '(l, st1) := alloc [] st in
      (<[k := l]> idx,
       set_heap (<[l := arr (heap st1) l ++ [d]]> (heap st1)) (next_loc st1) st1)
  end.

Definition build_index (ds : list record) (st : state) : gmap string loc * state :=
  foldl (λ acc d, foldl (index_push d) acc (getAuthorKeys (author d))) (∅, st) ds.

(** What the page provides before the script runs: control values, the
    sentinel's [display] style and the journey panel. *)
Record page := {
  page_ctl : controls;
  page_loadMore : string;
  page_panel : panel;
}.

(** The state at the declaration of [filtered]: it is the very array [data]. *)
Definition start (pg : page) (data0 : list record) : state :=
  {| heap := {[ 0%nat := data0 ]}; next_loc := 1%nat; filtered := 0%nat;
     rendered := 0; sortField := "year"; sortDir := 1; ctl := page_ctl pg;
     tbody := []; loadMoreDisplay := page_loadMore pg;
     journeyPanel := page_panel pg; timer := None |}.

(** The whole top-level run; [None] when the script returns at once because
    the dataset is empty. *)
Definition init (pg : page) (data0 : list record) : option (env * state) :=
  match data0 with
  | [] => None
  | _ :: _ =>
      let '(idx, st1) := build_index data0 (start pg data0) in
      let e := {| data := 0%nat; authorIndex := idx;
                  multiWorkAuthors :=
                    dom (filter (λ kl, (2 ≤ length (arr (heap st1) kl.2))%nat) idx) |} in
      Some (e, applyFilters e st1)
  end.

(** *** Events *)

Inductive event :=
  | SearchInput (v : string)       (* the search box now holds [v]; [input] fires *)
  | TimerFires                     (* the pending timeout of [debounce] elapses *)
  | StreamChange (v : string)
  | TopicChange (v : string)
  | EraChange (v : string)
  | HaveChange (v : string)
  | SortClick (field : string)     (* click on the header with [data-sort = field] *)
  | Intersect (isIntersecting : bool)
  | AuthorClick (i : nat)          (* click on the author cell of row [i] *)
  | JourneyClose.

Definition with_search (v : string) (c : controls) : controls :=
  {| searchValue := v; streamValue := streamValue c; topicValue := topicValue c;
     eraValue := eraValue c; haveValue := haveValue c |}.
Definition with_stream (v : string) (c : controls) : controls :=
  {| searchValue := searchValue c; streamValue := v; topicValue := topicValue c;
     eraValue := eraValue c; haveValue := haveValue c |}.
Definition with_topic (v : string) (c : controls) : controls :=
  {| searchValue := searchValue c; streamValue := streamValue c; topicValue := v;
     eraValue := eraValue c; haveValue := haveValue c |}.
Definition with_era (v : string) (c : controls) : controls :=
  {| searchValue := searchValue c; streamValue := streamValue c;
     topicValue := topicValue c; eraValue := v; haveValue := haveValue c |}.
Definition with_have (v : string) (c : controls) : controls :=
  {| searchValue := searchValue c; streamValue := streamValue c;
     topicValue := topicValue c; eraValue := eraValue c; haveValue := v |}.

(** The function returned by [debounce(fn, ms)]: any pending timeout is
    cancelled and a new one of [ms] milliseconds is armed; [fn] is not called. *)
Definition debounced (ms : Z) (st : state) : state := set_timer (Some ms) st.

(** The click handler of a sort header. *)
Definition sortClick (e : env) (field : string) (st : state) : state :=
  let st1 :=
    if String.eqb (sortField st) field
    then set_sort (sortField st) (sortDir st * -1) st
    else set_sort field 1 st in
  applyFilters e st1.

Definition handle (e : env) (ev : event) (st : state) : state :=
  match ev with
  | SearchInput v => debounced 200 (set_ctl (with_search v (ctl st)) st)
  | TimerFires =>
      match timer st with
      | Some _ => applyFilters e (set_timer None st)
      | None => st
      end
  | StreamChange v => applyFilters e (set_ctl (with_stream v (ctl st)) st)
  | TopicChange v => applyFilters e (set_ctl (with_topic v (ctl st)) st)
  | EraChange v => applyFilters e (set_ctl (with_era v (ctl st)) st)
  | HaveChange v => applyFilters e (set_ctl (with_have v (ctl st)) st)
  | SortClick field => sortClick e field st
  | Intersect isIntersecting =>
      if (isIntersecting
          && (rendered st <? Z.of_nat (length (filteredArr st))))%bool
      then renderBatch e st else st
  | AuthorClick i =>
      match tbody st !! i with
      | Some r =>
          match row_link r with
          | Some key => showAuthorJourney e key (String_ (author (row_record r))) st
          | None => st
          end
      | None => st
      end
  | JourneyClose =>
      set_panel {| panel_display := "none";
                   panel_name := panel_name (journeyPanel st);
                   panel_items := panel_items (journeyPanel st) |} st
  end.

Definition run (e : env) (evs : list event) (st : state) : state :=
  foldl (λ s ev, handle e ev s) st evs.

(** *** The filter, the order and the rendering as the specification words them *)

(** [Number(d.year) || 0]. *)
Definition yearNum (d : record) : Z := NumberOr0 (year d).

(** The lowercased concatenation of [d.author], [d.title] and
    [d.key_concepts]. *)
Definition concatenation (d : record) : string :=
  toLowerCase (String_ (author d) +:+ String_ (title d) +:+ String_ (key_concepts d)).

(** The conditions of the active controls on a record, for a given text to
    search in. *)
Definition satisfies (text_of : record → string) (c : controls) (d : record) : Prop :=
  (queryOf c ≠ "" → includes (text_of d) (queryOf c) = true)
  ∧ (streamValue c ≠ "" → text_value (stream d) = VStr (streamValue c))
  ∧ (topicValue c ≠ "" → text_value (topic d) = VStr (topicValue c))
  ∧ (eraValue c ≠ "" →
       (getEraRange (eraValue c)).1 ≤ yearNum d ≤ (getEraRange (eraValue c)).2)
  ∧ (haveValue c = "yes" → truthy (have d) = true)
  ∧ (haveValue c = "no" → truthy (have d) = false).

(** The key that the comparator extracts for a text field. *)
Definition textKey (field : string) (d : record) : string :=
  toLowerCase (String_ (or_ (getField field d) (VStr ""))).

(** [a] comes no later than [b] in ascending order of the sort key. *)
Definition key_le (field : string) (a b : record) : Prop :=
  if String.eqb field "year" then NumberOr0 (getField field a) ≤ NumberOr0 (getField field b)
  else String.le (textKey field a) (textKey field b).

(** Controls with only the era filter set. *)
Definition eraOnly (era : string) : controls :=
  {| searchValue := ""; streamValue := ""; topicValue := ""; eraValue := era;
     haveValue := "" |}.

(** The list and the rows that a recomputation from the current controls and
    sort state yields. *)
Definition recomputed (e : env) (st : state) : Prop :=
  filteredArr st
    = sort (compareRecords (sortField st) (sortDir st))
        (filter (λ d, passes (ctl st) d) (arr (heap st) (data e)))
  ∧ tbody st = renderRow e <$> take (Z.to_nat BATCH_SIZE) (filteredArr st).

(** The events that come from the search box, the four filters and the sort
    headers. *)
Definition control_event (ev : event) : bool :=
  match ev with
  | SearchInput _ | StreamChange _ | TopicChange _ | EraChange _ | HaveChange _
  | SortClick _ => true
  | _ => false
  end.

(** The states that a page reaches: after the script has started, any
    sequence of events. *)
Definition reachable (e : env) (st : state) : Prop :=
  ∃ pg data0 st0 evs, init pg data0 = Some (e, st0) ∧ st = run e evs st0.

(** The works indexed under an author key, [authorIndex[key] || []]. *)
Definition indexedWorks (e : env) (st : state) (key : string) : list record :=
  match authorIndex e !! key with
  | Some l => arr (heap st) l
  | None => []
  end.

(** *** A small catalog *)

Definition graham1934 : record :=
  {| author := TStr "Graham, Benjamin; Dodd, David"; title := TStr "Security Analysis";
     key_concepts := TStr "intrinsic value"; stream := TStr "Practitioner";
     topic := TStr "Investments"; url := TNull; year := VNum 1934;
     have := VBool true |}.

Definition graham1949 : record :=
  {| author := TStr "Graham, Benjamin"; title := TStr "The Intelligent Investor";
     key_concepts := TStr "margin of safety"; stream := TStr "Practitioner";
     topic := TStr "Investments"; url := TNull; year := VStr "1949";
     have := VBool false |}.

Definition williams1938 : record :=
  {| author := TStr "Williams, John Burr"; title := TStr "The Theory of Investment Value";
     key_concepts := TStr "dividend discount"; stream := TStr "Academic";
     topic := TStr "Valuation"; url := TNull; year := VNum 1938;
     have := VNull |}.

Definition example_data : list record := [graham1949; williams1938; graham1934].

Definition example_page : page :=
  {| page_ctl := eraOnly "";
     page_loadMore := "";
     page_panel := {| panel_display := "none"; panel_name := ""; panel_items := [] |} |}.

(** The bindings and the state once the script has run on this catalog. *)
Definition example_env : env :=
  match init example_page example_data with
  | Some (e, _) => e
  | None => {| data := 0%nat; authorIndex := ∅; multiWorkAuthors := ∅ |}
  end.

Definition example_state : state :=
  match init example_page example_data with
  | Some (_, st) => st
  | None => start example_page example_data
  end.

(** *** Invariants *)

(** Every reference in use points below the next free one. *)
Definition wf (e : env) (st : state) : Prop :=
  (data e < next_loc st)%nat
  ∧ (filtered st < next_loc st)%nat
  ∧ ∀ k l, authorIndex e !! k = Some l → (l < next_loc st)%nat.

(** [st'] differs from [st] on the store only by arrays created since. *)
Definition extends (st st' : state) : Prop :=
  (next_loc st ≤ next_loc st')%nat
  ∧ ∀ l, (l < next_loc st)%nat → heap st' !! l = heap st !! l.

(** While the author index is built from the state [base]: only the store
    changes, what [base] holds is kept, and the index refers to arrays created
    since. *)
Definition index_inv (base : state) (acc : gmap string loc * state) : Prop :=
  acc.2 = set_heap (heap acc.2) (next_loc acc.2) base
  ∧ extends base acc.2
  ∧ ∀ k l, acc.1 !! k = Some l → (next_loc base ≤ l < next_loc acc.2)%nat.

(** The counters of incremental rendering. *)
Definition table_inv (st : state) : Prop :=
  0 ≤ rendered st ≤ Z.of_nat (length (filteredArr st))
  ∧ rendered st = Z.of_nat (length (tbody st))
  ∧ (loadMoreDisplay st = "block" ∨ loadMoreDisplay st = "none")
  ∧ (loadMoreDisplay st = "block" ↔ rendered st < Z.of_nat (length (filteredArr st))).

End Library.

(** ** The timeline (second script of [static/js/library.js]) *)

Module Timeline.
Import JS.

(** One entry of [window.TIMELINE_DATA].  [score] is [None] when the entry has
    no score. *)
Record item := {
  author : text;
  title : text;
  year : Z;
  score : option Q;
  paradigm : value;
  has_note : value;
}.

(** A laid-out dot [{x, y, d}]. *)
Record dot := {
  x : Q;
  y : Q;
  d : item;
}.

(** A point of a trend line [{x, y}]. *)
Record point := {
  px : Q;
  py : Q;
}.

Definition PADDING_top : Q := 70.
Definition PADDING_bottom : Q := 60.
Definition PADDING_left : Q := 80.
Definition PADDING_right : Q := 100.
Definition DOT_R : Q := 5 # 2.
Definition DOT_R_NOTE : Q := 6.
Definition DOT_R_HOVER : Q := 9.
Definition SPLIT_YEAR : Z := 1958.

(** [x | 0]: reduction to a signed 32-bit integer. *)
Definition to_int32 (n : Z) : Z := (n + 2 ^ 31) mod 2 ^ 32 - 2 ^ 31.

(** [s.charCodeAt(i)] for each [i]. *)
Fixpoint char_codes (s : string) : list Z :=
  match s with
  | EmptyString => []
  | String c s' => Z.of_N (N_of_ascii c) :: char_codes s'
  end.

Definition hashStr (s : string) : Z :=
  foldl (λ h c, to_int32 (to_int32 (Z.shiftl h 5) - h + c)) 0 (char_codes s).

(** [Math.min(...years) - 10] and [Math.max(...years) + 10] over the positive
    years; [None] when there is none. *)
Definition yearBounds (data : list item) : option (Z * Z) :=
  match filter (λ y, 0 < y) (year <$> data) with
  | [] => None
  | y0 :: ys => Some (foldl Z.min y0 ys - 10, foldl Z.max y0 ys + 10)
  end.

Section layout.
(** [canvas.width / dpr], and the year range of the axis. *)
Variables (w : Q) (minYear maxYear : Z).

(** [canvas.height / dpr]. *)
Definition h : Q := 560.

Definition yearToX (year : Z) : Q :=
  let usable := (w - PADDING_left - PADDING_right)%Q in
  (PADDING_left
   + (inject_Z (year - minYear) / inject_Z (maxYear - minYear)) * usable)%Q.

Definition scoreToY (score : Q) : Q :=
  let centerY := (h / 2)%Q in
  let halfRange := ((h - PADDING_top - PADDING_bottom) / 2)%Q in
  (centerY - score * halfRange)%Q.

(** The callback of [data.filter] in [getFiltered]. *)
Definition shown (filter_ : string) (d : item) : bool :=
  if year d <=? 0 then false
  else if String.eqb filter_ "all" then true
  else strict_eq_str (paradigm d) filter_.

Definition getFiltered (data : list item) (filter_ : string) : list item :=
  filter (λ d, shown filter_ d) data.

Definition layoutDots (items : list item) : list dot :=
  (λ d,
    let seed := hashStr (String_ (author d) +:+ String_ (title d)) in
    let jitter := (inject_Z (Z.rem seed 30 - 15) * (3 # 10))%Q in
    {| x := yearToX (year d);
       y := (scoreToY (default 0%Q (score d)) + jitter)%Q;
       d := d |}) <$> items.

(** *** Trend lines *)

Definition decadeOf (p : dot) : Z := (year (d p) / 10) * 10.

(** The [buckets] object after [pts.forEach]. *)
Definition fill_buckets (pts : list dot) : gmap Z (list Q) :=
  foldl (λ buckets p,
           let dec := decadeOf p in
           <[dec := default [] (buckets !! dec) ++ [y p]]> buckets) ∅ pts.

(** [ys.reduce((a, b) => a + b, 0) / ys.length]. *)
Definition average (ys : list Q) : Q :=
  (foldl Qplus 0 ys / inject_Z (Z.of_nat (length ys)))%Q.

Definition avgByDecade (pts : list dot) : list point :=
  let buckets := fill_buckets pts in
  (λ dec, {| px := yearToX (dec + 5);
             py := average (default [] (buckets !! dec)) |})
    <$> sort (λ a b, a - b) (map_to_list buckets).*1.

Definition computeTrends (positions : list dot) : list point * list point :=
  let acad := filter (λ p, strict_eq_str (paradigm (d p)) "academic") positions in
  let prac := filter (λ p, strict_eq_str (paradigm (d p)) "practitioner") positions in
  (avgByDecade acad, avgByDecade prac).
End layout.

(** *** Hit testing *)

(** One pass of [for (i = n - 1; i >= 0; i--)] returning the first index, from
    the end, whose dot is of the wanted kind and within [r] of the mouse. *)
Fixpoint scan (wantNote : bool) (r : Q) (mx my : Q) (positions : list dot) (n : nat)
  : option nat :=
  match n with
  | O => None
  | S i =>
      match positions !! i with
      | Some p =>
          if negb (Bool.eqb (truthy (has_note (d p))) wantNote) then
            scan wantNote r mx my positions i
          else
            let dx := (mx - x p)%Q in
            let dy := (my - y p)%Q in
            if Qle_bool (dx * dx + dy * dy) (r * r) then Some i
            else scan wantNote r mx my positions i
      | None => scan wantNote r mx my positions i
      end
  end.

Definition getHitIndex (positions : list dot) (mx my : Q) : Z :=
  match scan true (DOT_R_HOVER + 2) mx my positions (length positions) with
  | Some i => Z.of_nat i
  | None =>
      match scan false (DOT_R + 6) mx my positions (length positions) with
      | Some i => Z.of_nat i
      | None => -1
      end
  end.







(** Three dots on one line: a research note, a regular dot, a research note. *)
Definition mm1958 : item :=
  {| author := TStr "Modigliani, Franco; Miller, Merton";
     title := TStr "The Cost of Capital"; year := 1958; score := Some (4 # 5);
     paradigm := VStr "academic"; has_note := VBool true |}.

Definition dewing1953 : item :=
  {| author := TStr "Dewing, Arthur"; title := TStr "The Financial Policy of Corporations";
     year := 1953; score := Some (- (1 # 2))%Q; paradigm := VStr "practitioner";
     has_note := VUndef |}.

Definition markowitz1952 : item :=
  {| author := TStr "Markowitz, Harry"; title := TStr "Portfolio Selection";
     year := 1952; score := Some (3 # 5); paradigm := VStr "academic";
     has_note := VBool true |}.

Definition example_dots : list dot :=
  [ {| x := 100; y := 100; d := mm1958 |};
    {| x := 110; y := 100; d := dewing1953 |};
    {| x := 130; y := 100; d := markowitz1952 |} ].

(** *** Trend lines as the specification words them *)

(** The [y] positions of the dots of a paradigm in a decade. *)
Definition inDecade (name : string) (dec : Z) (p : dot) : bool :=
  strict_eq_str (paradigm (d p)) name && (decadeOf p =? dec).

Definition decadeYs (name : string) (positions : list dot) (dec : Z) : list Q :=
  y <$> filter (λ p, inDecade name dec p) positions.

(** Arithmetic mean: the sum divided by the count. *)
Definition mean (ys : list Q) : Q :=
  (foldr Qplus 0 ys / inject_Z (Z.of_nat (length ys)))%Q.

(** [line] is the trend line of the paradigm [name]: one point per decade in
    which the paradigm has a dot, in ascending order of the decades, at
    [yearToX(decade + 5)] and at the mean of the decade's [y] positions. *)
Definition trendOf (w : Q) (minYear maxYear : Z) (name : string)
    (positions : list dot) (line : list point) : Prop :=
  ∃ decades : list Z,
    StronglySorted Z.lt decades
    ∧ (∀ dec, dec ∈ decades
              ↔ ∃ p, p ∈ positions ∧ paradigm (d p) = VStr name ∧ decadeOf p = dec)
    ∧ Forall2 (λ pt dec, px pt = yearToX w minYear maxYear (dec + 5)
                         ∧ (py pt == mean (decadeYs name positions dec))%Q)
        line decades.

(** *** State and handlers *)

Record state := {
  data : list item;           (* the array [window.TIMELINE_DATA] *)
  filter_ : string;
  hoveredIdx : Z;
  selectedIdx : Z;
  width : Q;
  positions : list dot;       (* [canvas._positions] *)
  popup : option item;
}.

Inductive event :=
  | MouseMove (mx my : Q)
  | Click (mx my : Q)
  | MouseLeave
  | FilterButton (f : string)
  | Resize (w : Q).

Definition set_view (f : string) (hov sel : Z) (wd : Q) (pop : option item)
    (st : state) : state :=
  {| data := data st; filter_ := f; hoveredIdx := hov; selectedIdx := sel;
     width := wd; positions := positions st; popup := pop |}.

(** The effect of [draw] on the state: [canvas._positions] is refreshed. *)
Definition draw (minYear maxYear : Z) (st : state) : state :=
  {| data := data st; filter_ := filter_ st; hoveredIdx := hoveredIdx st;
     selectedIdx := selectedIdx st; width := width st;
     positions := layoutDots (width st) minYear maxYear
                    (getFiltered (data st) (filter_ st));
     popup := popup st |}.

Definition handle (minYear maxYear : Z) (ev : event) (st : state) : state :=
  match ev with
  | MouseMove mx my =>
      let idx := getHitIndex (positions st) mx my in
      if idx =? hoveredIdx st then st
      else draw minYear maxYear
             (set_view (filter_ st) idx (selectedIdx st) (width st) (popup st) st)
  | Click mx my =>
      let idx := getHitIndex (positions st) mx my in
      if idx >=? 0 then
        draw minYear maxYear
          (set_view (filter_ st) (hoveredIdx st) idx (width st)
             (d <$> positions st !! Z.to_nat idx) st)
      else
        draw minYear maxYear
          (set_view (filter_ st) (hoveredIdx st) (-1) (width st) None st)
  | MouseLeave =>
      draw minYear maxYear
        (set_view (filter_ st) (-1) (selectedIdx st) (width st) (popup st) st)
  | FilterButton f =>
      draw minYear maxYear (set_view f (hoveredIdx st) (-1) (width st) None st)
  | Resize wd =>
      draw minYear maxYear
        (set_view (filter_ st) (hoveredIdx st) (selectedIdx st) wd (popup st) st)
  end.

Definition run (minYear maxYear : Z) (evs : list event) (st : state) : state :=
  foldl (λ s ev, handle minYear maxYear ev s) st evs.

(** The top-level run on a wrapper of width [wd]: the year range of the axis
    and the state after the first [draw].  [None] when the script returns at
    once (empty dataset) or the dataset has no positive year. *)
Definition init (wd : Q) (data0 : list item) : option (Z * Z * state) :=
  match data0 with
  | [] => None
  | _ :: _ =>
      '(minYear, maxYear) ← yearBounds data0;
      Some (minYear, maxYear,
            draw minYear maxYear
              {| data := data0; filter_ := "all"; hoveredIdx := -1; selectedIdx := -1;
                 width := wd; positions := []; popup := None |})
  end.

End Timeline.

(** ** The periodicals charts

    [Periodicals] follows [static/js/periodicals.js]; [PeriodicalsSeries]
    follows the revision of the same script that draws three series through
    [getSeries] and [drawSeries].  Of [drawDivergence] the commands that plot the
    series are modelled; the background, grid, axis labels, the 1958 marker and
    the legend are drawn from constants and are left out. *)

Module Periodicals.
Import JS.

Definition hex_digit_of (c : ascii) : option Z :=
  let n := N_of_ascii c in
  if ((48 <=? n) && (n <=? 57))%N then Some (Z.of_N n - 48)
  else if ((65 <=? n) && (n <=? 70))%N then Some (Z.of_N n - 55)
  else if ((97 <=? n) && (n <=? 102))%N then Some (Z.of_N n - 87)
  else None.

(** Value of the longest prefix of digits; [acc] is [None] until a digit has
    been read. *)
Fixpoint digits_prefix (digit : ascii → option Z) (base : Z) (acc : option Z)
    (s : string) : option Z :=
  match s with
  | EmptyString => acc
  | String c r =>
      match digit c with
      | Some v => digits_prefix digit base (Some (base * default 0 acc + v)) r
      | None => acc
      end
  end.

(** [parseInt(s)] without a radix argument; [None] stands for [NaN]. *)
Definition parseInt (s : string) : option Z :=
  let t := trimStart s in
  let '(neg, body) :=
    match t with
    | String "-" r => (true, r)
    | String "+" r => (false, r)
    | _ => (false, t)
    end in
  let magnitude :=
    match body with
    | String "0" (String c r) =>
        if (Ascii.eqb c "x" || Ascii.eqb c "X")%bool
        then digits_prefix hex_digit_of 16 None r
        else digits_prefix digit_of 10 None body
    | _ => digits_prefix digit_of 10 None body
    end in
  (λ n, if neg : bool then - n else n) <$> magnitude.

(** [w.split('-')[0]]. *)
Fixpoint windowStart (w : string) : string :=
  match w with
  | EmptyString => EmptyString
  | String c r => if Ascii.eqb c "-" then EmptyString else String c (windowStart r)
  end.

(** [parseInt(w.split('-')[0]) + 2]. *)
Definition windowMid (w : string) : option Z :=
  (λ n, n + 2) <$> parseInt (windowStart w).

(** The comparator that [sort()] uses without an argument, on strings. *)
Definition defaultCompare (a b : string) : Z :=
  if str_lt a b then -1 else if str_lt b a then 1 else 0.

(** [Object.keys(obj).sort()]. *)
Definition sortedKeys (obj : gmap string Q) : list string :=
  sort defaultCompare (map_to_list obj).*1.

(** Canvas calls.  An abscissa is [None] when it is [NaN]. *)
Inductive cmd :=
  | BeginPath
  | MoveTo (x : option Q) (y : Q)
  | LineTo (x : option Q) (y : Q)
  | ClosePath
  | Arc (x : option Q) (y : Q) (r : Q)
  | FillStyle (s : string)
  | StrokeStyle (s : string)
  | LineWidth (n : Q)
  | Fill
  | Stroke.

Definition PURPLE : string := "#a78bfa".
Definition GOLD : string := "#d4a017".
Definition BLUE : string := "#5ba4cf".
Definition BG : string := "#1c1a22".

(** The body of [for (i = 0; i < mids.length; i++)] that traces the line. *)
Definition trace (pts : list (option Q * Q)) : list cmd :=
  imap (λ i p, if bool_decide (i = 0%nat) then MoveTo p.1 p.2 else LineTo p.1 p.2) pts.

(** *** The plot as the specification words it *)

(** One polyline through [pts] in their order: it starts at the first point
    and is continued to each following one. *)
Definition polyline (pts : list (option Q * Q)) : list cmd :=
  match pts with
  | [] => []
  | p :: ps => MoveTo p.1 p.2 :: ((λ q, LineTo q.1 q.2) <$> ps)
  end.

(** The centres of the dots that a sequence of calls draws, in order. *)
Definition arcs (cs : list cmd) : list (option Q * Q) :=
  omap (λ c, match c with Arc x y _ => Some (x, y) | _ => None end) cs.

(** One point per window of [obj], in ascending order of the window keys, at
    the abscissa of the window's start year plus 2 and the ordinate of its
    [cosine_distance]. *)
Definition seriesPoints (xPos : option Z → option Q) (yPos : Q → Q)
    (obj : gmap string Q) : list (option Q * Q) :=
  (λ k, (xPos (windowMid k), yPos (default 0%Q (obj !! k)))) <$> sortedKeys obj.

(** Strictly ascending order of strings. *)
Definition ascending (wins : list string) : Prop :=
  StronglySorted (λ a b, str_lt a b = true) wins.

(** Divergence objects with one window and with two windows. *)
Definition one_window : gmap string Q := {[ "1955-1959" := 1 # 2 ]}.
Definition two_windows : gmap string Q := <[ "1950-1954" := 1 # 4 ]> one_window.

Section chart.
(** The canvas size in CSS pixels, the year range of the axis, and the
    object [D.divergence] with each entry reduced to its [cosine_distance]. *)
Variables (w h : Q) (minYear maxYear : Z) (divergence : gmap string Q).

Definition pad_top : Q := 30.
Definition pad_bottom : Q := 45.
Definition pad_left : Q := 60.
Definition pad_right : Q := 20.
Definition chartW : Q := w - pad_left - pad_right.
Definition chartH : Q := h - pad_top - pad_bottom.

Definition xPos (year : option Z) : option Q :=
  (λ yr, pad_left + (inject_Z (yr - minYear) / inject_Z (maxYear - minYear)) * chartW)%Q
    <$> year.
Definition yPos (val : Q) : Q := (pad_top + (1 - val) * chartH)%Q.

Definition divWindows : list string := sortedKeys divergence.
Definition divMids : list (option Z) := windowMid <$> divWindows.
Definition divVals : list Q := (λ dw, default 0%Q (divergence !! dw)) <$> divWindows.

(** The plotted points [(xPos(divMids[i]), yPos(divVals[i]))]. *)
Definition divPoints : list (option Q * Q) :=
  zip_with (λ m v, (xPos m, yPos v)) divMids divVals.

Definition areaFill : list cmd :=
  if (1 <? length divMids)%nat then
    [BeginPath; MoveTo (xPos (default None (head divMids))) (yPos 0)]
    ++ ((λ p, LineTo p.1 p.2) <$> divPoints)
    ++ [LineTo (xPos (default None (last divMids))) (yPos 0); ClosePath;
        FillStyle "rgba(167, 139, 250, 0.15)"; Fill]
  else [].

Definition line : list cmd :=
  [BeginPath; StrokeStyle PURPLE; LineWidth (5 # 2)] ++ trace divPoints ++ [Stroke].

Definition dots : list cmd :=
  divPoints ≫= (λ p,
    [BeginPath; Arc p.1 p.2 4; FillStyle PURPLE; Fill;
     StrokeStyle BG; LineWidth (3 # 2); Stroke]).

(** The series part of [drawDivergence]; nothing is plotted when the object
    has no window. *)
Definition drawDivergence : list cmd :=
  if bool_decide (divWindows = []) then []
  else areaFill ++ line ++ dots.
End chart.

End Periodicals.

Module PeriodicalsSeries.
Import JS Periodicals.

(** [getSeries(obj)]: [{mids, vals}]. *)
Definition getSeries (obj : gmap string Q) : list (option Z) * list Q :=
  let wins := sortedKeys obj in
  (windowMid <$> wins, (λ w, default 0%Q (obj !! w)) <$> wins).

Section chart.
Variables (w h : Q) (minYear maxYear : Z).
(** [D.divergence], [D.prac_lag] and [D.acad_lag]. *)
Variables (divergence pracLag acadLag : gmap string Q).

Definition pad_top : Q := 30.
Definition pad_bottom : Q := 55.
Definition pad_left : Q := 60.
Definition pad_right : Q := 20.
Definition chartW : Q := w - pad_left - pad_right.
Definition chartH : Q := h - pad_top - pad_bottom.

Definition xPos (year : option Z) : option Q :=
  (λ yr, pad_left + (inject_Z (yr - minYear) / inject_Z (maxYear - minYear)) * chartW)%Q
    <$> year.
Definition yPos (val : Q) : Q := (pad_top + (1 - val) * chartH)%Q.

Definition points (mids : list (option Z)) (vals : list Q) : list (option Q * Q) :=
  zip_with (λ m v, (xPos m, yPos v)) mids vals.

(** [drawSeries(mids, vals, color, dotRadius)], for a non-zero radius. *)
Definition drawSeries (mids : list (option Z)) (vals : list Q) (color : string)
    (dotRadius : Q) : list cmd :=
  if (length mids <? 2)%nat then []
  else
    ([BeginPath; StrokeStyle color; LineWidth 2] ++ trace (points mids vals) ++ [Stroke])
    ++ (points mids vals ≫= (λ p,
          [BeginPath; Arc p.1 p.2 dotRadius; FillStyle color; Fill;
           StrokeStyle BG; LineWidth 1; Stroke])).

Definition drawDivergence : list cmd :=
  let cross := getSeries divergence in
  let pLag := getSeries pracLag in
  let aLag := getSeries acadLag in
  if (bool_decide (cross.1 = []) && bool_decide (pLag.1 = [])
      && bool_decide (aLag.1 = []))%bool then []
  else
    drawSeries pLag.1 pLag.2 GOLD 3
    ++ drawSeries aLag.1 aLag.2 BLUE 3
    ++ drawSeries cross.1 cross.2 PURPLE 4.
End chart.

End PeriodicalsSeries.

(** ** More of the catalog script

    The parts of the first script of [static/js/library.js] beside filtering,
    sorting and rendering: the topic options, the status line, and what the
    author index holds. *)

Module Catalog.
Import JS Library.

(** *** Topic options *)

(** [[...new Set(xs)]]: the distinct elements in the order of their first
    occurrence. *)
Definition setOf (xs : list string) : list string :=
  foldl (λ acc x, if bool_decide (x ∈ acc) then acc else acc ++ [x]) [] xs.

(** The string of a truthy text value: what [filter(Boolean)] keeps. *)
Definition truthyString (t : text) : option string :=
  match t with
  | TStr s => if String.eqb s "" then None else Some s
  | _ => None
  end.

(** [[...new Set(data.map(d => d.topic).filter(Boolean))].sort()]. *)
Definition topicsOf (data : list record) : list string :=
  sort Periodicals.defaultCompare (setOf (omap (λ d, truthyString (topic d)) data)).

(** The values of the options of the topic filter after the script has
    appended the topics that the page did not list. *)
Definition populateTopics (options : list string) (data : list record) : list string :=
  options ++ filter (λ t, t ∉ options) (topicsOf data).

(** *** Status line *)

(** The text that [updateStats] writes. *)
Definition updateStats (st : state) : string :=
  let total := length (filteredArr st) in
  let haveCount := length (filter (λ d, truthy (have d)) (filteredArr st)) in
  let showing := Z.min (rendered st) (Z.of_nat total) in
  "Showing " +:+ pretty showing +:+ " of " +:+ pretty total +:+ " textbooks ("
  +:+ pretty haveCount +:+ " in collection)".

(** The page with its status line. *)
Record view := {
  page_state : state;
  stats : string;
}.

(** Whether the handler of [ev] reaches a call of [updateStats]: through
    [applyFilters], or in the observer's callback after [renderBatch]. *)
Definition callsUpdateStats (ev : event) (st : state) : bool :=
  match ev with
  | SearchInput _ => false
  | TimerFires => bool_decide (is_Some (timer st))
  | StreamChange _ | TopicChange _ | EraChange _ | HaveChange _ | SortClick _ => true
  | Intersect isIntersecting =>
      isIntersecting && (rendered st <? Z.of_nat (length (filteredArr st)))
  | AuthorClick _ | JourneyClose => false
  end.

Definition handleView (e : env) (ev : event) (v : view) : view :=
  let st' := handle e ev (page_state v) in
  {| page_state := st';
     stats := if callsUpdateStats ev (page_state v) then updateStats st' else stats v |}.

Definition runView (e : env) (evs : list event) (v : view) : view :=
  foldl (λ v ev, handleView e ev v) v evs.

(** The view once the script has run: [applyFilters] ends with [updateStats]. *)
Definition initView (pg : page) (data0 : list record) : option (env * view) :=
  '(e, st0) ← init pg data0;
  Some (e, {| page_state := st0; stats := updateStats st0 |}).

(** *** Statements *)

(** The characters of a string. *)
Fixpoint chars (s : string) : list ascii :=
  match s with
  | EmptyString => []
  | String c r => c :: chars r
  end.

(** The records indexed under [key]: each record of the data once per
    occurrence of [key] among its author keys, in the order of the data. *)
Definition worksOf (key : string) (data : list record) : list record :=
  data ≫= (λ d, (λ _, d) <$> filter (λ k, k = key) (getAuthorKeys (author d))).

(** While the author index is built: the array of each indexed key holds
    [expected key], a key without array expects nothing, and distinct keys
    have distinct arrays, all of them created after [base]. *)
Definition index_content (base : state) (expected : string → list record)
    (acc : gmap string loc * state) : Prop :=
  (∀ k, match acc.1 !! k with
        | Some l => (next_loc base ≤ l < next_loc acc.2)%nat
                    ∧ heap acc.2 !! l = Some (expected k)
        | None => expected k = []
        end)
  ∧ ∀ k1 k2 l, acc.1 !! k1 = Some l → acc.1 !! k2 = Some l → k1 = k2.

(** No control is active. *)
Definition inactive (c : controls) : Prop :=
  queryOf c = "" ∧ streamValue c = "" ∧ topicValue c = "" ∧ eraValue c = ""
  ∧ haveValue c ≠ "yes" ∧ haveValue c ≠ "no".

(** [c'] restricts at least as much as [c]: the query of [c] occurs in the
    query of [c'], and each filter that [c] sets has the same value in [c']. *)
Definition narrows (c c' : controls) : Prop :=
  includes (queryOf c') (queryOf c) = true
  ∧ (streamValue c = "" ∨ streamValue c' = streamValue c)
  ∧ (topicValue c = "" ∨ topicValue c' = topicValue c)
  ∧ (eraValue c = "" ∨ eraValue c' = eraValue c)
  ∧ ((haveValue c ≠ "yes" ∧ haveValue c ≠ "no") ∨ haveValue c' = haveValue c).

End Catalog.

(** ** More of the timeline script

    The year ticks of the axis, and the statements on the layout and on the
    state of the timeline. *)

Module TimelineView.
Import JS Timeline.

(** *** Year ticks *)

(** [maxYear - minYear > 200 ? 50 : 25]. *)
Definition tickStep (minYear maxYear : Z) : Z :=
  if maxYear - minYear >? 200 then 50 else 25.

(** [Math.ceil(minYear / step) * step]. *)
Definition firstTick (minYear step : Z) : Z := - ((- minYear) / step) * step.

(** [for (let y = first; y <= maxYear; y += step)]: the values of [y] in the
    body, at most [fuel] of them. *)
Fixpoint ticks_loop (fuel : nat) (step maxYear y : Z) : list Z :=
  match fuel with
  | O => []
  | S k => if y <=? maxYear then y :: ticks_loop k step maxYear (y + step) else []
  end.

(** The years that get a tick on the axis. *)
Definition yearTicks (minYear maxYear : Z) : list Z :=
  let step := tickStep minYear maxYear in
  ticks_loop (Z.to_nat (maxYear - minYear + 1)) step maxYear (firstTick minYear step).

(** *** Statements *)

(** The hash as a polynomial in 31 over the character codes, without the
    reduction to 32 bits. *)
Definition hashPoly (codes : list Z) : Z := foldl (λ h c, 31 * h + c) 0 codes.

(** The states that the timeline reaches on a wrapper of width [wd]. *)
Definition reachable (minYear maxYear : Z) (data0 : list item) (st : state) : Prop :=
  ∃ wd st0 evs, init wd data0 = Some (minYear, maxYear, st0)
                ∧ st = run minYear maxYear evs st0.

(** [canvas._positions] is the layout of the items of the current filter at
    the current width. *)
Definition laid_out (minYear maxYear : Z) (st : state) : Prop :=
  positions st
  = layoutDots (width st) minYear maxYear (getFiltered (data st) (filter_ st)).

(** Nothing is selected and the popup is hidden, or the popup shows the item
    of the selected dot. *)
Definition selection_inv (st : state) : Prop :=
  (selectedIdx st = -1 ∧ popup st = None)
  ∨ (0 ≤ selectedIdx st < Z.of_nat (length (positions st))
     ∧ is_Some (popup st)
     ∧ popup st = d <$> positions st !! Z.to_nat (selectedIdx st)).

(** *** A small timeline *)

Definition example_items : list item := [mm1958; dewing1953; markowitz1952].

(** The state once the script has run on these items in a wrapper 980 pixels
    wide. *)
Definition example_timeline : state :=
  match init 980 example_items with
  | Some (_, _, st) => st
  | None =>
      {| data := example_items; filter_ := "all"; hoveredIdx := -1; selectedIdx := -1;
         width := 980; positions := []; popup := None |}
  end.

End TimelineView.

(** ** More of the periodicals script

    [setupCanvas], the topic buttons and the scale of the topic chart of
    [static/js/periodicals.js]. *)

Module PeriodicalsPage.
Import JS Periodicals.

(** *** [setupCanvas] *)



Section setupCanvas.
(** [devicePixelRatio], and the string that the [height] attribute holds once
    [canvas.height = v] has run. *)
Variables (dpr : Q) (reflect : Q → string).

End setupCanvas.

(** *** Topic buttons *)

(** [selectedTopics] when the script starts. *)
Definition initialTopics : list string :=
  ["earnings_capitalization"; "dcf_npv"; "speculation_trading"; "portfolio_theory"].

(** [l.indexOf(key)]; [None] stands for [-1]. *)
Fixpoint indexOf (key : string) (l : list string) : option nat :=
  match l with
  | [] => None
  | k :: l' => if String.eqb k key then Some 0%nat else S <$> indexOf key l'
  end.

(** A button of the topic selector: its [data-topic] and whether its class
    list holds [active]. *)
Record button := {
  btn_topic : string;
  btn_active : bool;
}.

Record topicState := {
  selectedTopics : list string;
  buttons : list button;
}.

Definition buildTopicButtons (topicKeys : list string) (selected : list string)
  : list button :=
  (λ key, {| btn_topic := key;
             btn_active := bool_decide (is_Some (indexOf key selected)) |})
    <$> topicKeys.

(** The click handler of the button at position [i]: the key is spliced out
    of [selectedTopics] or pushed onto it, and the button's [active] class is
    toggled. *)
Definition clickTopic (i : nat) (st : topicState) : topicState :=
  match buttons st !! i with
  | None => st
  | Some b =>
      let key := btn_topic b in
      {| selectedTopics :=
           match indexOf key (selectedTopics st) with
           | Some idx => delete idx (selectedTopics st)
           | None => selectedTopics st ++ [key]
           end;
         buttons :=
           <[i := {| btn_topic := key; btn_active := negb (btn_active b) |}]>
             (buttons st) |}
  end.

(** The page once [buildTopicButtons] has run, and after clicks on buttons. *)
Definition topicsStart (topicKeys : list string) : topicState :=
  {| selectedTopics := initialTopics;
     buttons := buildTopicButtons topicKeys initialTopics |}.

Definition clicks (idxs : list nat) (st : topicState) : topicState :=
  foldl (λ s i, clickTopic i s) st idxs.

(** *** The scale of the topic chart *)

(** [s[wi] ? (s[wi][tk] || 0) : 0] for a stream [s] of windows
    [{topic: freq, total_docs: n}]. *)
Definition valueOf (s : gmap string (gmap string Q)) (wi tk : string) : Q :=
  match s !! wi with
  | Some win => default 0%Q (win !! tk)
  | None => 0%Q
  end.

(** [Object.keys(Object.assign({}, prac, acad)).sort()]. *)
Definition allWindows (prac acad : gmap string (gmap string Q)) : list string :=
  sort defaultCompare (map_to_list (acad ∪ prac)).*1.

(** [if (v > m) m = v]. *)
Definition raise (m v : Q) : Q := if Qle_bool v m then m else v.

Section topics.
Variables (prac acad : gmap string (gmap string Q)) (selected : list string).

(** [maxVal] after the two nested [forEach]. *)
Definition scanMax : Q :=
  foldl (λ m wi,
           foldl (λ m tk, raise (raise m (valueOf prac wi tk)) (valueOf acad wi tk))
             m selected)
    (5 # 100)%Q (allWindows prac acad).

(** [maxVal] as the axis uses it. *)
Definition maxVal : Q :=
  let m := (inject_Z (Qround.Qceiling (scanMax * 10)) / 10)%Q in
  if Qle_bool (5 # 100) m then m else (5 # 100)%Q.

Variable (h : Q).
Definition topics_pad_top : Q := 20.
Definition topics_pad_bottom : Q := 45.
Definition topics_chartH : Q := h - topics_pad_top - topics_pad_bottom.
Definition topics_yPos (val : Q) : Q :=
  (topics_pad_top + (1 - val / maxVal) * topics_chartH)%Q.
End topics.

(** *** Statements *)

(** A character that a decimal numeral is made of. *)
Definition digit_char (c : ascii) : Prop := ∃ d, (d < 10)%N ∧ c = pretty_N_char d.

(** The buttons show the selection: the keys are those of the topics, in
    their order, and a button is active exactly when its key is selected. *)
Definition buttons_inv (topicKeys : list string) (st : topicState) : Prop :=
  NoDup (selectedTopics st)
  ∧ btn_topic <$> buttons st = topicKeys
  ∧ ∀ b, b ∈ buttons st → btn_active b = true ↔ btn_topic b ∈ selectedTopics st.

End PeriodicalsPage.

(** ** The paradigm spectrum of the later revision of the periodicals script *)

Module Spectrum.
Import JS Periodicals.

(** An entry of [dotPositions]; the abscissa is [None] when it is [NaN]. *)
Record spot := {
  sx : option Q;
  sy : Q;
  name : string;
  window : string;
  score : Q;
}.

Definition yBound : Q := 1 # 2.

(** [Math.max(-yBound, Math.min(yBound, v))]. *)
Definition clamp (v : Q) : Q :=
  let m := if Qle_bool yBound v then yBound else v in
  if Qle_bool (- yBound) m then m else (- yBound)%Q.

Section chart.
Variables (w h : Q) (minYear maxYear : Z).

Definition pad_top : Q := 30.
Definition pad_bottom : Q := 35.
Definition pad_left : Q := 60.
Definition pad_right : Q := 20.
Definition chartW : Q := w - pad_left - pad_right.
Definition chartH : Q := h - pad_top - pad_bottom.

Definition xPos (year : option Z) : option Q :=
  (λ yr, pad_left + (inject_Z (yr - minYear) / inject_Z (maxYear - minYear)) * chartW)%Q
    <$> year.
Definition yPos (val : Q) : Q :=
  (pad_top + ((yBound - val) / (2 * yBound)) * chartH)%Q.

(** The entries that the loop over the windows of one source pushes onto
    [dotPositions]. *)
Definition sourceDots (source : string) (series : gmap string Q) : list spot :=
  (λ wi,
    let val := default 0%Q (series !! wi) in
    {| sx := xPos (windowMid wi); sy := yPos (clamp val);
       name := source; window := wi; score := val |})
    <$> sortedKeys series.
End chart.

(** *** The tooltip *)




End Spectrum.

(** * Properties *)

(** ** Sorting and strings *)

Module JSFacts.
Import JS.

Section sort.
Context {A : Type} (cmp : A → A → Z).

Lemma sort_insert_perm x l : sort_insert cmp x l ≡ₚ x :: l.
Proof.
  induction l as [|y l IH]; simpl; [done|].
  destruct (cmp x y <=? 0); [done|].
  rewrite IH. apply Permutation_swap.
Qed.

Lemma sort_perm l : sort cmp l ≡ₚ l.
Proof.
  induction l as [|x l IH]; simpl; [done|].
  unfold sort in *. rewrite sort_insert_perm. by rewrite IH.
Qed.

Lemma sort_length l : length (sort cmp l) = length l.
Proof. by rewrite sort_perm. Qed.

Lemma elem_of_sort x l : x ∈ sort cmp l ↔ x ∈ l.
Proof. by rewrite sort_perm. Qed.

(** A comparator whose sign decides a total preorder [R] sorts by [R]. *)
Lemma sort_sorted (R : relation A) l :
  (∀ a b, R a b ↔ cmp a b ≤ 0) → Total R → Transitive R →
  StronglySorted R (sort cmp l).
Proof.
  intros HR Htot Htr.
  induction l as [|x l IH]; simpl; [constructor|].
  unfold sort in *. revert IH. generalize (foldr (sort_insert cmp) [] l).
  intros s Hs. induction Hs as [|y s Hs IH Hy]; simpl.
  - repeat constructor.
  - destruct (Z.leb_spec (cmp x y) 0) as [Hle|Hgt].
    + apply HR in Hle. constructor; [by constructor|].
      constructor; [done|].
      eapply Forall_impl; [exact Hy|]. intros z Hz. by etrans.
    + assert (R y x) as Hyx.
      { destruct (Htot x y) as [Hxy|]; [|done]. apply HR in Hxy. lia. }
      constructor; [done|].
      rewrite (sort_insert_perm x s). by constructor.
Qed.
End sort.

Lemma ltb_le a b : String.ltb a b = true → String.le a b.
Proof.
  unfold String.le, String.ltb, String.leb.
  destruct (String.compare a b); simpl; done.
Qed.

Lemma not_ltb_le a b : String.ltb a b = false → String.le b a.
Proof.
  unfold String.le, String.ltb, String.leb.
  rewrite (String.compare_antisym b a).
  destruct (String.compare a b); simpl; done.
Qed.

Lemma le_not_ltb a b : String.le a b → String.ltb b a = false.
Proof.
  unfold String.le, String.ltb, String.leb.
  rewrite (String.compare_antisym b a).
  destruct (String.compare a b); simpl; done.
Qed.

Lemma eqb_false_ne a b : String.eqb a b = false ↔ a ≠ b.
Proof. by rewrite <-String.eqb_neq. Qed.

Lemma strict_eq_str_spec (v : value) s : strict_eq_str v s = true ↔ v = VStr s.
Proof.
  destruct v; simpl; try (split; [discriminate|discriminate]).
  rewrite String.eqb_eq. split; [by intros ->|by intros [= ->]].
Qed.

End JSFacts.
(** ** The catalog *)

Module LibraryFacts.
Import JS Library JSFacts.

(** Closes a goal [false = true ↔ C] in which one conjunct of [C] is a false
    implication between boolean constants. *)
Ltac fails_condition :=
  split;
  [discriminate
  |let H1 := fresh in let H2 := fresh in let H3 := fresh in
   let H4 := fresh in let H5 := fresh in let H6 := fresh in
   intros (H1 & H2 & H3 & H4 & H5 & H6);
   first [discriminate (H1 eq_refl) | discriminate (H2 eq_refl)
         | discriminate (H3 eq_refl) | destruct (H4 eq_refl); discriminate
         | discriminate (H5 eq_refl) | discriminate (H6 eq_refl)]].

Lemma passes_satisfies c d : passes c d = true ↔ satisfies hay c d.
Proof.
  unfold passes, satisfies, yearNum.
  destruct (getEraRange (eraValue c)) as [lo hi]; simpl.
  rewrite <-!eqb_false_ne, <-!strict_eq_str_spec, <-!String.eqb_eq.
  assert (lo ≤ NumberOr0 (year d) ≤ hi
          ↔ (NumberOr0 (year d) <? lo) = false ∧ (NumberOr0 (year d) >? hi) = false)
    as ->.
  { destruct (Z.ltb_spec (NumberOr0 (year d)) lo), (Z.gtb_spec (NumberOr0 (year d)) hi);
      intuition (lia || congruence). }
  destruct (String.eqb (queryOf c) ""), (includes (hay d) (queryOf c));
    simpl; try fails_condition;
  (destruct (String.eqb (streamValue c) ""), (strict_eq_str (stream d) (streamValue c));
    simpl; try fails_condition);
  (destruct (String.eqb (topicValue c) ""), (strict_eq_str (topic d) (topicValue c));
    simpl; try fails_condition);
  (destruct (String.eqb (eraValue c) ""), (NumberOr0 (year d) <? lo),
     (NumberOr0 (year d) >? hi); simpl; try fails_condition);
  (destruct (String.eqb_spec (haveValue c) "yes") as [Hy|Hy];
    [rewrite Hy|]; simpl; destruct (truthy (have d)); simpl; try fails_condition);
  (destruct (String.eqb (haveValue c) "no"); simpl; try fails_condition);
  (split; [intros _; split_and!; intros; (done || congruence)|done]).
Qed.

Lemma renderBatch_frame e st :
  heap (renderBatch e st) = heap st ∧ next_loc (renderBatch e st) = next_loc st
  ∧ filtered (renderBatch e st) = filtered st
  ∧ sortField (renderBatch e st) = sortField st
  ∧ sortDir (renderBatch e st) = sortDir st
  ∧ ctl (renderBatch e st) = ctl st
  ∧ journeyPanel (renderBatch e st) = journeyPanel st
  ∧ timer (renderBatch e st) = timer st.
Proof. unfold renderBatch. by case_match. Qed.

Lemma renderBatch_filteredArr e st : filteredArr (renderBatch e st) = filteredArr st.
Proof.
  unfold filteredArr. destruct (renderBatch_frame e st) as (-> & _ & -> & _). done.
Qed.

Lemma applyFilters_filteredArr e st :
  filteredArr (applyFilters e st)
  = sort (compareRecords (sortField st) (sortDir st))
      (filter (λ d, passes (ctl st) d) (arr (heap st) (data e))).
Proof.
  unfold applyFilters, alloc. simpl.
  rewrite renderBatch_filteredArr. unfold filteredArr, sort_in_place, arr. simpl.
  by rewrite !lookup_insert_eq.
Qed.

Lemma applyFilters_frame e st :
  sortField (applyFilters e st) = sortField st
  ∧ sortDir (applyFilters e st) = sortDir st
  ∧ ctl (applyFilters e st) = ctl st
  ∧ journeyPanel (applyFilters e st) = journeyPanel st
  ∧ timer (applyFilters e st) = timer st.
Proof.
  unfold applyFilters, alloc. simpl.
  match goal with
  | |- context [renderBatch e ?s] =>
      destruct (renderBatch_frame e s) as (_ & _ & _ & -> & -> & -> & -> & ->)
  end.
  done.
Qed.

Lemma sortClick_field e field st :
  sortField (sortClick e field st) = field
  ∧ sortDir (sortClick e field st)
    = if String.eqb (sortField st) field then - sortDir st else 1.
Proof.
  unfold sortClick.
  match goal with
  | |- context [applyFilters e ?s] =>
      destruct (applyFilters_frame e s) as (-> & -> & _)
  end.
  destruct (String.eqb_spec (sortField st) field) as [->|]; simpl; [|done].
  split; [done|lia].
Qed.

(** The comparator decides the order of the keys. *)
Lemma compareRecords_asc field a b :
  key_le field a b ↔ compareRecords field 1 a b ≤ 0.
Proof.
  unfold key_le, compareRecords.
  destruct (String.eqb field "year").
  - destruct (Z.ltb_spec (NumberOr0 (getField field a)) (NumberOr0 (getField field b)));
      [lia|].
    destruct (Z.gtb_spec (NumberOr0 (getField field a)) (NumberOr0 (getField field b)));
      lia.
  - fold (textKey field a) (textKey field b). unfold str_lt.
    destruct (String.ltb (textKey field a) (textKey field b)) eqn:Hab.
    { split; [lia|]. intros _. by apply ltb_le. }
    destruct (String.ltb (textKey field b) (textKey field a)) eqn:Hba.
    { split; [|lia]. intros Hle. apply le_not_ltb in Hle. congruence. }
    split; [lia|]. intros _. by apply not_ltb_le.
Qed.

Lemma compareRecords_desc field a b :
  key_le field b a ↔ compareRecords field (-1) a b ≤ 0.
Proof.
  unfold key_le, compareRecords.
  destruct (String.eqb field "year").
  - destruct (Z.ltb_spec (NumberOr0 (getField field a)) (NumberOr0 (getField field b)));
      [lia|].
    destruct (Z.gtb_spec (NumberOr0 (getField field a)) (NumberOr0 (getField field b)));
      lia.
  - fold (textKey field a) (textKey field b). unfold str_lt.
    destruct (String.ltb (textKey field a) (textKey field b)) eqn:Hab.
    { split; [|lia]. intros Hle. apply le_not_ltb in Hle. congruence. }
    destruct (String.ltb (textKey field b) (textKey field a)) eqn:Hba.
    { split; [lia|]. intros _. by apply ltb_le. }
    split; [lia|]. intros _. by apply not_ltb_le.
Qed.

Global Instance key_le_total field : Total (key_le field).
Proof.
  intros a b. unfold key_le. destruct (String.eqb field "year"); [lia|].
  apply String.le_total.
Qed.

Global Instance key_le_trans field : Transitive (key_le field).
Proof.
  intros a b c. unfold key_le. destruct (String.eqb field "year"); [lia|].
  apply transitivity.
Qed.


(** *** The store *)

Lemma extends_refl st : extends st st.
Proof. by split. Qed.

Lemma extends_trans st1 st2 st3 : extends st1 st2 → extends st2 st3 → extends st1 st3.
Proof.
  intros [Hn1 Hh1] [Hn2 Hh2]. split; [lia|].
  intros l Hl. rewrite Hh2 by lia. by apply Hh1.
Qed.

Lemma applyFilters_store e st :
  next_loc (applyFilters e st) = S (next_loc st)
  ∧ filtered (applyFilters e st) = next_loc st
  ∧ ∀ l, l ≠ next_loc st → heap (applyFilters e st) !! l = heap st !! l.
Proof.
  unfold applyFilters, alloc. simpl.
  match goal with
  | |- context [renderBatch e ?s] =>
      destruct (renderBatch_frame e s) as (-> & -> & -> & _)
  end.
  simpl. split_and!; [done..|].
  intros l Hl. by rewrite !lookup_insert_ne.
Qed.

Lemma applyFilters_extends e st : extends st (applyFilters e st).
Proof.
  destruct (applyFilters_store e st) as (Hn & _ & Hh).
  split; [lia|]. intros l Hl. apply Hh. lia.
Qed.

Lemma showAuthorJourney_store e key name st :
  next_loc (showAuthorJourney e key name st) = S (next_loc st)
  ∧ filtered (showAuthorJourney e key name st) = filtered st
  ∧ rendered (showAuthorJourney e key name st) = rendered st
  ∧ tbody (showAuthorJourney e key name st) = tbody st
  ∧ loadMoreDisplay (showAuthorJourney e key name st) = loadMoreDisplay st
  ∧ sortDir (showAuthorJourney e key name st) = sortDir st
  ∧ ∀ l, l ≠ next_loc st → heap (showAuthorJourney e key name st) !! l = heap st !! l.
Proof.
  unfold showAuthorJourney, alloc. simpl.
  case_match; simpl; split_and!; try done;
    intros l Hl; by rewrite !lookup_insert_ne.
Qed.

Lemma showAuthorJourney_extends e key name st :
  extends st (showAuthorJourney e key name st).
Proof.
  destruct (showAuthorJourney_store e key name st) as (Hn & _ & _ & _ & _ & _ & Hh).
  split; [lia|]. intros l Hl. apply Hh. lia.
Qed.

Lemma handle_extends e ev st : extends st (handle e ev st).
Proof.
  destruct ev; simpl;
    try (match goal with
         | |- context [applyFilters e ?s] =>
             apply (extends_trans _ s); [by split|apply applyFilters_extends]
         end).
  - by split.
  - destruct (timer st); [|apply extends_refl].
    eapply extends_trans; [|apply applyFilters_extends]. by split.
  - unfold sortClick.
    eapply extends_trans; [|apply applyFilters_extends].
    by destruct (String.eqb (sortField st) field).
  - case_match; [|apply extends_refl].
    destruct (renderBatch_frame e st) as (Hh & Hn & _). split; [lia|].
    intros l _. by rewrite Hh.
  - repeat case_match; try apply extends_refl. apply showAuthorJourney_extends.
  - by split.
Qed.

Lemma run_snoc e evs ev st : run e (evs ++ [ev]) st = handle e ev (run e evs st).
Proof. unfold run. by rewrite foldl_app. Qed.

Lemma run_extends e evs st : extends st (run e evs st).
Proof.
  induction evs as [|ev evs IH] using rev_ind; [apply extends_refl|].
  rewrite run_snoc. eapply extends_trans; [exact IH|apply handle_extends].
Qed.


(** *** The author index *)

Lemma set_heap_base h n s base :
  s = set_heap (heap s) (next_loc s) base → set_heap h n s = set_heap h n base.
Proof. intros H. rewrite H. reflexivity. Qed.

Lemma index_push_inv base d acc k :
  index_inv base acc → index_inv base (index_push d acc k).
Proof.
  destruct acc as [idx s]. unfold index_inv, index_push. simpl.
  intros (Hs & [Hn Hh] & Hi).
  destruct (idx !! k) as [l|] eqn:Hk; simpl.
  - split_and!.
    + rewrite <-(set_heap_base _ _ _ _ Hs). reflexivity.
    + split; simpl; [done|]. intros l' Hl'.
      rewrite lookup_insert_ne; [by apply Hh|]. apply Hi in Hk. lia.
    + done.
  - split_and!.
    + rewrite <-(set_heap_base _ _ _ _ Hs). reflexivity.
    + split; simpl; [lia|]. intros l' Hl'.
      rewrite !lookup_insert_ne by lia. by apply Hh.
    + intros k' l'. destruct (decide (k = k')) as [->|Hne].
      * rewrite lookup_insert_eq. intros [= <-]. lia.
      * rewrite lookup_insert_ne by done. intros Hk'. apply Hi in Hk'. lia.
Qed.

Lemma build_index_inv ds st : index_inv st (build_index ds st).
Proof.
  unfold build_index.
  assert (index_inv st (∅, st)) as H0.
  { split_and!; [by destruct st|apply extends_refl|]. intros k l. simpl. by rewrite lookup_empty. }
  revert H0. generalize (∅ : gmap string loc, st). 
  induction ds as [|d ds IH]; intros acc Hacc; simpl; [done|].
  apply IH. clear IH. revert acc Hacc.
  induction (getAuthorKeys (author d)) as [|k ks IHk]; intros acc Hacc; simpl; [done|].
  apply IHk. by apply index_push_inv.
Qed.

(** What [init] yields. *)
Lemma init_Some pg data0 e st0 :
  init pg data0 = Some (e, st0) →
  ∃ st1, index_inv (start pg data0) (authorIndex e, st1)
         ∧ data e = 0%nat
         ∧ multiWorkAuthors e
           = dom (filter (λ kl, (2 ≤ length (arr (heap st1) kl.2))%nat) (authorIndex e))
         ∧ st0 = applyFilters e st1.
Proof.
  unfold init. destruct data0 as [|d ds]; [done|].
  pose proof (build_index_inv (d :: ds) (start pg (d :: ds))) as Hinv.
  destruct (build_index (d :: ds) (start pg (d :: ds))) as [idx st1].
  intros [= <- <-]. by exists st1.
Qed.

Lemma init_wf pg data0 e st0 : init pg data0 = Some (e, st0) → wf e st0.
Proof.
  intros Hinit. apply init_Some in Hinit as (st1 & (_ & [Hn _] & Hi) & Hd & _ & ->).
  simpl in *.
  destruct (applyFilters_store e st1) as (Hn' & Hf & _).
  unfold wf. rewrite Hn', Hf, Hd. split_and!; [lia..|].
  intros k l Hk. apply Hi in Hk. lia.
Qed.

Lemma handle_wf e ev st : wf e st → wf e (handle e ev st).
Proof.
  intros (Hd & Hf & Hi).
  assert (∀ s, next_loc s = next_loc st → wf e (applyFilters e s)) as Happly.
  { intros s Hs. destruct (applyFilters_store e s) as (Hn' & Hf' & _).
    unfold wf. rewrite Hn', Hf', Hs. split_and!; [lia..|].
    intros k l Hk. apply Hi in Hk. lia. }
  destruct ev; simpl; try (by apply Happly); try done.
  - destruct (timer st); [by apply Happly|done].
  - unfold sortClick. apply Happly. by destruct (String.eqb (sortField st) field).
  - case_match; [|done].
    destruct (renderBatch_frame e st) as (_ & Hn' & Hf' & _).
    unfold wf. by rewrite Hn', Hf'.
  - repeat case_match; try done.
    match goal with
    | |- wf e (showAuthorJourney e ?k ?n st) =>
        destruct (showAuthorJourney_store e k n st) as (Hn' & Hf' & _)
    end.
    unfold wf. rewrite Hn', Hf'. split_and!; [lia..|].
    intros k l Hk. apply Hi in Hk. lia.
Qed.

(** Induction over the reachable states. *)
Lemma reachable_ind (P : env → state → Prop) :
  (∀ pg data0 e st0, init pg data0 = Some (e, st0) → P e st0) →
  (∀ e st ev, reachable e st → P e st → P e (handle e ev st)) →
  ∀ e st, reachable e st → P e st.
Proof.
  intros Hinit Hstep e st (pg & data0 & st0 & evs & Hi & ->).
  induction evs as [|ev evs IH] using rev_ind; [by eapply Hinit|].
  rewrite run_snoc. apply Hstep; [|done]. by exists pg, data0, st0, evs.
Qed.

Lemma reachable_wf e st : reachable e st → wf e st.
Proof.
  revert e st. apply reachable_ind.
  - apply init_wf.
  - intros e st ev _. apply handle_wf.
Qed.


(** *** Incremental rendering *)

Lemma renderBatch_rows e st :
  0 ≤ rendered st ≤ Z.of_nat (length (filteredArr st)) →
  ∃ rows,
    tbody (renderBatch e st) = tbody st ++ rows
    ∧ Z.of_nat (length rows)
      = Z.min BATCH_SIZE (Z.of_nat (length (filteredArr st)) - rendered st)
    ∧ rendered (renderBatch e st) = rendered st + Z.of_nat (length rows)
    ∧ loadMoreDisplay (renderBatch e st)
      = (if rendered (renderBatch e st) <? Z.of_nat (length (filteredArr st))
         then "block" else "none").
Proof.
  intros Hr. unfold renderBatch, BATCH_SIZE in *.
  set (len := Z.of_nat (length (filteredArr st))) in *.
  destruct (Z.geb_spec (rendered st) (Z.min (rendered st + 60) len)) as [Hge|Hlt].
  - exists []. simpl. rewrite app_nil_r.
    assert (rendered st = len) as Heq by lia.
    split_and!; [done|lia|lia|]. destruct (Z.ltb_spec (rendered st) len); [lia|done].
  - eexists. simpl. split_and!; [done| |..].
    + rewrite length_fmap. unfold slice. rewrite length_take, length_drop.
      fold (filteredArr st). lia.
    + rewrite length_fmap. unfold slice. rewrite length_take, length_drop.
      fold (filteredArr st). lia.
    + done.
Qed.

Lemma renderBatch_table e st :
  0 ≤ rendered st ≤ Z.of_nat (length (filteredArr st)) →
  rendered st = Z.of_nat (length (tbody st)) →
  table_inv (renderBatch e st).
Proof.
  intros Hr Ht. destruct (renderBatch_rows e st Hr) as (rows & Hb & Hl & Hr' & Hd).
  unfold table_inv. rewrite renderBatch_filteredArr, Hb, length_app, Hd.
  split_and!; [lia..| |].
  - case_match; auto.
  - destruct (Z.ltb_spec (rendered (renderBatch e st))
                (Z.of_nat (length (filteredArr st)))); split; (done || lia).
Qed.

Lemma applyFilters_table e st : table_inv (applyFilters e st).
Proof.
  unfold applyFilters, alloc. simpl. apply renderBatch_table; simpl; lia.
Qed.

Lemma renderBatch_first e st :
  rendered st = 0 → tbody st = [] →
  tbody (renderBatch e st)
  = renderRow e <$> take (Z.to_nat BATCH_SIZE) (filteredArr st).
Proof.
  intros Hr Ht. unfold renderBatch, BATCH_SIZE. rewrite Hr, Ht.
  destruct (Z.geb_spec 0 (Z.min (0 + 60) (Z.of_nat (length (filteredArr st)))))
    as [Hge|Hlt]; simpl.
  - destruct (filteredArr st); [done|simpl in Hge; lia].
  - f_equal. unfold slice. rewrite Z.sub_0_r. simpl (drop _ _).
    destruct (Z.min_spec (0 + 60) (Z.of_nat (length (filteredArr st))))
      as [[? ->]|[? ->]]; [done|].
    change (Z.to_nat 0) with 0%nat. rewrite drop_0, Nat2Z.id, !take_ge; [done|lia..].
Qed.

Lemma applyFilters_tbody e st :
  tbody (applyFilters e st)
  = renderRow e <$> take (Z.to_nat BATCH_SIZE) (filteredArr (applyFilters e st)).
Proof.
  unfold applyFilters, alloc. simpl. rewrite renderBatch_filteredArr.
  by apply renderBatch_first.
Qed.

Lemma handle_table e ev st : wf e st → table_inv st → table_inv (handle e ev st).
Proof.
  intros (Hd & Hf & Hi) Ht.
  destruct ev; simpl; try apply applyFilters_table; try done.
  - destruct (timer st); [apply applyFilters_table|done].
  - case_match; [|done]. destruct Ht as (? & ? & _). by apply renderBatch_table.
  - repeat case_match; try done.
    match goal with
    | |- table_inv (showAuthorJourney e ?k ?n st) =>
        destruct (showAuthorJourney_store e k n st)
          as (_ & Hf' & Hr' & Hb' & Hl' & _ & Hh')
    end.
    unfold table_inv, filteredArr, arr. rewrite Hf', Hr', Hb', Hl', Hh' by lia.
    exact Ht.
Qed.

Lemma reachable_table e st : reachable e st → table_inv st.
Proof.
  revert e st. apply reachable_ind.
  - intros pg data0 e st0 Hinit. apply init_Some in Hinit as (st1 & _ & _ & _ & ->).
    apply applyFilters_table.
  - intros e st ev Hr. apply handle_table. by apply reachable_wf.
Qed.

Lemma reachable_sortDir e st : reachable e st → sortDir st = 1 ∨ sortDir st = -1.
Proof.
  revert e st. apply reachable_ind.
  - intros pg data0 e st0 Hinit.
    apply init_Some in Hinit as (st1 & (Hs & _) & _ & _ & ->). simpl in Hs.
    destruct (applyFilters_frame e st1) as (_ & -> & _). rewrite Hs. by left.
  - intros e st ev _ Hdir.
    destruct ev; simpl;
      try (match goal with
           | |- context [applyFilters e ?s] =>
               destruct (applyFilters_frame e s) as (_ & -> & _)
           end; done);
      try done.
    + destruct (timer st); [|done]. by destruct (applyFilters_frame e (set_timer None st)) as (_ & -> & _).
    + destruct (sortClick_field e field st) as (_ & ->). case_match; lia.
    + case_match; [|done]. by destruct (renderBatch_frame e st) as (_ & _ & _ & _ & -> & _).
    + repeat case_match; try done.
      match goal with
      | |- context [showAuthorJourney e ?k ?n st] =>
          destruct (showAuthorJourney_store e k n st) as (_ & _ & _ & _ & _ & -> & _)
      end. done.
Qed.


Lemma applyFilters_recomputed e st : wf e st → recomputed e (applyFilters e st).
Proof.
  intros (Hd & _). unfold recomputed.
  rewrite applyFilters_filteredArr at 1.
  destruct (applyFilters_frame e st) as (-> & -> & -> & _).
  destruct (applyFilters_store e st) as (_ & _ & Hh).
  unfold arr at 2. rewrite Hh by lia. split; [done|apply applyFilters_tbody].
Qed.

Lemma eras_cases (P : string → Prop) :
  P "pre-1800" → P "1800-1900" → P "1900-1958" → P "1958-1980" → P "1980-present" →
  ∀ era, era ∈ eras → P era.
Proof.
  intros ????? era Hera. unfold eras in Hera.
  repeat (apply elem_of_cons in Hera as [->|Hera]; [done|]).
  by apply elem_of_nil in Hera.
Qed.

(** Case analysis on the five eras, for a goal [∀ era, era ∈ eras → _]. *)
Ltac by_eras :=
  let era := fresh "era" in
  let H := fresh "Hera" in
  intros era H; pattern era; revert era H; apply eras_cases.

Lemma passes_eraOnly era d :
  era ≠ "" →
  passes (eraOnly era) d = true
  ↔ (getEraRange era).1 ≤ yearNum d ≤ (getEraRange era).2.
Proof.
  intros Hera. rewrite passes_satisfies. unfold satisfies. simpl.
  change (queryOf (eraOnly era)) with "". intuition congruence.
Qed.

(** *** The author index in reachable states *)

Lemma reachable_multiWork e st key :
  reachable e st →
  key ∈ multiWorkAuthors e ↔ (2 ≤ length (indexedWorks e st key))%nat.
Proof.
  intros (pg & data0 & st0 & evs & Hinit & ->).
  destruct (init_Some _ _ _ _ Hinit) as (st1 & (_ & _ & Hi) & _ & -> & ->).
  simpl in Hi.
  assert (extends st1 (run e evs (applyFilters e st1))) as [_ Hh].
  { eapply extends_trans; [apply applyFilters_extends|apply run_extends]. }
  rewrite elem_of_dom. unfold is_Some, indexedWorks.
  setoid_rewrite map_lookup_filter_Some. simpl.
  destruct (authorIndex e !! key) as [l|] eqn:Hk.
  - unfold arr. rewrite Hh by (apply Hi in Hk; lia). split.
    + by intros (l' & [= <-] & Hlen).
    + intros Hlen. by exists l.
  - simpl. split; [by intros (l & ? & _)|lia].
Qed.

Lemma showAuthorJourney_panel e key name st :
  let works := sort compareYears (indexedWorks e st key) in
  journeyPanel (showAuthorJourney e key name st)
  = if (length (indexedWorks e st key) <? 2)%nat then journeyPanel st
    else {| panel_display := "block"; panel_name := name; panel_items := works |}.
Proof.
  unfold showAuthorJourney, indexedWorks, alloc, sort_in_place, arr. simpl.
  rewrite !lookup_insert_eq. simpl. rewrite sort_length.
  by case_match.
Qed.

Lemma compareYears_le a b : yearNum a ≤ yearNum b ↔ compareYears a b ≤ 0.
Proof. unfold compareYears, yearNum. lia. Qed.

Lemma fresh_filtered e st :
  reachable e st →
  (data e < filtered st)%nat ∧ ∀ k l, authorIndex e !! k = Some l → (l < filtered st)%nat.
Proof.
  revert e st. apply reachable_ind.
  - intros pg data0 e st0 Hinit.
    apply init_Some in Hinit as (st1 & (_ & [Hn _] & Hi) & Hd & _ & ->).
    simpl in *. destruct (applyFilters_store e st1) as (_ & -> & _).
    split; [lia|]. intros k l Hk. apply Hi in Hk. lia.
  - intros e st ev Hr IH. apply reachable_wf in Hr as (Hd & _ & Hi).
    assert (∀ s, next_loc s = next_loc st →
              (data e < filtered (applyFilters e s))%nat
              ∧ ∀ k l, authorIndex e !! k = Some l → (l < filtered (applyFilters e s))%nat)
      as Happly.
    { intros s Hs. destruct (applyFilters_store e s) as (_ & -> & _). rewrite Hs.
      split; [done|]. intros k l Hk. by apply Hi in Hk. }
    destruct ev; simpl; try (by apply Happly); try done.
    + destruct (timer st); [by apply Happly|done].
    + unfold sortClick. apply Happly. by destruct (String.eqb (sortField st) field).
    + case_match; [|done]. by destruct (renderBatch_frame e st) as (_ & _ & -> & _).
    + repeat case_match; try done.
      match goal with
      | |- context [showAuthorJourney e ?k ?n st] =>
          destruct (showAuthorJourney_store e k n st) as (_ & -> & _)
      end. done.
Qed.


Lemma example_init : init example_page example_data = Some (example_env, example_state).
Proof. by vm_compute. Qed.

Lemma example_reachable evs : reachable example_env (run example_env evs example_state).
Proof. exists example_page, example_data, example_state, evs. split; [apply example_init|done]. Qed.

(** *** The model at work *)

Example getAuthorKeys_example :
  getAuthorKeys (TStr "Brealey, R.A.; Myers, S.C. & Allen") = ["brealey"; "myers"; "allen"]
  ∧ getAuthorKeys (TStr "Graham and Dodd") = ["graham"; "dodd"]
  ∧ getAuthorKeys (TStr "Anderson, Sandy") = ["anderson"; "sandy"]
  ∧ getAuthorKeys TNull = [].
Proof. by vm_compute. Qed.

Example getPrimaryAuthorKey_example :
  getPrimaryAuthorKey (TStr "Graham, Benjamin; Dodd, David") = "graham"
  ∧ getPrimaryAuthorKey (TStr " J. Dean ; Others") = "j dean"
  ∧ getPrimaryAuthorKey TUndef = "".
Proof. by vm_compute. Qed.

(** The start on the example catalog: sorted by year, all rows rendered, two
    links to the author with two works, sentinel hidden. *)
Example init_example :
  filteredArr example_state = [graham1934; williams1938; graham1949]
  ∧ row_link <$> tbody example_state = [Some "graham"; None; Some "graham"]
  ∧ rendered example_state = 3
  ∧ loadMoreDisplay example_state = "none"
  ∧ elements (multiWorkAuthors example_env) = ["graham"; "benjamin"].
Proof. by vm_compute. Qed.

(** Typing and waiting for the timer, then two clicks on the title header. *)
Example run_example :
  filteredArr (run example_env [SearchInput " Graham "; TimerFires] example_state)
  = [graham1934; graham1949]
  ∧ filteredArr (run example_env [SortClick "title"; SortClick "title"] example_state)
    = [williams1938; graham1949; graham1934]
  ∧ panel_items (journeyPanel (run example_env [AuthorClick 0%nat] example_state))
    = [graham1934; graham1949]
  ∧ journeyPanel (run example_env [AuthorClick 1%nat] example_state)
    = journeyPanel example_state.
Proof. by vm_compute. Qed.

(** ** Claims on the catalog *)

(** C1, as stated, does not hold: with the search text taken as the plain
    concatenation of author, title and key concepts, the query "ds" selects
    "Security Analysis" by "... Dodd, David" ("david" followed by "security"),
    a record that [applyFilters] leaves out once "ds" has been typed. *)
Lemma C1_plain_concatenation_counterexample :
  ¬ (∀ e st d,
       reachable e st →
       d ∈ filteredArr (applyFilters e st)
       ↔ d ∈ arr (heap st) (data e) ∧ satisfies concatenation (ctl st) d).
Proof.
  intros H.
  destruct (H example_env (run example_env [SearchInput "ds"] example_state)
              graham1934 (example_reachable _)) as [_ Hin].
  rewrite applyFilters_filteredArr in Hin.
  assert (graham1934 ∈ @nil record) as Hnil; [|by apply elem_of_nil in Hnil].
  apply Hin. split.
  - vm_compute. apply list_elem_of_In. simpl. auto.
  - unfold satisfies.
    split_and!; [intros _; by vm_compute|intros Hne; by vm_compute in Hne..].
Qed.

(** C1 (amended): [applyFilters] sets the filtered list to exactly the records
    [d] of the input data that meet every active condition, the search text
    being the lowercased string [d.author + ' ' + d.title + ' ' +
    d.key_concepts] (fields joined by single spaces): the list is a
    rearrangement of the records that the filter callback keeps, and the
    callback keeps a record exactly when the conditions hold. *)
Theorem C1_applyFilters_selects e st :
  filteredArr (applyFilters e st)
    ≡ₚ filter (λ d, passes (ctl st) d) (arr (heap st) (data e))
  ∧ (∀ d, passes (ctl st) d = true ↔ satisfies hay (ctl st) d)
  ∧ (∀ d, d ∈ filteredArr (applyFilters e st)
          ↔ d ∈ arr (heap st) (data e) ∧ satisfies hay (ctl st) d).
Proof.
  rewrite applyFilters_filteredArr. split_and!.
  - apply sort_perm.
  - intros d. apply passes_satisfies.
  - intros d. rewrite elem_of_sort, list_elem_of_filter, <-passes_satisfies.
    rewrite Is_true_true. tauto.
Qed.

(** C2: in every reachable state [sortDir] is 1 or -1; after [applyFilters]
    the filtered list is ordered by the sort key ([Number(value) || 0] for
    'year', the lowercased [String(value || '')] otherwise), non-decreasing
    when [sortDir] is 1 and non-increasing when it is -1; a click on the
    current header negates [sortDir], a click on another header selects it
    with [sortDir] 1. *)
Theorem C2_sort_order e st :
  reachable e st →
  (sortDir st = 1 ∨ sortDir st = -1)
  ∧ (sortDir st = 1 →
       StronglySorted (key_le (sortField st)) (filteredArr (applyFilters e st)))
  ∧ (sortDir st = -1 →
       StronglySorted (flip (key_le (sortField st))) (filteredArr (applyFilters e st)))
  ∧ (∀ field,
       sortField (sortClick e field st) = field
       ∧ sortDir (sortClick e field st)
         = if String.eqb (sortField st) field then - sortDir st else 1).
Proof.
  intros Hr. rewrite applyFilters_filteredArr. split_and!.
  - by apply reachable_sortDir in Hr.
  - intros ->. apply sort_sorted; [intros a b; apply compareRecords_asc|apply _..].
  - intros ->. apply sort_sorted; [intros a b; apply compareRecords_desc| |].
    + intros a b. destruct (key_le_total (sortField st) a b); [by right|by left].
    + intros a b c ??. by trans b.
  - intros field. apply sortClick_field.
Qed.

(** On the example catalog at its start: [sortDir] is 1 and the list is in
    ascending order of the year. *)
Lemma C2_sort_order_witness :
  reachable example_env example_state
  ∧ (sortDir example_state = 1 ∨ sortDir example_state = -1)
  ∧ StronglySorted (key_le (sortField example_state))
      (filteredArr (applyFilters example_env example_state)).
Proof.
  pose proof (example_reachable []) as Hr.
  destruct (C2_sort_order example_env example_state Hr) as (Hdir & Hasc & _).
  split_and!; [exact Hr|exact Hdir|]. apply Hasc. by vm_compute.
Defined.

(** C3, as stated, does not hold: typing in the search box does not recompute
    the list within the handling of the [input] event.  On the example catalog
    the list still holds every record after "williams" is typed. *)
Lemma C3_search_input_counterexample :
  ¬ (∀ e st ev,
       reachable e st → control_event ev = true → recomputed e (handle e ev st)).
Proof.
  intros H.
  destruct (H example_env example_state (SearchInput "williams")
              (example_reachable []) eq_refl) as [Hf _].
  vm_compute in Hf. discriminate Hf.
Qed.

(** C3 (amended): in every reachable state, a change of the stream, topic, era
    or 'have' filter and a click on a sort header recompute the filtered,
    sorted list and the rendered rows within the handling of the event.  An
    [input] event of the search box only records the new text and arms a timer
    of 200 ms, leaving the list and the rows as they were; the recomputation
    happens when that timer fires. *)
Theorem C3_recompute_on_interaction e st :
  reachable e st →
  (∀ ev, control_event ev = true → (∀ v, ev ≠ SearchInput v) →
         recomputed e (handle e ev st))
  ∧ (∀ v, let st' := handle e (SearchInput v) st in
          filteredArr st' = filteredArr st
          ∧ tbody st' = tbody st
          ∧ rendered st' = rendered st
          ∧ searchValue (ctl st') = v
          ∧ timer st' = Some 200
          ∧ recomputed e (handle e TimerFires st')).
Proof.
  intros Hr. apply reachable_wf in Hr as (Hd & Hf & Hi). split.
  - intros ev Hev Hns.
    destruct ev; try discriminate Hev; simpl; try (by apply applyFilters_recomputed).
    + by destruct (Hns v).
    + unfold sortClick. apply applyFilters_recomputed.
      by destruct (String.eqb (sortField st) field).
  - intros v. simpl. split_and!; try done. by apply applyFilters_recomputed.
Qed.

(** On the example catalog: an era change recomputes at once, a search input
    arms the timer. *)
Lemma C3_recompute_on_interaction_witness :
  reachable example_env example_state
  ∧ recomputed example_env (handle example_env (EraChange "1900-1958") example_state)
  ∧ timer (handle example_env (SearchInput "williams") example_state) = Some 200.
Proof.
  pose proof (example_reachable []) as Hr.
  destruct (C3_recompute_on_interaction example_env example_state Hr) as [Hc Hs].
  split_and!; [exact Hr| |].
  - apply Hc; [reflexivity|discriminate].
  - apply (Hs "williams").
Defined.

(** C7: an author cell is a link only when the primary author key is in
    [multiWorkAuthors], which holds the keys indexed with at least two works;
    [showAuthorJourney] leaves the panel as it is when the key has fewer than
    two works, and otherwise shows the key's works in non-decreasing order of
    [Number(year) || 0]. *)
Theorem C7_author_journey e st :
  reachable e st →
  (∀ d key, row_link (renderRow e d) = Some key →
            key = getPrimaryAuthorKey (author d) ∧ key ∈ multiWorkAuthors e)
  ∧ (∀ key, key ∈ multiWorkAuthors e ↔ (2 ≤ length (indexedWorks e st key))%nat)
  ∧ (∀ key name, (length (indexedWorks e st key) < 2)%nat →
                 journeyPanel (showAuthorJourney e key name st) = journeyPanel st)
  ∧ (∀ key name, (2 ≤ length (indexedWorks e st key))%nat →
       let p := journeyPanel (showAuthorJourney e key name st) in
       panel_display p = "block"
       ∧ panel_name p = name
       ∧ panel_items p ≡ₚ indexedWorks e st key
       ∧ StronglySorted (λ a b, yearNum a ≤ yearNum b) (panel_items p)).
Proof.
  intros Hr. split_and!.
  - intros d key. unfold renderRow. simpl.
    destruct (String.eqb_spec (getPrimaryAuthorKey (author d)) ""); simpl; [done|].
    case_bool_decide; [|done]. by intros [= <-].
  - intros key. by apply reachable_multiWork.
  - intros key name Hlt. rewrite showAuthorJourney_panel.
    by destruct (Nat.ltb_spec (length (indexedWorks e st key)) 2); [|lia].
  - intros key name Hge. simpl. rewrite showAuthorJourney_panel.
    destruct (Nat.ltb_spec (length (indexedWorks e st key)) 2); [lia|]. simpl.
    split_and!; [done|done|apply sort_perm|].
    apply sort_sorted.
    + intros a b. apply compareYears_le.
    + intros a b. lia.
    + intros a b c. lia.
Qed.

(** On the example catalog: "graham" has two works, which the journey shows. *)
Lemma C7_author_journey_witness :
  reachable example_env example_state
  ∧ "graham" ∈ multiWorkAuthors example_env
  ∧ panel_items (journeyPanel (showAuthorJourney example_env "graham" "Graham" example_state))
    ≡ₚ indexedWorks example_env example_state "graham".
Proof.
  pose proof (example_reachable []) as Hr.
  destruct (C7_author_journey example_env example_state Hr) as (_ & Hm & _ & Hs).
  assert (2 ≤ length (indexedWorks example_env example_state "graham"))%nat as Hlen
    by (vm_compute; lia).
  split_and!; [exact Hr|by apply Hm|]. by apply (Hs "graham" "Graham").
Defined.

(** C9: in every reachable state [0 <= rendered <= filtered.length], [rendered]
    is the number of rows in the table body (emptied at each reset), the
    sentinel's display is 'block' exactly when [rendered < filtered.length] and
    'none' otherwise; a call of [renderBatch] appends exactly
    [min(BATCH_SIZE, filtered.length - rendered)] rows, with [BATCH_SIZE = 60]. *)
Theorem C9_incremental_rendering e st :
  reachable e st →
  let len := Z.of_nat (length (filteredArr st)) in
  0 ≤ rendered st ≤ len
  ∧ rendered st = Z.of_nat (length (tbody st))
  ∧ (loadMoreDisplay st = "block" ↔ rendered st < len)
  ∧ (loadMoreDisplay st = "none" ↔ ¬ rendered st < len)
  ∧ BATCH_SIZE = 60
  ∧ ∃ rows, tbody (renderBatch e st) = tbody st ++ rows
            ∧ Z.of_nat (length rows) = Z.min BATCH_SIZE (len - rendered st)
            ∧ rendered (renderBatch e st) = rendered st + Z.of_nat (length rows).
Proof.
  intros Hreach. apply reachable_table in Hreach as (Hr & Ht & Hd & Hb). simpl.
  split_and!; [lia|lia|done|done| |done|].
  - destruct Hd as [Hd|Hd]; split.
    + intros Hn. rewrite Hd in Hn. discriminate Hn.
    + intros Hn. apply Hb in Hd. lia.
    + intros _ Hlt. apply Hb in Hlt. rewrite Hd in Hlt. discriminate Hlt.
    + done.
  - destruct (renderBatch_rows e st Hr) as (rows & ? & ? & ? & _). by exists rows.
Qed.

(** On the example catalog at its start: three rows, sentinel hidden. *)
Lemma C9_incremental_rendering_witness :
  reachable example_env example_state
  ∧ rendered example_state = Z.of_nat (length (tbody example_state))
  ∧ (loadMoreDisplay example_state = "none"
     ↔ ¬ rendered example_state < Z.of_nat (length (filteredArr example_state))).
Proof.
  pose proof (example_reachable []) as Hr.
  destruct (C9_incremental_rendering example_env example_state Hr)
    as (_ & Ht & _ & Hn & _).
  split_and!; [exact Hr|exact Ht|exact Hn].
Defined.

(** C10: [getEraRange] returns [0,1799], [1800,1900], [1901,1957],
    [1958,1980] and [1981,9999] for the five named eras; every integer year
    from 0 to 9999 lies in exactly one of these ranges, so a record with such a
    year passes exactly one of the five era filters; 1900 falls only in
    '1800-1900' and 1958 only in '1958-1980'. *)
Theorem C10_eras_partition :
  getEraRange "pre-1800" = (0, 1799)
  ∧ getEraRange "1800-1900" = (1800, 1900)
  ∧ getEraRange "1900-1958" = (1901, 1957)
  ∧ getEraRange "1958-1980" = (1958, 1980)
  ∧ getEraRange "1980-present" = (1981, 9999)
  ∧ (∀ y, 0 ≤ y ≤ 9999 →
       ∃ era, era ∈ eras
              ∧ (getEraRange era).1 ≤ y ≤ (getEraRange era).2
              ∧ ∀ era', era' ∈ eras →
                        (getEraRange era').1 ≤ y ≤ (getEraRange era').2 → era' = era)
  ∧ (∀ d, 0 ≤ yearNum d ≤ 9999 →
       ∃ era, era ∈ eras
              ∧ passes (eraOnly era) d = true
              ∧ ∀ era', era' ∈ eras → passes (eraOnly era') d = true → era' = era)
  ∧ (∀ d era, era ∈ eras → yearNum d = 1900 →
       (passes (eraOnly era) d = true ↔ era = "1800-1900"))
  ∧ (∀ d era, era ∈ eras → yearNum d = 1958 →
       (passes (eraOnly era) d = true ↔ era = "1958-1980")).
Proof.
  assert (∀ y, 0 ≤ y ≤ 9999 →
       ∃ era, era ∈ eras
              ∧ (getEraRange era).1 ≤ y ≤ (getEraRange era).2
              ∧ ∀ era', era' ∈ eras →
                        (getEraRange era').1 ≤ y ≤ (getEraRange era').2 → era' = era)
    as Hpart.
  { intros y Hy.
    assert (y ≤ 1799 ∨ 1800 ≤ y ≤ 1900 ∨ 1901 ≤ y ≤ 1957 ∨ 1958 ≤ y ≤ 1980 ∨ 1981 ≤ y)
      as [?|[?|[?|[?|?]]]] by lia;
      [exists "pre-1800"|exists "1800-1900"|exists "1900-1958"|exists "1958-1980"
      |exists "1980-present"];
      (split; [unfold eras; rewrite !elem_of_cons; tauto|]); (split; [simpl; lia|]);
      by_eras; simpl; intros; (done || lia). }
  assert (∀ era, era ∈ eras → era ≠ "") as Hne.
  { by_eras; done. }
  split_and!; try reflexivity.
  - exact Hpart.
  - intros d Hy. destruct (Hpart _ Hy) as (era & Hin & Hrange & Huniq).
    exists era. split_and!; [done|by apply passes_eraOnly; [apply Hne|]|].
    intros era' Hin' Hp. apply Huniq; [done|]. apply passes_eraOnly; [by apply Hne|done].
  - intros d era Hin Hy. rewrite passes_eraOnly by (by apply Hne). rewrite Hy.
    revert era Hin. by_eras; simpl; split; (done || lia).
  - intros d era Hin Hy. rewrite passes_eraOnly by (by apply Hne). rewrite Hy.
    revert era Hin. by_eras; simpl; split; (done || lia).
Qed.

(** The year 1934 of the example catalog passes one era filter. *)
Lemma C10_eras_partition_witness :
  0 ≤ yearNum graham1934 ≤ 9999
  ∧ ∃ era, era ∈ eras ∧ passes (eraOnly era) graham1934 = true.
Proof.
  assert (0 ≤ yearNum graham1934 ≤ 9999) as Hy by (vm_compute; split; discriminate).
  split; [exact Hy|].
  destruct C10_eras_partition as (_ & _ & _ & _ & _ & _ & Hrec & _).
  destruct (Hrec graham1934 Hy) as (era & Hin & Hp & _). by exists era.
Defined.

End LibraryFacts.

(** ** The timeline *)

Module TimelineFacts.
Import JS Timeline JSFacts.

(** *** Hit testing *)





Example getHitIndex_example :
  getHitIndex example_dots 109 100 = 0
  ∧ getHitIndex example_dots 120 100 = 2
  ∧ getHitIndex example_dots 115 106 = 1
  ∧ getHitIndex example_dots 300 300 = -1.
Proof. by vm_compute. Qed.



(** *** Trend lines *)

Section trends.
Context (w : Q) (minYear maxYear : Z).

(** The bucket of a decade holds the [y] positions of its dots, in order;
    a decade without dots has no bucket. *)
Lemma fill_buckets_lookup (pts : list dot) dec :
  fill_buckets pts !! dec
  = match y <$> filter (λ p, decadeOf p = dec) pts with
    | [] => None
    | ys => Some ys
    end.
Proof.
  induction pts as [|p pts IH] using rev_ind; [done|].
  unfold fill_buckets in *. rewrite foldl_app. simpl.
  rewrite filter_app, fmap_app.
  destruct (decide (decadeOf p = dec)) as [Heq|Hne].
  - rewrite Heq, lookup_insert_eq, IH.
    rewrite filter_cons_True, filter_nil by done. simpl.
    by destruct (y <$> filter (λ p0, decadeOf p0 = dec) pts).
  - rewrite lookup_insert_ne by done. rewrite IH.
    rewrite filter_cons_False, filter_nil by done. simpl. by rewrite app_nil_r.
Qed.

Lemma strictly_sorted (l : list Z) :
  StronglySorted Z.le l → NoDup l → StronglySorted Z.lt l.
Proof.
  induction 1 as [|a l Hs IH Ha]; intros Hnd; [constructor|].
  apply NoDup_cons in Hnd as [Hnotin Hnd]. constructor; [by apply IH|].
  apply Forall_forall. intros b Hb.
  rewrite Forall_forall in Ha. specialize (Ha b Hb).
  assert (a ≠ b) by (intros ->; done). lia.
Qed.

Lemma average_mean (ys : list Q) : (average ys == mean ys)%Q.
Proof.
  unfold average, mean.
  assert (∀ acc, (foldl Qplus acc ys == acc + foldr Qplus 0 ys)%Q) as Hsum.
  { induction ys as [|q ys IH]; intros acc; simpl.
    - by rewrite Qplus_0_r.
    - rewrite IH. by rewrite Qplus_assoc. }
  rewrite Hsum. by rewrite Qplus_0_l.
Qed.

Lemma avgByDecade_spec (pts : list dot) :
  ∃ decades : list Z,
    StronglySorted Z.lt decades
    ∧ (∀ dec, dec ∈ decades ↔ ∃ p, p ∈ pts ∧ decadeOf p = dec)
    ∧ Forall2 (λ pt dec,
                 px pt = yearToX w minYear maxYear (dec + 5)
                 ∧ (py pt == mean (y <$> filter (λ p, decadeOf p = dec) pts))%Q)
        (avgByDecade w minYear maxYear pts) decades.
Proof.
  unfold avgByDecade.
  set (keys := (map_to_list (fill_buckets pts)).*1).
  exists (sort (λ a b, a - b) keys).
  assert (∀ dec, dec ∈ keys ↔ ∃ p, p ∈ pts ∧ decadeOf p = dec) as Hkeys.
  { intros dec. unfold keys. rewrite list_elem_of_fmap. split.
    - intros ([k ys] & -> & Hin). apply elem_of_map_to_list in Hin. simpl.
      rewrite fill_buckets_lookup in Hin.
      destruct (filter (λ p, decadeOf p = k) pts) as [|p ps] eqn:Hf; [done|].
      assert (p ∈ filter (λ p, decadeOf p = k) pts) as Hp by (rewrite Hf; left).
      apply list_elem_of_filter in Hp as [? ?]. by exists p.
    - intros (p & Hp & Hdec).
      assert (p ∈ filter (λ p, decadeOf p = dec) pts) as Hpf
        by by apply list_elem_of_filter.
      destruct (fill_buckets pts !! dec) as [ys|] eqn:Hb.
      + exists (dec, ys). split; [done|]. by apply elem_of_map_to_list.
      + rewrite fill_buckets_lookup in Hb.
        destruct (filter (λ p, decadeOf p = dec) pts); [by apply elem_of_nil in Hpf|done]. }
  split_and!.
  - apply strictly_sorted.
    + apply sort_sorted; [intros a b; lia|intros a b; lia|intros a b c; lia].
    + rewrite sort_perm. apply NoDup_fst_map_to_list.
  - intros dec. by rewrite elem_of_sort.
  - apply Forall2_fmap_l, Forall_Forall2_diag, Forall_forall.
    intros dec Hdec. simpl. split; [done|].
    apply elem_of_sort, Hkeys in Hdec as (p & Hp & Hd).
    rewrite fill_buckets_lookup.
    assert (p ∈ filter (λ p, decadeOf p = dec) pts) as Hpf
      by by apply list_elem_of_filter.
    destruct (filter (λ p, decadeOf p = dec) pts) as [|q qs] eqn:Hf;
      [by apply elem_of_nil in Hpf|].
    simpl. apply average_mean.
Qed.

Lemma decadeYs_filter name (positions : list dot) dec :
  decadeYs name positions dec
  = y <$> filter (λ p, decadeOf p = dec)
            (filter (λ p, strict_eq_str (paradigm (d p)) name) positions).
Proof.
  unfold decadeYs. f_equal. rewrite list_filter_filter.
  apply list_filter_iff. intros p. unfold inDecade.
  rewrite andb_True. destruct (Z.eqb_spec (decadeOf p) dec); simpl; tauto.
Qed.

Lemma avgByDecade_trendOf name (positions : list dot) :
  trendOf w minYear maxYear name positions
    (avgByDecade w minYear maxYear
       (filter (λ p, strict_eq_str (paradigm (d p)) name) positions)).
Proof.
  destruct (avgByDecade_spec
              (filter (λ p, strict_eq_str (paradigm (d p)) name) positions))
    as (decades & Hsorted & Hdec & Hpts).
  exists decades. split_and!; [done| |].
  - intros dec. rewrite Hdec. split.
    + intros (p & [Hpar Hp]%list_elem_of_filter & Hd). exists p.
      split_and!; [done| |done]. apply Is_true_true in Hpar.
      by apply strict_eq_str_spec in Hpar.
    + intros (p & Hp & Hpar & Hd). exists p. split; [|done].
      apply list_elem_of_filter. split; [|done].
      apply Is_true_true. by apply strict_eq_str_spec.
  - eapply Forall2_impl; [exact Hpts|]. intros pt dec [Hx Hy]. split; [done|].
    by rewrite decadeYs_filter.
Qed.
End trends.

Example hashStr_example : hashStr "abc" = 96354.
Proof. by vm_compute. Qed.

Example computeTrends_example :
  (λ p, (Qred (px p), Qred (py p))) <$> (computeTrends 980 1800 2000 example_dots).1
  = [(700%Q, 100%Q)]
  ∧ (λ p, (Qred (px p), Qred (py p))) <$> (computeTrends 980 1800 2000 example_dots).2
    = [(700%Q, 100%Q)].
Proof. by vm_compute. Qed.

(** C6: [computeTrends] yields, for 'academic' and for 'practitioner'
    separately, one point per decade [Math.floor(year / 10) * 10] in which the
    paradigm has a dot, in ascending order of the decades, with
    [x = yearToX(decade + 5)] and [y] the arithmetic mean of the [y] positions
    of the decade's dots. *)
Theorem C6_computeTrends (w : Q) (minYear maxYear : Z) (positions : list dot) :
  trendOf w minYear maxYear "academic" positions
    (computeTrends w minYear maxYear positions).1
  ∧ trendOf w minYear maxYear "practitioner" positions
      (computeTrends w minYear maxYear positions).2
  ∧ ∀ p, decadeOf p ≤ year (d p) < decadeOf p + 10 ∧ decadeOf p mod 10 = 0.
Proof.
  split_and!; [apply avgByDecade_trendOf..|].
  intros p. unfold decadeOf.
  pose proof (Z.div_mod (year (d p)) 10 ltac:(lia)).
  pose proof (Z.mod_pos_bound (year (d p)) 10 ltac:(lia)).
  split; [lia|]. by rewrite Z.mod_mul.
Qed.


(** *** The dataset *)

Lemma handle_data minYear maxYear ev st :
  data (handle minYear maxYear ev st) = data st.
Proof. destruct ev; simpl; repeat case_match; done. Qed.

Lemma run_data minYear maxYear evs st :
  data (run minYear maxYear evs st) = data st.
Proof.
  unfold run. revert st. induction evs as [|ev evs IH]; intros st; simpl; [done|].
  by rewrite IH, handle_data.
Qed.

End TimelineFacts.

(** ** The periodicals charts *)

Module PeriodicalsFacts.
Import JS Periodicals JSFacts.

Lemma zip_with_fmap_same {A B C D} (f : B → C → D) (g : A → B) (k : A → C) (l : list A) :
  zip_with f (g <$> l) (k <$> l) = (λ a, f (g a) (k a)) <$> l.
Proof. induction l as [|a l IH]; [done|]. rewrite !fmap_cons. simpl. by rewrite IH. Qed.

Lemma trace_polyline pts : trace pts = polyline pts.
Proof.
  unfold trace. destruct pts as [|p ps]; [done|]. rewrite imap_cons. simpl. f_equal.
  rewrite <-imap_const. by apply imap_ext.
Qed.

Lemma arcs_app cs1 cs2 : arcs (cs1 ++ cs2) = arcs cs1 ++ arcs cs2.
Proof. unfold arcs. apply omap_app. Qed.

Lemma arcs_polyline pts : arcs (polyline pts) = [].
Proof.
  destruct pts as [|p ps]; [done|]. unfold arcs. simpl.
  induction ps as [|q qs IH]; [done|]. done.
Qed.

Lemma arcs_dots (pts : list (option Q * Q)) (r : Q) (c : string) (lw : Q) :
  arcs (pts ≫= (λ p, [BeginPath; Arc p.1 p.2 r; FillStyle c; Fill;
                       StrokeStyle BG; LineWidth lw; Stroke])) = pts.
Proof.
  induction pts as [|[px py] pts IH]; [done|].
  rewrite bind_cons, arcs_app, IH. done.
Qed.

Lemma sortedKeys_spec (obj : gmap string Q) :
  ascending (sortedKeys obj) ∧ ∀ k, k ∈ sortedKeys obj ↔ is_Some (obj !! k).
Proof.
  unfold sortedKeys, ascending. split.
  - assert (StronglySorted String.le (sort defaultCompare (map_to_list obj).*1)) as Hs.
    { apply sort_sorted; [|apply _..].
      intros a b. unfold defaultCompare, str_lt.
      destruct (String.ltb a b) eqn:Hab.
      { split; [lia|]. intros _. by apply ltb_le. }
      destruct (String.ltb b a) eqn:Hba.
      { split; [|lia]. intros Hle. apply le_not_ltb in Hle. congruence. }
      split; [lia|]. intros _. by apply not_ltb_le. }
    assert (NoDup (sort defaultCompare (map_to_list obj).*1)) as Hnd.
    { rewrite sort_perm. apply NoDup_fst_map_to_list. }
    revert Hs Hnd. generalize (sort defaultCompare (map_to_list obj).*1).
    intros l. induction 1 as [|a l Hs IH Ha]; intros Hnd; [constructor|].
    apply NoDup_cons in Hnd as [Hnotin Hnd]. constructor; [by apply IH|].
    apply Forall_forall. intros b Hb. rewrite Forall_forall in Ha.
    specialize (Ha b Hb). unfold str_lt.
    destruct (String.ltb a b) eqn:Hab; [done|].
    apply not_ltb_le in Hab. assert (a = b) as -> by by apply (anti_symm String.le).
    done.
  - intros k. rewrite elem_of_sort, list_elem_of_fmap. split.
    + intros ([k' v] & -> & Hin). apply elem_of_map_to_list in Hin. by exists v.
    + intros [v Hv]. exists (k, v). split; [done|]. by apply elem_of_map_to_list.
Qed.

Lemma divPoints_series w h minYear maxYear divergence :
  divPoints w h minYear maxYear divergence
  = seriesPoints (xPos w minYear maxYear) (yPos h) divergence.
Proof.
  unfold divPoints, divMids, divVals, divWindows, seriesPoints.
  by rewrite zip_with_fmap_same.
Qed.


Lemma seriesPoints_length xPos yPos (obj : gmap string Q) :
  length (seriesPoints xPos yPos obj) = size obj.
Proof.
  unfold seriesPoints, sortedKeys.
  by rewrite length_fmap, sort_length, length_fmap, length_map_to_list.
Qed.

Lemma getSeries_points w h minYear maxYear (obj : gmap string Q) :
  PeriodicalsSeries.points w h minYear maxYear
    (PeriodicalsSeries.getSeries obj).1 (PeriodicalsSeries.getSeries obj).2
  = seriesPoints (PeriodicalsSeries.xPos w minYear maxYear) (PeriodicalsSeries.yPos h) obj.
Proof.
  unfold PeriodicalsSeries.points, PeriodicalsSeries.getSeries, seriesPoints. simpl.
  by rewrite zip_with_fmap_same.
Qed.

Lemma getSeries_length (obj : gmap string Q) :
  length (PeriodicalsSeries.getSeries obj).1 = size obj.
Proof.
  unfold PeriodicalsSeries.getSeries, sortedKeys. simpl.
  by rewrite length_fmap, sort_length, length_fmap, length_map_to_list.
Qed.

Example parseInt_example :
  parseInt "1955" = Some 1955 ∧ parseInt " -0x1F" = Some (-31)
  ∧ parseInt "12ab" = Some 12 ∧ parseInt "x" = None
  ∧ windowMid "1955-1959" = Some 1957.
Proof. by vm_compute. Qed.

Example drawDivergence_example :
  sortedKeys two_windows = ["1950-1954"; "1955-1959"]
  ∧ length (arcs (drawDivergence 800 300 1860 2020 one_window)) = 1%nat
  ∧ PeriodicalsSeries.drawDivergence 800 300 1860 2020 one_window ∅ ∅ = []
  ∧ length (arcs (PeriodicalsSeries.drawDivergence 800 300 1860 2020 two_windows ∅ ∅))
    = 2%nat.
Proof. by vm_compute. Qed.

(** C8, as stated, does not hold for the revision that draws through
    [getSeries] and [drawSeries]: a divergence object with a single window is
    not plotted at all. *)
Lemma C8_single_window_counterexample :
  ¬ (∀ w h minYear maxYear divergence pracLag acadLag,
       ∃ before,
         arcs (PeriodicalsSeries.drawDivergence w h minYear maxYear
                 divergence pracLag acadLag)
         = before ++ seriesPoints (PeriodicalsSeries.xPos w minYear maxYear)
                       (PeriodicalsSeries.yPos h) divergence).
Proof.
  intros H.
  destruct (H 800%Q 300%Q 1860 2020 one_window ∅ ∅) as [before Hb].
  apply (f_equal length) in Hb.
  rewrite length_app, seriesPoints_length in Hb.
  change (size one_window) with 1%nat in Hb.
  assert (PeriodicalsSeries.drawDivergence 800 300 1860 2020 one_window ∅ ∅ = [])
    as Hnil by by vm_compute.
  rewrite Hnil in Hb. simpl in Hb. lia.
Qed.

(** C8 (amended): the window keys are taken in ascending sorted order and a
    window is plotted at the abscissa of its start year plus 2 and at
    [yPos(val) = pad.top + (1 - val) * chartH] of its [cosine_distance].  In
    [static/js/periodicals.js], [drawDivergence] draws one dot per window and
    one polyline through the points in that order, for every divergence
    object.  In the revision that draws through [getSeries] and [drawSeries],
    the divergence series comes last and is drawn in the same way when the
    object has at least two windows; with fewer than two windows nothing of
    the series is drawn. *)
Theorem C8_drawDivergence (w h : Q) (minYear maxYear : Z)
    (divergence pracLag acadLag : gmap string Q) :
  ascending (sortedKeys divergence)
  ∧ (∀ k, k ∈ sortedKeys divergence ↔ is_Some (divergence !! k))
  ∧ (∀ val, yPos h val = (pad_top + (1 - val) * chartH h)%Q)
  ∧ (let pts := seriesPoints (xPos w minYear maxYear) (yPos h) divergence in
     length pts = size divergence
     ∧ arcs (drawDivergence w h minYear maxYear divergence) = pts
     ∧ line w h minYear maxYear divergence
       = [BeginPath; StrokeStyle PURPLE; LineWidth (5 # 2)] ++ polyline pts ++ [Stroke]
     ∧ (divergence ≠ ∅ →
        drawDivergence w h minYear maxYear divergence
        = areaFill w h minYear maxYear divergence
          ++ line w h minYear maxYear divergence
          ++ dots w h minYear maxYear divergence))
  ∧ (let pts := seriesPoints (PeriodicalsSeries.xPos w minYear maxYear)
                  (PeriodicalsSeries.yPos h) divergence in
     let series :=
       PeriodicalsSeries.drawSeries w h minYear maxYear
         (PeriodicalsSeries.getSeries divergence).1
         (PeriodicalsSeries.getSeries divergence).2 PURPLE 4 in
     (∃ before,
        PeriodicalsSeries.drawDivergence w h minYear maxYear divergence pracLag acadLag
        = before ++ series)
     ∧ ((2 ≤ size divergence)%nat →
        arcs series = pts
        ∧ ∃ dots,
            series = ([BeginPath; StrokeStyle PURPLE; LineWidth 2] ++ polyline pts
                      ++ [Stroke]) ++ dots
            ∧ arcs dots = pts)
     ∧ ((size divergence < 2)%nat → series = [])).
Proof.
  destruct (sortedKeys_spec divergence) as [Hasc Hkeys].
  split_and!; [done|done|done| |].
  - cbv zeta. rewrite <-divPoints_series.
    assert (arcs (areaFill w h minYear maxYear divergence) = []) as Hfill.
    { unfold areaFill. case_match; [|done].
      rewrite !arcs_app. simpl. rewrite app_nil_r.
      unfold arcs. induction (divPoints w h minYear maxYear divergence); [done|done]. }
    assert (arcs (line w h minYear maxYear divergence) = []) as Hline.
    { unfold line. rewrite !arcs_app, trace_polyline, arcs_polyline. done. }
    assert (arcs (dots w h minYear maxYear divergence)
            = divPoints w h minYear maxYear divergence) as Hdots
      by apply arcs_dots.
    split_and!.
    + rewrite divPoints_series. apply seriesPoints_length.
    + unfold drawDivergence. case_bool_decide as Hw.
      * unfold divPoints, divMids, divVals. by rewrite Hw.
      * by rewrite !arcs_app, Hfill, Hline, Hdots.
    + unfold line. by rewrite trace_polyline.
    + intros Hne. unfold drawDivergence. case_bool_decide as Hw; [|done].
      destruct Hne. apply map_size_empty_iff.
      rewrite <-(seriesPoints_length (xPos w minYear maxYear) (yPos h)).
      unfold seriesPoints. unfold divWindows in Hw. by rewrite Hw.
  - cbv zeta. split_and!.
    + unfold PeriodicalsSeries.drawDivergence. case_match eqn:Hall.
      * exists []. unfold PeriodicalsSeries.drawSeries.
        apply andb_prop in Hall as [Hall _]. apply andb_prop in Hall as [Hc _].
        apply bool_decide_eq_true in Hc. by rewrite Hc.
      * eexists. by rewrite app_assoc.
    + intros Hsize. unfold PeriodicalsSeries.drawSeries.
      rewrite getSeries_length, getSeries_points.
      destruct (Nat.ltb_spec (size divergence) 2); [lia|].
      rewrite trace_polyline. split.
      * rewrite !arcs_app, arcs_polyline. simpl. apply arcs_dots.
      * eexists. split; [done|]. apply arcs_dots.
    + intros Hsize. unfold PeriodicalsSeries.drawSeries. rewrite getSeries_length.
      by destruct (Nat.ltb_spec (size divergence) 2); [|lia].
Qed.

(** A divergence object with two windows is plotted by both revisions. *)
Lemma C8_drawDivergence_witness :
  (2 ≤ size two_windows)%nat
  ∧ two_windows ≠ ∅
  ∧ arcs (PeriodicalsSeries.drawSeries 800 300 1860 2020
            (PeriodicalsSeries.getSeries two_windows).1
            (PeriodicalsSeries.getSeries two_windows).2 PURPLE 4)
    = seriesPoints (PeriodicalsSeries.xPos 800 1860 2020) (PeriodicalsSeries.yPos 300)
        two_windows
  ∧ drawDivergence 800 300 1860 2020 two_windows
    = areaFill 800 300 1860 2020 two_windows
      ++ line 800 300 1860 2020 two_windows
      ++ dots 800 300 1860 2020 two_windows.
Proof.
  assert (2 ≤ size two_windows)%nat as Hsize by (vm_compute; lia).
  assert (two_windows ≠ ∅) as Hne by apply insert_non_empty.
  destruct (C8_drawDivergence 800 300 1860 2020 two_windows ∅ ∅)
    as (_ & _ & _ & (_ & _ & _ & Hstatic) & (_ & Hseries & _)).
  split_and!; [exact Hsize|exact Hne|apply (Hseries Hsize)|apply (Hstatic Hne)].
Defined.

End PeriodicalsFacts.

(** ** The datasets *)

Module DatasetFacts.
Import JS Library JSFacts LibraryFacts.

(** C4: no interaction changes the input datasets.  After any sequence of
    events the array [window.LIBRARY_DATA] still holds the records it held,
    in the same order, and so does every per-author list of [authorIndex];
    the array that [applyFilters] sorts in place is never one of them; and
    the timeline handlers leave [window.TIMELINE_DATA] as it was.  Records
    are values that no operation of the scripts writes to. *)
Theorem C4_datasets_not_mutated pg data0 e st0 evs :
  init pg data0 = Some (e, st0) →
  let st := run e evs st0 in
  heap st !! data e = Some data0
  ∧ (∀ key l, authorIndex e !! key = Some l → heap st !! l = heap st0 !! l)
  ∧ filtered st ≠ data e
  ∧ (∀ key l, authorIndex e !! key = Some l → filtered st ≠ l)
  ∧ (∀ minYear maxYear tevs ts,
       Timeline.data (Timeline.run minYear maxYear tevs ts) = Timeline.data ts).
Proof.
  intros Hinit st.
  assert (reachable e st) as Hr by by exists pg, data0, st0, evs.
  pose proof (init_wf _ _ _ _ Hinit) as (Hd & _ & Hi).
  destruct (run_extends e evs st0) as [_ Hh]. fold st in Hh.
  destruct (fresh_filtered e st Hr) as [Hfd Hfi].
  split_and!.
  - rewrite Hh by done.
    apply init_Some in Hinit as (st1 & (_ & [Hn1 Hh1] & _) & Hd0 & _ & ->).
    simpl in Hn1, Hh1. destruct (applyFilters_extends e st1) as [_ Hh0].
    rewrite Hd0, Hh0, Hh1 by lia. done.
  - intros key l Hk. apply Hh. by apply Hi in Hk.
  - lia.
  - intros key l Hk. apply Hfi in Hk. lia.
  - intros minYear maxYear tevs ts. apply TimelineFacts.run_data.
Qed.

(** On the example catalog: after four events the dataset is as it was. *)
Lemma C4_datasets_not_mutated_witness :
  init example_page example_data = Some (example_env, example_state)
  ∧ heap (run example_env [SortClick "title"; AuthorClick 0%nat; SearchInput "value"; TimerFires]
            example_state) !! data example_env
    = Some example_data.
Proof.
  split; [apply example_init|].
  apply (C4_datasets_not_mutated example_page example_data example_env example_state
           [SortClick "title"; AuthorClick 0%nat; SearchInput "value"; TimerFires]
           example_init).
Defined.

End DatasetFacts.

(** ** More of the catalog *)

Module CatalogFacts.
Import JS Library JSFacts LibraryFacts Catalog.

(** *** Strings and author keys *)

(** *** Strings *)

Lemma chars_app s1 s2 : chars (s1 +:+ s2) = chars s1 ++ chars s2.
Proof. induction s1 as [|c s1 IH]; simpl; [done|]. by rewrite IH. Qed.

Lemma chars_rev_app s1 s2 : chars (String.rev_app s1 s2) = reverse (chars s1) ++ chars s2.
Proof.
  revert s2. induction s1 as [|c s1 IH]; intros s2; simpl; [done|].
  rewrite IH, reverse_cons. simpl. by rewrite <-app_assoc.
Qed.

Lemma chars_rev s : chars (String.rev s) = reverse (chars s).
Proof. unfold String.rev. rewrite chars_rev_app. simpl. by rewrite app_nil_r. Qed.

Lemma chars_inj s1 s2 : chars s1 = chars s2 → s1 = s2.
Proof.
  revert s2. induction s1 as [|c s1 IH]; intros [|c2 s2]; simpl; try done.
  intros [= -> Hs]. f_equal. by apply IH.
Qed.

Lemma chars_length s : length (chars s) = String.length s.
Proof. induction s as [|c s IH]; simpl; [done|]. by rewrite IH. Qed.

Lemma chars_trimStart s : chars (trimStart s) `suffix_of` chars s.
Proof.
  induction s as [|c s IH]; simpl; [done|].
  destruct (is_white c); [by apply suffix_cons_r|done].
Qed.

Lemma elem_of_chars_trim c s : c ∈ chars (trim s) → c ∈ chars s.
Proof.
  unfold trim. rewrite chars_rev, elem_of_reverse.
  intros Hc.
  pose proof (chars_trimStart (String.rev (trimStart s))) as [l1 H1].
  pose proof (chars_trimStart s) as [l2 H2].
  rewrite chars_rev in H1.
  assert (c ∈ reverse (chars (trimStart s))) as Hr.
  { rewrite H1. apply elem_of_app. by right. }
  rewrite elem_of_reverse in Hr. rewrite H2. apply elem_of_app. by right.
Qed.

Lemma chars_toLowerCase s : chars (toLowerCase s) = lower_ascii <$> chars s.
Proof. induction s as [|c s IH]; simpl; [done|]. by rewrite IH. Qed.

Lemma elem_of_chars_remove cls c s :
  c ∈ chars (remove_chars cls s) ↔ c ∈ chars s ∧ cls c = false.
Proof.
  induction s as [|a s IH]; simpl.
  { rewrite elem_of_nil. tauto. }
  destruct (cls a) eqn:Ha; simpl; rewrite ?elem_of_cons, IH; split.
  - intros [? ?]. split; [by right|done].
  - intros [[->|?] ?]; [congruence|done].
  - intros [->|[? ?]]; [split; [by left|done]|split; [by right|done]].
  - intros [[->|?] ?]; [by left|by right].
Qed.

Lemma lower_ascii_idemp c : lower_ascii (lower_ascii c) = lower_ascii c.
Proof. destruct c as [[] [] [] [] [] [] [] []]; reflexivity. Qed.

Lemma toLowerCase_idemp s : toLowerCase (toLowerCase s) = toLowerCase s.
Proof. induction s as [|c s IH]; simpl; [done|]. by rewrite lower_ascii_idemp, IH. Qed.

(** Lowering the case neither creates nor removes punctuation. *)
Lemma lower_ascii_punct c (p : ascii) :
  is_letter p = false → lower_ascii c = p → c = p.
Proof.
  intros Hp <-. revert Hp.
  destruct c as [[] [] [] [] [] [] [] []]; vm_compute; congruence.
Qed.


(** *** Author keys *)

(** A piece of the split holds no character that is a separator by itself. *)
Lemma split_go_pieces skip prev cur s piece c :
  piece ∈ split_go skip prev cur s → c ∈ chars piece →
  (c = ";"%char ∨ c = "&"%char) → c ∈ chars cur.
Proof.
  revert skip prev cur. induction s as [|a s IH]; intros skip prev cur; cbn [split_go].
  - intros ->%list_elem_of_singleton. by rewrite chars_rev, elem_of_reverse.
  - destruct skip as [|k]; [|by apply IH].
    destruct (separator_at prev (String a s)) as [|k] eqn:Hsep.
    + intros Hp Hc Hsemi. specialize (IH _ _ _ Hp Hc Hsemi). simpl in IH.
      apply elem_of_cons in IH as [->|?]; [|done].
      destruct Hsemi as [->| ->]; done.
    + intros [->|Hp]%elem_of_cons Hc Hsemi.
      * by rewrite chars_rev, elem_of_reverse in Hc.
      * specialize (IH _ _ _ Hp Hc Hsemi). by apply elem_of_nil in IH.
Qed.

Lemma getAuthorKeys_elem a k :
  k ∈ getAuthorKeys a →
  ∃ s p, a = TStr s ∧ s ≠ "" ∧ p ∈ split_authors s
         ∧ k = toLowerCase (trim (remove_chars is_dot_or_comma (trim p)))
         ∧ (2 < String.length k)%nat.
Proof.
  destruct a as [| |s]; simpl; try by intros ?%elem_of_nil.
  destruct (String.eqb_spec s ""); [by intros ?%elem_of_nil|].
  rewrite list_elem_of_omap. intros (p & Hp & Hk).
  destruct (String.eqb (trim p) ""); [done|].
  destruct (Nat.ltb_spec 2
    (String.length (toLowerCase (trim (remove_chars is_dot_or_comma (trim p))))));
    [|done].
  injection Hk as <-. by exists s, p.
Qed.


(** [X2]-style facts below use this form of the keys. *)
Lemma key_chars a k c :
  k ∈ getAuthorKeys a → c ∈ chars k →
  c ≠ "."%char ∧ c ≠ ","%char ∧ c ≠ ";"%char ∧ c ≠ "&"%char ∧ lower_ascii c = c.
Proof.
  intros (s & p & -> & _ & Hp & -> & _)%getAuthorKeys_elem.
  rewrite chars_toLowerCase, list_elem_of_fmap. intros (c0 & -> & Hc0).
  apply elem_of_chars_trim, elem_of_chars_remove in Hc0 as [Hc0 Hcls].
  apply elem_of_chars_trim in Hc0.
  assert (c0 ≠ "."%char ∧ c0 ≠ ","%char) as [Hdot Hcomma].
  { unfold is_dot_or_comma in Hcls. split; intros ->; done. }
  assert (c0 ≠ ";"%char ∧ c0 ≠ "&"%char) as [Hsemi Hamp].
  { split; intros ->.
    - by pose proof (split_go_pieces _ _ _ _ _ _ Hp Hc0 (or_introl eq_refl))
        as ?%elem_of_nil.
    - by pose proof (split_go_pieces _ _ _ _ _ _ Hp Hc0 (or_intror eq_refl))
        as ?%elem_of_nil. }
  split_and!; try (intros Hl; apply lower_ascii_punct in Hl; done).
  apply lower_ascii_idemp.
Qed.

(** *** The author index *)

Lemma index_content_ext base E1 E2 acc :
  (∀ k, E1 k = E2 k) → index_content base E1 acc → index_content base E2 acc.
Proof.
  intros HE [Hc Hinj]. split; [|done].
  intros k. specialize (Hc k). rewrite <-HE. done.
Qed.

Lemma index_push_content base E d acc k' :
  index_inv base acc →
  index_content base E acc →
  index_content base (λ k, E k ++ if decide (k = k') then [d] else [])
    (index_push d acc k').
Proof.
  destruct acc as [idx s]. unfold index_inv, index_content, index_push, loc in *.
  simpl. intros (_ & [Hn _] & _) [Hc Hinj].
  destruct (idx !! k') as [l'|] eqn:Hk'; simpl.
  - split; [|done]. intros k. specialize (Hc k).
    destruct (idx !! k) as [l|] eqn:Hk.
    + destruct Hc as [Hl Hh]. split; [done|].
      destruct (decide (k = k')) as [->|Hne].
      * assert (l = l') as <-.
        { apply (inj Some). etrans; [symmetry; exact Hk|exact Hk']. }
        rewrite lookup_insert_eq.
        unfold arr, loc in *. by rewrite Hh.
      * rewrite lookup_insert_ne; [by rewrite app_nil_r|].
        intros <-. by destruct Hne; apply (Hinj _ _ l').
    + destruct (decide (k = k')) as [->|Hne].
      { exfalso. assert (@None loc = Some l') as Hx; [|discriminate Hx].
        etrans; [symmetry; exact Hk|exact Hk']. }
      by rewrite app_nil_r.
  - split.
    + intros k. specialize (Hc k).
      destruct (decide (k = k')) as [->|Hne].
      * rewrite lookup_insert_eq. rewrite Hk' in Hc. split; [lia|].
        unfold arr, loc in *. rewrite !lookup_insert_eq. simpl.
        by rewrite Hc.
      * rewrite lookup_insert_ne by done.
        destruct (idx !! k) as [l|] eqn:Hk; [|by rewrite app_nil_r].
        destruct Hc as [Hl Hh]. split; [lia|].
        rewrite !lookup_insert_ne by lia. by rewrite app_nil_r.
    + intros k1 k2 l. specialize (Hc k1) as Hc1. specialize (Hc k2) as Hc2.
      destruct (decide (k1 = k')) as [->|Hne1], (decide (k2 = k')) as [->|Hne2];
        rewrite ?lookup_insert_eq, ?lookup_insert_ne by done; try done.
      * intros [= <-] Hk2. rewrite Hk2 in Hc2. lia.
      * intros Hk1 [= <-]. rewrite Hk1 in Hc1. lia.
      * apply Hinj.
Qed.

Lemma keys_content base E d ks acc :
  index_inv base acc →
  index_content base E acc →
  index_inv base (foldl (index_push d) acc ks)
  ∧ index_content base (λ k, E k ++ ((λ _, d) <$> filter (λ k0, k0 = k) ks))
      (foldl (index_push d) acc ks).
Proof.
  revert E acc. induction ks as [|k' ks IH]; intros E acc Hinv Hc; simpl.
  - split; [done|]. eapply index_content_ext; [|exact Hc].
    intros k. by rewrite app_nil_r.
  - destruct (IH _ _ (index_push_inv _ d _ k' Hinv)
                (index_push_content _ _ d _ k' Hinv Hc)) as [Hinv' Hc'].
    split; [done|]. eapply index_content_ext; [|exact Hc'].
    intros k. simpl. rewrite <-app_assoc. f_equal.
    rewrite filter_cons. destruct (decide (k' = k)) as [->|Hne].
    + by rewrite decide_True.
    + by rewrite decide_False by done.
Qed.

Lemma build_fold_content base done_ ds acc :
  index_inv base acc →
  index_content base (λ k, worksOf k done_) acc →
  index_content base (λ k, worksOf k (done_ ++ ds))
    (foldl (λ acc d, foldl (index_push d) acc (getAuthorKeys (author d))) acc ds).
Proof.
  revert done_ acc. induction ds as [|d ds IH]; intros done_ acc Hinv Hc; simpl.
  - by rewrite app_nil_r.
  - destruct (keys_content _ _ d (getAuthorKeys (author d)) _ Hinv Hc) as [Hinv' Hc'].
    replace (done_ ++ d :: ds) with ((done_ ++ [d]) ++ ds) by by rewrite <-app_assoc.
    apply IH; [done|]. eapply index_content_ext; [|exact Hc'].
    intros k. unfold worksOf. rewrite bind_app. f_equal. simpl. by rewrite app_nil_r.
Qed.

Lemma build_index_content ds st :
  index_content st (λ k, worksOf k ds) (build_index ds st).
Proof.
  unfold build_index. apply (build_fold_content st [] ds).
  - split_and!; [by destruct st|apply extends_refl|]. intros k l. simpl.
    by rewrite lookup_empty.
  - split; simpl; [intros k|intros k1 k2 l]; by rewrite lookup_empty.
Qed.

(** What [init] yields, with the contents of the index. *)
Lemma init_index pg data0 e st0 :
  init pg data0 = Some (e, st0) →
  ∃ st1, extends st1 st0
         ∧ ∀ k, match authorIndex e !! k with
                | Some l => (l < next_loc st1)%nat
                            ∧ heap st1 !! l = Some (worksOf k data0)
                | None => worksOf k data0 = []
                end.
Proof.
  unfold init. destruct data0 as [|d ds]; [done|].
  pose proof (build_index_content (d :: ds) (start pg (d :: ds))) as [Hc _].
  destruct (build_index (d :: ds) (start pg (d :: ds))) as [idx st1].
  intros [= <- <-]. exists st1. split; [apply applyFilters_extends|].
  intros k. specialize (Hc k). simpl in *.
  destruct (idx !! k); [|done]. destruct Hc. split; [lia|done].
Qed.

Lemma indexedWorks_worksOf pg data0 e st0 evs key :
  init pg data0 = Some (e, st0) →
  indexedWorks e (run e evs st0) key = worksOf key data0.
Proof.
  intros (st1 & Hext & Hc)%init_index.
  destruct (extends_trans _ _ _ Hext (run_extends e evs st0)) as [_ Hh].
  specialize (Hc key). unfold indexedWorks, arr.
  destruct (authorIndex e !! key) as [l|]; [|done].
  destruct Hc as [Hl Hc]. unfold loc in *. by rewrite Hh, Hc.
Qed.

Lemma elem_of_worksOf key data d :
  d ∈ worksOf key data ↔ d ∈ data ∧ key ∈ getAuthorKeys (author d).
Proof.
  unfold worksOf. rewrite list_elem_of_bind. split.
  - intros (d' & Hd & Hd'). apply list_elem_of_fmap in Hd as (k & -> & Hk).
    apply list_elem_of_filter in Hk as [-> Hk]. done.
  - intros [Hd Hk]. exists d. split; [|done].
    apply list_elem_of_fmap. exists key. split; [done|].
    by apply list_elem_of_filter.
Qed.

Lemma multiWork_worksOf pg data0 e st0 key :
  init pg data0 = Some (e, st0) →
  key ∈ multiWorkAuthors e ↔ (2 ≤ length (worksOf key data0))%nat.
Proof.
  intros Hinit. rewrite <-(indexedWorks_worksOf _ _ _ _ [] key Hinit).
  apply reachable_multiWork. by exists pg, data0, st0, [].
Qed.

(** The keys of the author index are lowercase, longer than two characters
    and free of the punctuation that separates or abbreviates names. *)
Theorem author_keys_normalized a k :
  k ∈ getAuthorKeys a →
  (2 < String.length k)%nat
  ∧ toLowerCase k = k
  ∧ ∀ c, c ∈ chars k →
         c ≠ "."%char ∧ c ≠ ","%char ∧ c ≠ ";"%char ∧ c ≠ "&"%char.
Proof.
  intros Hk. split_and!.
  - by apply getAuthorKeys_elem in Hk as (s & p & _ & _ & _ & _ & Hlen).
  - apply getAuthorKeys_elem in Hk as (s & p & _ & _ & _ & -> & _).
    apply toLowerCase_idemp.
  - intros c Hc. destruct (key_chars _ _ _ Hk Hc) as (? & ? & ? & ? & _). done.
Qed.

Lemma author_keys_normalized_witness :
  "graham" ∈ getAuthorKeys (TStr "Graham, Benjamin; Dodd, David")
  ∧ toLowerCase "graham" = "graham".
Proof.
  assert ("graham" ∈ getAuthorKeys (TStr "Graham, Benjamin; Dodd, David")) as Hk
    by (vm_compute; left).
  split; [exact Hk|]. apply (author_keys_normalized _ _ Hk).
Defined.

(** The list indexed under an author key holds, in the order of the data, the
    records whose author string yields that key, once per occurrence, and no
    event changes it. *)
Theorem authorIndex_contents pg data0 e st0 evs key :
  init pg data0 = Some (e, st0) →
  indexedWorks e (run e evs st0) key = worksOf key data0
  ∧ (∀ d, d ∈ indexedWorks e (run e evs st0) key
          ↔ d ∈ data0 ∧ key ∈ getAuthorKeys (author d))
  ∧ (key ∈ multiWorkAuthors e ↔ (2 ≤ length (worksOf key data0))%nat).
Proof.
  intros Hinit. pose proof (indexedWorks_worksOf _ _ _ _ evs key Hinit) as Hw.
  split_and!; [done| |].
  - intros d. rewrite Hw. apply elem_of_worksOf.
  - rewrite <-Hw. apply reachable_multiWork. by exists pg, data0, st0, evs.
Qed.

Lemma authorIndex_contents_witness :
  init example_page example_data = Some (example_env, example_state)
  ∧ indexedWorks example_env (run example_env [SortClick "title"] example_state) "graham"
    = worksOf "graham" example_data.
Proof.
  split; [apply example_init|].
  apply (authorIndex_contents example_page example_data example_env example_state
           [SortClick "title"] "graham" example_init).
Defined.

(** An author cell is a link only when the primary author key is one of the
    normalized keys of at least two entries of the index; a primary key of at
    most two characters, or one that contains [&], never gives a link. *)
Theorem author_link_needs_indexed_key pg data0 e st0 d key :
  init pg data0 = Some (e, st0) →
  row_link (renderRow e d) = Some key →
  key = getPrimaryAuthorKey (author d)
  ∧ (2 ≤ length (worksOf key data0))%nat
  ∧ (∃ d', d' ∈ data0 ∧ key ∈ getAuthorKeys (author d'))
  ∧ (2 < String.length key)%nat
  ∧ "&"%char ∉ chars key.
Proof.
  intros Hinit Hlink.
  assert (key = getPrimaryAuthorKey (author d) ∧ key ∈ multiWorkAuthors e) as [Hkey Hm].
  { revert Hlink. unfold renderRow. simpl.
    destruct (String.eqb (getPrimaryAuthorKey (author d)) ""); simpl; [done|].
    case_bool_decide; [|done]. by intros [= <-]. }
  apply (multiWork_worksOf pg data0 e st0 key Hinit) in Hm.
  assert (∃ d', d' ∈ data0 ∧ key ∈ getAuthorKeys (author d')) as (d' & Hd' & Hk).
  { destruct (worksOf key data0) as [|d' ws] eqn:Hw; [simpl in Hm; lia|].
    exists d'. apply elem_of_worksOf. rewrite Hw. left. }
  split_and!; [done|done|by exists d'| |].
  - by apply getAuthorKeys_elem in Hk as (s & p & _ & _ & _ & _ & Hlen).
  - intros Hc. destruct (key_chars _ _ _ Hk Hc) as (_ & _ & _ & Hamp & _). done.
Qed.

(** *** Topic options *)

Lemma setOf_fold (acc xs : list string) :
  NoDup acc →
  let r := foldl (λ acc x, if bool_decide (x ∈ acc) then acc else acc ++ [x]) acc xs in
  NoDup r ∧ ∀ x, x ∈ r ↔ x ∈ acc ∨ x ∈ xs.
Proof.
  revert acc. induction xs as [|y xs IH]; intros acc Hnd; simpl.
  - split; [done|]. intros x. rewrite elem_of_nil. tauto.
  - case_bool_decide as Hy.
    + destruct (IH acc Hnd) as [Hn Hin]. split; [done|]. intros x.
      rewrite Hin, elem_of_cons. split; [tauto|]. intros [?|[->|?]]; tauto.
    + assert (NoDup (acc ++ [y])) as Hnd'.
      { apply NoDup_app. split_and!; [done| |apply NoDup_singleton].
        intros x Hx Hx'. apply list_elem_of_singleton in Hx'. congruence. }
      destruct (IH _ Hnd') as [Hn Hin]. split; [done|]. intros x.
      rewrite Hin, elem_of_app, list_elem_of_singleton, elem_of_cons. tauto.
Qed.

Lemma setOf_spec xs : NoDup (setOf xs) ∧ ∀ x, x ∈ setOf xs ↔ x ∈ xs.
Proof.
  destruct (setOf_fold [] xs (NoDup_nil_2)) as [Hn Hin]. split; [done|].
  intros x. unfold setOf. rewrite Hin, elem_of_nil. tauto.
Qed.

Lemma defaultCompare_le a b : String.le a b ↔ Periodicals.defaultCompare a b ≤ 0.
Proof.
  unfold Periodicals.defaultCompare, str_lt.
  destruct (String.ltb a b) eqn:Hab.
  { split; [lia|]. intros _. by apply ltb_le. }
  destruct (String.ltb b a) eqn:Hba.
  { split; [|lia]. intros Hle. apply le_not_ltb in Hle. congruence. }
  split; [lia|]. intros _. by apply not_ltb_le.
Qed.

Lemma sort_ascending (l : list string) :
  NoDup l → Periodicals.ascending (sort Periodicals.defaultCompare l).
Proof.
  intros Hnd0. unfold Periodicals.ascending.
  assert (StronglySorted String.le (sort Periodicals.defaultCompare l)) as Hs.
  { apply sort_sorted; [|apply _..]. intros a b. apply defaultCompare_le. }
  assert (NoDup (sort Periodicals.defaultCompare l)) as Hnd by by rewrite sort_perm.
  revert Hs Hnd. generalize (sort Periodicals.defaultCompare l).
  intros l'. induction 1 as [|a l' Hs IH Ha]; intros Hnd; [constructor|].
  apply NoDup_cons in Hnd as [Hnotin Hnd]. constructor; [by apply IH|].
  apply Forall_forall. intros b Hb. rewrite Forall_forall in Ha.
  specialize (Ha b Hb). unfold str_lt.
  destruct (String.ltb a b) eqn:Hab; [done|].
  apply not_ltb_le in Hab. assert (a = b) as -> by by apply (anti_symm String.le).
  done.
Qed.

Lemma StronglySorted_filter {A} (R : relation A) (P : A → Prop)
    `{∀ x, Decision (P x)} (l : list A) :
  StronglySorted R l → StronglySorted R (filter P l).
Proof.
  induction 1 as [|a l Hs IH Ha]; [constructor|].
  rewrite filter_cons. case_decide; [|done].
  constructor; [done|]. apply Forall_forall. intros b Hb.
  apply list_elem_of_filter in Hb as [_ Hb]. rewrite Forall_forall in Ha. by apply Ha.
Qed.

Lemma filter_all {A} (P : A → Prop) `{∀ x, Decision (P x)} (l : list A) :
  (∀ x, x ∈ l → P x) → filter P l = l.
Proof.
  induction l as [|a l IH]; intros Hall; [done|].
  rewrite filter_cons_True by (apply Hall; left).
  f_equal. apply IH. intros x Hx. apply Hall. by right.
Qed.

Lemma append_assoc (a b c : string) : (a +:+ b) +:+ c = a +:+ b +:+ c.
Proof. unfold String.app. induction a as [|x a IH]; [done|]. simpl. by rewrite IH. Qed.

Lemma topicsOf_spec data :
  Periodicals.ascending (topicsOf data)
  ∧ ∀ t, t ∈ topicsOf data ↔ t ≠ "" ∧ ∃ d, d ∈ data ∧ topic d = TStr t.
Proof.
  unfold topicsOf. destruct (setOf_spec (omap (λ d, truthyString (topic d)) data)) as [Hn Hin].
  split; [by apply sort_ascending|].
  intros t. rewrite elem_of_sort, Hin, list_elem_of_omap. split.
  - intros (d & Hd & Ht). unfold truthyString in Ht.
    destruct (topic d) as [| |s] eqn:Htd; try done.
    destruct (String.eqb_spec s ""); [done|]. injection Ht as ->.
    split; [done|]. by exists d.
  - intros (Hne & d & Hd & Ht). exists d. split; [done|]. rewrite Ht. simpl.
    by destruct (String.eqb_spec t "").
Qed.

(** The topic filter offers every non-empty topic of the data: the options of
    the page come first, as they were, followed by the topics of the data that
    the page did not list, each once and in ascending order. *)
Theorem topic_options_cover_data options data :
  (∀ d t, d ∈ data → topic d = TStr t → t ≠ "" → t ∈ populateTopics options data)
  ∧ ∃ added,
      populateTopics options data = options ++ added
      ∧ Periodicals.ascending added
      ∧ NoDup added
      ∧ ∀ t, t ∈ added ↔ (t ∉ options) ∧ t ≠ "" ∧ ∃ d, d ∈ data ∧ topic d = TStr t.
Proof.
  destruct (topicsOf_spec data) as [Hasc Hin].
  assert (∀ t, t ∈ filter (λ t, t ∉ options) (topicsOf data)
               ↔ (t ∉ options) ∧ t ≠ "" ∧ ∃ d, d ∈ data ∧ topic d = TStr t) as Hadded.
  { intros t. rewrite list_elem_of_filter, Hin. tauto. }
  split.
  - intros d t Hd Ht Hne. unfold populateTopics. apply elem_of_app.
    destruct (decide (t ∈ options)) as [|Hno]; [by left|right].
    apply Hadded. split_and!; [done..|]. by exists d.
  - exists (filter (λ t, t ∉ options) (topicsOf data)). split_and!; [done| | |done].
    + unfold Periodicals.ascending in *. by apply StronglySorted_filter.
    + apply NoDup_filter. unfold topicsOf. rewrite sort_perm. apply setOf_spec.
Qed.

(** *** The filter *)

Lemma prefix_spec n h : String.prefix n h = true ↔ ∃ b, h = n +:+ b.
Proof.
  unfold String.app. revert h. induction n as [|c n IH]; intros h; simpl.
  - destruct h; (split; [intros _; eexists; reflexivity|done]).
  - destruct h as [|c' h]; simpl.
    + split; [done|]. intros [b Hb]. done.
    + destruct (ascii_dec c c') as [->|Hne].
      * rewrite IH. split; intros [b Hb]; exists b; congruence.
      * split; [done|]. intros [b Hb]. congruence.
Qed.

Lemma includes_spec h n : includes h n = true ↔ ∃ a b, h = a +:+ n +:+ b.
Proof.
  induction h as [|c h IH]; cbn [includes].
  - rewrite orb_false_r, prefix_spec. unfold String.app. split.
    + intros [b Hb]. by exists "", b.
    + intros (a & b & Hab). destruct a; [by exists b|done].
  - rewrite orb_true_iff, prefix_spec, IH. unfold String.app. split.
    + intros [[b Hb]|(a & b & Hab)]; [by exists "", b|].
      exists (String c a), b. simpl. by rewrite Hab.
    + intros (a & b & Hab). destruct a as [|c' a]; simpl in Hab.
      * left. by exists b.
      * right. exists a, b. congruence.
Qed.

Lemma includes_trans h m n :
  includes h m = true → includes m n = true → includes h n = true.
Proof.
  rewrite !includes_spec. intros (a & b & ->) (a' & b' & ->).
  exists (a +:+ a'), (b' +:+ b).
  by rewrite !append_assoc.
Qed.

Lemma includes_empty n : includes "" n = true → n = "".
Proof. simpl. rewrite orb_false_r. by destruct n. Qed.

Lemma inactive_passes c d : inactive c → passes c d = true.
Proof.
  intros (Hq & Hs & Ht & He & Hy & Hn). apply passes_satisfies.
  unfold satisfies. split_and!; intros; congruence.
Qed.

(** With an empty query, no stream, topic or era selected and the 'have'
    control on neither 'yes' nor 'no', [applyFilters] keeps every record: the
    list is the data, reordered. *)
Theorem no_filter_shows_all e st :
  inactive (ctl st) →
  filteredArr (applyFilters e st) ≡ₚ arr (heap st) (data e).
Proof.
  intros Hc. rewrite applyFilters_filteredArr, sort_perm.
  rewrite filter_all; [done|]. intros d _. by rewrite inactive_passes.
Qed.

Lemma narrows_passes c c' d : narrows c c' → passes c' d = true → passes c d = true.
Proof.
  intros (Hq & Hs & Ht & He & Hh). rewrite !passes_satisfies.
  intros (Hq' & Hs' & Ht' & He' & Hy' & Hn'). split_and!.
  - intros Hne. destruct (decide (queryOf c' = "")) as [Hempty|Hne'].
    + rewrite Hempty in Hq. apply includes_empty in Hq. done.
    + apply (includes_trans _ (queryOf c')); [by apply Hq'|done].
  - intros Hne. destruct Hs as [?|Heq]; [done|]. rewrite <-Heq. apply Hs'. congruence.
  - intros Hne. destruct Ht as [?|Heq]; [done|]. rewrite <-Heq. apply Ht'. congruence.
  - intros Hne. destruct He as [?|Heq]; [done|]. rewrite <-Heq. apply He'. congruence.
  - intros Hy. destruct Hh as [[? ?]|Heq]; [done|]. apply Hy'. congruence.
  - intros Hn. destruct Hh as [[? ?]|Heq]; [done|]. apply Hn'. congruence.
Qed.

(** Restricting the controls never brings a record in: when the new query
    contains the old one and every filter that was set keeps its value, each
    record of the new list was in the old list. *)
Theorem narrowing_controls_shrinks_list e st st' :
  arr (heap st') (data e) = arr (heap st) (data e) →
  narrows (ctl st) (ctl st') →
  (∀ d, d ∈ filteredArr (applyFilters e st') → d ∈ filteredArr (applyFilters e st))
  ∧ (length (filteredArr (applyFilters e st')) ≤ length (filteredArr (applyFilters e st)))%nat.
Proof.
  intros Hd Hn. rewrite !applyFilters_filteredArr, Hd. split.
  - intros d. rewrite !elem_of_sort, !list_elem_of_filter.
    intros [Hp Hin]. split; [|done]. apply Is_true_true.
    apply (narrows_passes _ _ _ Hn). by apply Is_true_true.
  - rewrite !sort_length.
    rewrite <-(list_filter_filter_l (λ d, passes (ctl st') d) (λ d, passes (ctl st) d)).
    + apply length_filter.
    + intros d Hp. apply Is_true_true. apply (narrows_passes _ _ _ Hn).
      by apply Is_true_true.
Qed.

(** *** The rows of the table *)

Lemma reachable_handle e ev st : reachable e st → reachable e (handle e ev st).
Proof.
  intros (pg & data0 & st0 & evs & Hinit & ->).
  exists pg, data0, st0, (evs ++ [ev]). split; [done|]. by rewrite run_snoc.
Qed.

Lemma renderBatch_rendered e st :
  0 ≤ rendered st ≤ Z.of_nat (length (filteredArr st)) →
  rendered (renderBatch e st)
  = Z.min (rendered st + BATCH_SIZE) (Z.of_nat (length (filteredArr st))).
Proof.
  intros Hr. unfold renderBatch, BATCH_SIZE.
  destruct (Z.geb_spec (rendered st)
              (Z.min (rendered st + 60) (Z.of_nat (length (filteredArr st)))));
    simpl; lia.
Qed.

Lemma renderBatch_prefix e st :
  0 ≤ rendered st ≤ Z.of_nat (length (filteredArr st)) →
  tbody st = renderRow e <$> take (Z.to_nat (rendered st)) (filteredArr st) →
  tbody (renderBatch e st)
  = renderRow e <$> take (Z.to_nat (rendered (renderBatch e st))) (filteredArr st).
Proof.
  intros Hr Ht. unfold renderBatch, BATCH_SIZE.
  set (end_ := Z.min (rendered st + 60) (Z.of_nat (length (filteredArr st)))).
  destruct (Z.geb_spec (rendered st) end_) as [Hge|Hlt]; simpl; [done|].
  rewrite Ht, <-fmap_app. f_equal. unfold slice. rewrite take_take_drop.
  f_equal. lia.
Qed.

Lemma applyFilters_prefix e st :
  tbody (applyFilters e st)
  = renderRow e <$> take (Z.to_nat (rendered (applyFilters e st)))
                      (filteredArr (applyFilters e st)).
Proof.
  unfold applyFilters, alloc. cbv zeta. rewrite renderBatch_filteredArr.
  apply renderBatch_prefix; simpl; [lia|done].
Qed.

Lemma showAuthorJourney_table e key name st :
  wf e st →
  filteredArr (showAuthorJourney e key name st) = filteredArr st.
Proof.
  intros (_ & Hf & _).
  destruct (showAuthorJourney_store e key name st) as (_ & Hf' & _ & _ & _ & _ & Hh).
  unfold filteredArr, arr. rewrite Hf', Hh by lia. done.
Qed.

Lemma handle_prefix e ev st :
  wf e st → table_inv st →
  tbody st = renderRow e <$> take (Z.to_nat (rendered st)) (filteredArr st) →
  tbody (handle e ev st)
  = renderRow e <$> take (Z.to_nat (rendered (handle e ev st)))
                      (filteredArr (handle e ev st)).
Proof.
  intros Hwf (Hr & _) Ht.
  destruct ev; simpl; try apply applyFilters_prefix; try done.
  - destruct (timer st); [apply applyFilters_prefix|done].
  - case_match; [|done]. rewrite renderBatch_filteredArr. by apply renderBatch_prefix.
  - repeat case_match; try done.
    rewrite showAuthorJourney_table by done.
    match goal with
    | |- context [showAuthorJourney e ?k ?n st] =>
        destruct (showAuthorJourney_store e k n st) as (_ & _ & -> & -> & _)
    end.
    done.
Qed.

Lemma reachable_prefix e st :
  reachable e st →
  tbody st = renderRow e <$> take (Z.to_nat (rendered st)) (filteredArr st).
Proof.
  revert e st. apply reachable_ind.
  - intros pg data0 e st0 Hinit. apply init_Some in Hinit as (st1 & _ & _ & _ & ->).
    apply applyFilters_prefix.
  - intros e st ev Hr. apply handle_prefix; [by apply reachable_wf|by apply (reachable_table e)].
Qed.

Lemma row_record_renderRow e (l : list record) :
  row_record <$> (renderRow e <$> l) = l.
Proof. induction l as [|d l IH]; [done|]. rewrite !fmap_cons, IH. done. Qed.

(** In every reachable state the table shows the first [rendered] records of
    the filtered list, one row for each and in the order of the list. *)
Theorem table_shows_prefix e st :
  reachable e st →
  tbody st = renderRow e <$> take (Z.to_nat (rendered st)) (filteredArr st)
  ∧ (∀ i r, tbody st !! i = Some r → filteredArr st !! i = Some (row_record r))
  ∧ (loadMoreDisplay st = "none" → row_record <$> tbody st = filteredArr st).
Proof.
  intros Hr. pose proof (reachable_prefix e st Hr) as Ht.
  destruct (reachable_table e st Hr) as (Hb & Hl & Hd & Hblock).
  split_and!; [done| |].
  - intros i r Hi. rewrite Ht, list_lookup_fmap in Hi.
    destruct (take (Z.to_nat (rendered st)) (filteredArr st) !! i) as [d|] eqn:Hd';
      [|done].
    injection Hi as <-. simpl. apply lookup_take_Some in Hd' as [? _]. done.
  - intros Hnone. rewrite Ht, row_record_renderRow.
    apply take_ge.
    destruct Hd as [Hd|Hd]; [congruence|].
    assert (¬ rendered st < Z.of_nat (length (filteredArr st)))
      by (rewrite <-Hblock; congruence).
    lia.
Qed.

Lemma table_shows_prefix_witness :
  reachable example_env example_state
  ∧ row_record <$> tbody example_state = filteredArr example_state.
Proof.
  split; [apply (example_reachable [])|].
  apply (table_shows_prefix example_env example_state (example_reachable [])).
  reflexivity.
Defined.

(** *** Scrolling *)

Lemma intersect_step e st :
  reachable e st →
  let st' := handle e (Intersect true) st in
  filteredArr st' = filteredArr st
  ∧ rendered st'
    = Z.min (rendered st + BATCH_SIZE) (Z.of_nat (length (filteredArr st))).
Proof.
  intros Hr. destruct (reachable_table e st Hr) as (Hb & _). simpl.
  destruct (Z.ltb_spec (rendered st) (Z.of_nat (length (filteredArr st)))).
  - rewrite renderBatch_filteredArr, renderBatch_rendered by done. done.
  - unfold BATCH_SIZE. split; [done|lia].
Qed.

(** Each time the sentinel comes into view the table grows by one batch: after
    [n] such notifications [min(rendered + 60 n, length)] rows are shown, the
    list itself is unchanged, and once [rendered + 60 n] reaches the length of
    the list every record has its row and the sentinel is hidden. *)
Theorem scrolling_shows_batches e st n :
  reachable e st →
  let st' := run e (replicate n (Intersect true)) st in
  let len := Z.of_nat (length (filteredArr st)) in
  filteredArr st' = filteredArr st
  ∧ rendered st' = Z.min (rendered st + BATCH_SIZE * Z.of_nat n) len
  ∧ tbody st' = renderRow e <$> take (Z.to_nat (rendered st')) (filteredArr st)
  ∧ (len ≤ rendered st + BATCH_SIZE * Z.of_nat n →
       row_record <$> tbody st' = filteredArr st ∧ loadMoreDisplay st' = "none").
Proof.
  intros Hr. cbv zeta.
  assert (reachable e (run e (replicate n (Intersect true)) st)
          ∧ filteredArr (run e (replicate n (Intersect true)) st) = filteredArr st
          ∧ rendered (run e (replicate n (Intersect true)) st)
            = Z.min (rendered st + BATCH_SIZE * Z.of_nat n)
                (Z.of_nat (length (filteredArr st)))) as (Hr' & Hf & Hn).
  { induction n as [|n IH].
    - destruct (reachable_table e st Hr) as (Hb & _). simpl. split_and!; [done..|lia].
    - rewrite replicate_S_end, run_snoc. destruct IH as (Hr' & Hf & Hn).
      destruct (intersect_step e _ Hr') as [Hf' Hn'].
      split_and!; [by apply reachable_handle|congruence|].
      rewrite Hn', Hf, Hn. unfold BATCH_SIZE. lia. }
  pose proof (reachable_prefix e _ Hr') as Ht. rewrite Hf in Ht.
  split_and!; [done..|].
  intros Hlen. destruct (reachable_table e _ Hr') as (Hb & Hl & Hd & Hblock).
  rewrite Hf in *. split.
  - rewrite Ht, row_record_renderRow. apply take_ge. lia.
  - destruct Hd as [Hd|Hd]; [|done]. apply Hblock in Hd. lia.
Qed.

Lemma scrolling_shows_batches_witness :
  reachable example_env example_state
  ∧ filteredArr (run example_env (replicate 2 (Intersect true)) example_state)
    = filteredArr example_state.
Proof.
  split; [apply (example_reachable [])|].
  exact (proj1 (scrolling_shows_batches example_env example_state 2
                  (example_reachable []))).
Defined.

(** *** The status line *)

Lemma updateStats_ext st st' :
  filteredArr st' = filteredArr st → rendered st' = rendered st →
  updateStats st' = updateStats st.
Proof. intros Hf Hr. unfold updateStats. by rewrite Hf, Hr. Qed.

Lemma handle_quiet e ev st :
  wf e st → callsUpdateStats ev st = false →
  filteredArr (handle e ev st) = filteredArr st
  ∧ rendered (handle e ev st) = rendered st.
Proof.
  intros Hwf Hq. destruct ev; simpl in *; try done.
  - case_bool_decide as Ht; [done|]. destruct (timer st); [|done].
    exfalso. apply Ht. by eexists.
  - by rewrite Hq.
  - repeat case_match; try done.
    rewrite showAuthorJourney_table by done.
    match goal with
    | |- context [showAuthorJourney e ?k ?n st] =>
        destruct (showAuthorJourney_store e k n st) as (_ & _ & -> & _)
    end.
    done.
Qed.

Lemma runView_snoc e evs ev v :
  runView e (evs ++ [ev]) v = handleView e ev (runView e evs v).
Proof. unfold runView. by rewrite foldl_app. Qed.

Lemma runView_state e evs v :
  page_state (runView e evs v) = run e evs (page_state v).
Proof.
  induction evs as [|ev evs IH] using rev_ind; [done|].
  by rewrite runView_snoc, run_snoc, <-IH.
Qed.

(** The status line never lags behind the table: after the script has started
    and after every event it reads "Showing R of T textbooks (H in
    collection)" for the number R of rows in the table, the length T of the
    filtered list and the number H of its records with a truthy [have]. *)
Theorem status_line_in_sync pg data0 e v0 evs :
  initView pg data0 = Some (e, v0) →
  let v := runView e evs v0 in
  let st := page_state v in
  stats v = updateStats st
  ∧ stats v
    = "Showing " +:+ pretty (Z.of_nat (length (tbody st))) +:+ " of "
      +:+ pretty (length (filteredArr st)) +:+ " textbooks ("
      +:+ pretty (length (filter (λ d, truthy (have d)) (filteredArr st)))
      +:+ " in collection)".
Proof.
  intros Hinit. cbv zeta.
  unfold initView in Hinit. destruct (init pg data0) as [[e' st0]|] eqn:Hi; [|done].
  simpl in Hinit. injection Hinit as -> <-.
  assert (reachable e (page_state (runView e evs {| page_state := st0; stats := updateStats st0 |}))
          ∧ stats (runView e evs {| page_state := st0; stats := updateStats st0 |})
            = updateStats (page_state (runView e evs {| page_state := st0; stats := updateStats st0 |})))
    as [Hr Hs].
  { induction evs as [|ev evs IH] using rev_ind.
    - split; [|done]. by exists pg, data0, st0, [].
    - rewrite runView_snoc. destruct IH as [Hr Hs]. split.
      + simpl. by apply reachable_handle.
      + unfold handleView. simpl.
        destruct (callsUpdateStats ev _) eqn:Hc; [done|].
        rewrite Hs. symmetry.
        destruct (handle_quiet e ev _ (reachable_wf _ _ Hr) Hc) as [Hf Hn].
        by apply updateStats_ext. }
  split; [done|]. rewrite Hs.
  destruct (reachable_table e _ Hr) as (Hb & Hl & _). revert Hb Hl.
  generalize (page_state (runView e evs {| page_state := st0; stats := updateStats st0 |})).
  intros st Hb Hl. unfold updateStats. rewrite Z.min_l by lia. rewrite Hl. done.
Qed.

Lemma status_line_in_sync_witness :
  initView example_page example_data
  = Some (example_env, {| page_state := example_state; stats := updateStats example_state |})
  ∧ stats (runView example_env [HaveChange "yes"]
             {| page_state := example_state; stats := updateStats example_state |})
    = "Showing 1 of 1 textbooks (1 in collection)".
Proof.
  assert (initView example_page example_data
          = Some (example_env,
                  {| page_state := example_state; stats := updateStats example_state |}))
    as Hinit by (unfold initView; rewrite example_init; reflexivity).
  split; [exact Hinit|].
  etrans; [exact (proj2 (status_line_in_sync _ _ _ _ [HaveChange "yes"] Hinit))|].
  vm_compute. reflexivity.
Defined.

(** *** Debounce *)

Lemma search_inputs e vs st :
  let st' := run e (SearchInput <$> vs) st in
  filteredArr st' = filteredArr st
  ∧ tbody st' = tbody st
  ∧ rendered st' = rendered st
  ∧ next_loc st' = next_loc st
  ∧ heap st' = heap st
  ∧ sortField st' = sortField st ∧ sortDir st' = sortDir st
  ∧ streamValue (ctl st') = streamValue (ctl st)
  ∧ topicValue (ctl st') = topicValue (ctl st)
  ∧ eraValue (ctl st') = eraValue (ctl st)
  ∧ haveValue (ctl st') = haveValue (ctl st)
  ∧ searchValue (ctl st') = default (searchValue (ctl st)) (last vs)
  ∧ (vs ≠ [] → timer st' = Some 200).
Proof.
  cbv zeta. induction vs as [|v vs IH] using rev_ind.
  - simpl. split_and!; done.
  - rewrite fmap_app, fmap_cons, fmap_nil, run_snoc, last_snoc.
    destruct IH as (? & ? & ? & ? & ? & ? & ? & ? & ? & ? & ? & ? & ?).
    simpl. split_and!; done.
Qed.

(** Typing coalesces: however many [input] events precede the timeout, the
    list, the rows and the store stay as they were until the timer fires; the
    list is then recomputed once, for the text typed last, and the timer is
    disarmed, so that a later timeout does nothing. *)
Theorem typing_recomputes_once e st vs v :
  reachable e st →
  let st' := run e (SearchInput <$> (vs ++ [v])) st in
  let st'' := handle e TimerFires st' in
  (filteredArr st' = filteredArr st ∧ tbody st' = tbody st
   ∧ heap st' = heap st ∧ next_loc st' = next_loc st)
  ∧ (searchValue (ctl st'') = v ∧ recomputed e st''
     ∧ next_loc st'' = S (next_loc st) ∧ timer st'' = None)
  ∧ handle e TimerFires st'' = st''.
Proof.
  intros Hr. cbv zeta.
  set (st' := run e (SearchInput <$> (vs ++ [v])) st).
  assert (reachable e st') as Hr'.
  { destruct Hr as (pg & data0 & st0 & evs & Hinit & ->).
    exists pg, data0, st0, (evs ++ (SearchInput <$> (vs ++ [v]))).
    split; [done|]. unfold st', run. by rewrite foldl_app. }
  destruct (search_inputs e (vs ++ [v]) st)
    as (Hf & Ht & Hn & Hl & Hh & _ & _ & _ & _ & _ & _ & Hs & Htm).
  fold st' in Hf, Ht, Hn, Hl, Hh, Hs, Htm. rewrite last_snoc in Hs. simpl in Hs.
  assert (timer st' = Some 200) as Htimer by (apply Htm; by destruct vs).
  assert (handle e TimerFires st' = applyFilters e (set_timer None st')) as Hfire
    by (simpl; by rewrite Htimer).
  rewrite Hfire.
  assert (wf e (set_timer None st')) as Hwf by (apply (reachable_wf e st' Hr')).
  destruct (applyFilters_frame e (set_timer None st')) as (_ & _ & Hc & _ & Htm').
  destruct (applyFilters_store e (set_timer None st')) as (Hnl & _).
  split_and!; try done.
  - by rewrite Hc.
  - by apply applyFilters_recomputed.
  - rewrite Hnl. simpl. by rewrite Hl.
  - simpl. by rewrite Htm'.
Qed.

Lemma typing_recomputes_once_witness :
  reachable example_env example_state
  ∧ searchValue (ctl (handle example_env TimerFires
                        (run example_env (SearchInput <$> (["w"; "wi"] ++ ["wil"]))
                           example_state))) = "wil".
Proof.
  split; [apply (example_reachable [])|].
  exact (proj1 (proj1 (proj2 (typing_recomputes_once example_env example_state
                                ["w"; "wi"] "wil" (example_reachable []))))).
Defined.

(** *** Author links *)

(** A click on an author link of the table always opens the journey: the
    panel is shown under the author string of the row, with the works indexed
    under the link's key, at least two of them, while the table and the list
    stay as they are.  A click on an author cell without link changes
    nothing. *)
Theorem author_link_opens_journey e st i r :
  reachable e st →
  tbody st !! i = Some r →
  let st' := handle e (AuthorClick i) st in
  match row_link r with
  | Some key =>
      panel_display (journeyPanel st') = "block"
      ∧ panel_name (journeyPanel st') = String_ (author (row_record r))
      ∧ panel_items (journeyPanel st') ≡ₚ indexedWorks e st key
      ∧ (2 ≤ length (panel_items (journeyPanel st')))%nat
      ∧ tbody st' = tbody st ∧ filteredArr st' = filteredArr st
  | None => st' = st
  end.
Proof.
  intros Hr Hi. cbv zeta. simpl. rewrite Hi.
  destruct (row_link r) as [key|] eqn:Hlink; [|done].
  assert (key ∈ multiWorkAuthors e) as Hm.
  { rewrite (reachable_prefix e st Hr), list_lookup_fmap in Hi.
    destruct (take _ _ !! i) as [d|]; [|done]. injection Hi as <-.
    revert Hlink. unfold renderRow. simpl.
    destruct (String.eqb (getPrimaryAuthorKey (author d)) ""); simpl; [done|].
    case_bool_decide; [|done]. by intros [= <-]. }
  apply (reachable_multiWork e st key Hr) in Hm.
  pose proof (showAuthorJourney_panel e key (String_ (author (row_record r))) st) as Hp.
  cbv zeta in Hp. destruct (Nat.ltb_spec (length (indexedWorks e st key)) 2); [lia|].
  rewrite Hp. simpl.
  destruct (showAuthorJourney_store e key (String_ (author (row_record r))) st)
    as (_ & _ & _ & Hb & _).
  split_and!; [done|done|apply sort_perm|by rewrite sort_length|done|].
  apply showAuthorJourney_table. by apply reachable_wf.
Qed.

Lemma author_link_opens_journey_witness :
  reachable example_env example_state
  ∧ tbody example_state !! 0%nat = Some (renderRow example_env graham1934)
  ∧ panel_display (journeyPanel (handle example_env (AuthorClick 0) example_state))
    = "block".
Proof.
  assert (tbody example_state !! 0%nat = Some (renderRow example_env graham1934)) as Hi
    by (vm_compute; reflexivity).
  split; [apply (example_reachable [])|]. split; [exact Hi|].
  exact (proj1 (author_link_opens_journey example_env example_state 0 _
                  (example_reachable []) Hi)).
Defined.

(** *** The 'have' control *)

Lemma passes_with_have c v d :
  haveValue c ≠ "yes" → haveValue c ≠ "no" →
  passes (with_have v c) d = true
  ↔ passes c d = true
    ∧ (v = "yes" → truthy (have d) = true) ∧ (v = "no" → truthy (have d) = false).
Proof.
  intros Hy Hn. rewrite !passes_satisfies. unfold satisfies. simpl.
  change (queryOf (with_have v c)) with (queryOf c). tauto.
Qed.

Lemma filter_complement_length {A} (P : A → Prop) `{∀ x, Decision (P x)} (l : list A) :
  (length (filter P l) + length (filter (λ x, ¬ P x) l) = length l)%nat.
Proof.
  induction l as [|a l IH]; [done|]. rewrite !filter_cons.
  destruct (decide (P a)), (decide (¬ P a)); simpl; try lia; tauto.
Qed.

(** With the 'have' control on neither 'yes' nor 'no', switching it to 'yes'
    keeps exactly the records of the current selection with a truthy [have],
    switching it to 'no' exactly the others; the two lists together have the
    length of the selection, and the first has the length that the status line
    reports as 'in collection'. *)
Theorem have_filter_splits_list e st :
  haveValue (ctl st) ≠ "yes" → haveValue (ctl st) ≠ "no" →
  let all := filteredArr (applyFilters e st) in
  let yes := filteredArr (handle e (HaveChange "yes") st) in
  let no := filteredArr (handle e (HaveChange "no") st) in
  yes ≡ₚ filter (λ d, truthy (have d)) all
  ∧ no ≡ₚ filter (λ d, ¬ truthy (have d)) all
  ∧ (length yes + length no = length all)%nat.
Proof.
  intros Hy Hn. cbv zeta. simpl.
  rewrite !applyFilters_filteredArr. simpl.
  set (dat := arr (heap st) (data e)). rewrite !sort_perm.
  assert (filter (λ d, passes (with_have "yes" (ctl st)) d) dat
          = filter (λ d, truthy (have d)) (filter (λ d, passes (ctl st) d) dat)) as Hyes.
  { rewrite list_filter_filter. apply list_filter_iff. intros d.
    rewrite !Is_true_true, passes_with_have by done.
    split; [intros (? & Ht & _); split; [by apply Ht|done]|].
    intros [? ?]. split_and!; [done|done|discriminate]. }
  assert (filter (λ d, passes (with_have "no" (ctl st)) d) dat
          = filter (λ d, ¬ truthy (have d)) (filter (λ d, passes (ctl st) d) dat)) as Hno.
  { rewrite list_filter_filter. apply list_filter_iff. intros d.
    rewrite !Is_true_true, passes_with_have by done.
    split.
    - intros (? & _ & Hf). split; [|done]. rewrite Hf by done. done.
    - intros [Hf ?]. split_and!; [done|discriminate|].
      intros _. by destruct (truthy (have d)). }
  rewrite Hyes, Hno. split_and!; [done..|].
  apply filter_complement_length.
Qed.

Lemma have_filter_splits_list_witness :
  haveValue (ctl example_state) ≠ "yes" ∧ haveValue (ctl example_state) ≠ "no"
  ∧ filteredArr (handle example_env (HaveChange "yes") example_state)
    ≡ₚ filter (λ d, truthy (have d)) (filteredArr (applyFilters example_env example_state)).
Proof.
  assert (haveValue (ctl example_state) ≠ "yes") as Hy by (vm_compute; discriminate).
  assert (haveValue (ctl example_state) ≠ "no") as Hn by (vm_compute; discriminate).
  split; [exact Hy|]. split; [exact Hn|].
  exact (proj1 (have_filter_splits_list example_env example_state Hy Hn)).
Defined.

(** *** The example catalog *)

Lemma author_link_needs_indexed_key_witness :
  init example_page example_data = Some (example_env, example_state)
  ∧ row_link (renderRow example_env graham1934) = Some "graham"
  ∧ (2 ≤ length (worksOf "graham" example_data))%nat.
Proof.
  assert (row_link (renderRow example_env graham1934) = Some "graham") as Hl
    by (by vm_compute).
  split; [exact example_init|]. split; [exact Hl|].
  exact (proj1 (proj2 (author_link_needs_indexed_key _ _ _ _ _ _ example_init Hl))).
Defined.

Lemma no_filter_shows_all_witness :
  inactive (ctl example_state)
  ∧ filteredArr (applyFilters example_env example_state)
    ≡ₚ arr (heap example_state) (data example_env).
Proof.
  assert (inactive (ctl example_state)) as Hc
    by (vm_compute; repeat split; discriminate).
  split; [exact Hc|]. exact (no_filter_shows_all example_env example_state Hc).
Defined.

Lemma narrowing_controls_shrinks_list_witness :
  narrows (ctl example_state) (with_search "graham" (ctl example_state))
  ∧ (length (filteredArr
               (applyFilters example_env
                  (set_ctl (with_search "graham" (ctl example_state)) example_state)))
     ≤ length (filteredArr (applyFilters example_env example_state)))%nat.
Proof.
  assert (narrows (ctl example_state) (with_search "graham" (ctl example_state))) as Hn.
  { unfold narrows. split_and!; [by vm_compute|left; by vm_compute..|].
    left. split; vm_compute; discriminate. }
  split; [exact Hn|].
  exact (proj2 (narrowing_controls_shrinks_list example_env example_state
                  (set_ctl (with_search "graham" (ctl example_state)) example_state)
                  eq_refl Hn)).
Defined.

End CatalogFacts.

(** ** More of the timeline *)

Module TimelineViewFacts.
Import JS Timeline JSFacts TimelineFacts TimelineView.

(** *** The hash *)

Lemma to_int32_range n : - 2 ^ 31 ≤ to_int32 n < 2 ^ 31.
Proof.
  unfold to_int32. pose proof (Z.mod_pos_bound (n + 2 ^ 31) (2 ^ 32) ltac:(lia)). lia.
Qed.

Lemma to_int32_shift n k : to_int32 (n + k * 2 ^ 32) = to_int32 n.
Proof.
  unfold to_int32. replace (n + k * 2 ^ 32 + 2 ^ 31) with (n + 2 ^ 31 + k * 2 ^ 32) by lia.
  by rewrite Z.mod_add by lia.
Qed.

Lemma to_int32_cong n : ∃ k, to_int32 n = n + k * 2 ^ 32.
Proof.
  unfold to_int32. exists (- ((n + 2 ^ 31) / 2 ^ 32)).
  pose proof (Z.div_mod (n + 2 ^ 31) (2 ^ 32) ltac:(lia)). lia.
Qed.

Lemma to_int32_id n : - 2 ^ 31 ≤ n < 2 ^ 31 → to_int32 n = n.
Proof. intros Hn. unfold to_int32. rewrite Z.mod_small by lia. lia. Qed.

Lemma hash_step h' c :
  to_int32 (to_int32 (Z.shiftl (to_int32 h') 5) - to_int32 h' + c)
  = to_int32 (31 * h' + c).
Proof.
  rewrite Z.shiftl_mul_pow2 by lia.
  destruct (to_int32_cong h') as [k ->].
  destruct (to_int32_cong ((h' + k * 2 ^ 32) * 2 ^ 5)) as [k' ->].
  replace ((h' + k * 2 ^ 32) * 2 ^ 5 + k' * 2 ^ 32 - (h' + k * 2 ^ 32) + c)
    with (31 * h' + c + (31 * k + k') * 2 ^ 32) by lia.
  apply to_int32_shift.
Qed.

Lemma hashStr_foldl cs :
  foldl (λ h c, to_int32 (to_int32 (Z.shiftl h 5) - h + c)) 0 cs
  = to_int32 (hashPoly cs).
Proof.
  unfold hashPoly. induction cs as [|c cs IH] using rev_ind; [done|].
  rewrite !foldl_app. simpl. rewrite IH. apply hash_step.
Qed.

(** [hashStr] is the polynomial hash with multiplier 31 over the character
    codes, reduced to a signed 32-bit integer: the reductions inside the loop
    do not change the result, and appending a character multiplies the hash
    by 31 and adds the character's code. *)
Theorem hashStr_polynomial s :
  hashStr s = to_int32 (hashPoly (char_codes s))
  ∧ - 2 ^ 31 ≤ hashStr s < 2 ^ 31
  ∧ (∀ c, hashStr (s +:+ String c "")
          = to_int32 (31 * hashStr s + Z.of_N (N_of_ascii c))).
Proof.
  unfold hashStr. rewrite hashStr_foldl. split_and!; [done|apply to_int32_range..|].
  intros c.
  assert (char_codes (s +:+ String c "") = char_codes s ++ [Z.of_N (N_of_ascii c)]) as ->.
  { unfold String.app. induction s as [|a s IH]; [done|]. simpl. by rewrite IH. }
  rewrite hashStr_foldl. unfold hashPoly. rewrite foldl_app. simpl.
  fold (hashPoly (char_codes s)).
  destruct (to_int32_cong (hashPoly (char_codes s))) as [k ->].
  replace (31 * (hashPoly (char_codes s) + k * 2 ^ 32) + Z.of_N (N_of_ascii c))
    with (31 * hashPoly (char_codes s) + Z.of_N (N_of_ascii c) + (31 * k) * 2 ^ 32) by lia.
  by rewrite to_int32_shift.
Qed.

(** *** The year range *)

Lemma foldl_min_spec y0 ys :
  foldl Z.min y0 ys ∈ y0 :: ys ∧ ∀ y, y ∈ y0 :: ys → foldl Z.min y0 ys ≤ y.
Proof.
  revert y0. induction ys as [|a ys IH]; intros y0; simpl.
  - split; [left|]. intros y Hy. apply list_elem_of_singleton in Hy. lia.
  - destruct (IH (Z.min y0 a)) as [Hin Hle]. split.
    + apply elem_of_cons in Hin as [Hin|Hin]; [|by do 2 right].
      rewrite Hin. destruct (Z.min_spec y0 a) as [[_ ->]|[_ ->]]; [left|right; left].
    + intros y Hy. apply elem_of_cons in Hy as [->|Hy].
      * specialize (Hle (Z.min y0 a) ltac:(left)). lia.
      * apply elem_of_cons in Hy as [->|Hy].
        -- specialize (Hle (Z.min y0 a) ltac:(left)). lia.
        -- apply Hle. by right.
Qed.

Lemma foldl_max_spec y0 ys :
  foldl Z.max y0 ys ∈ y0 :: ys ∧ ∀ y, y ∈ y0 :: ys → y ≤ foldl Z.max y0 ys.
Proof.
  revert y0. induction ys as [|a ys IH]; intros y0; simpl.
  - split; [left|]. intros y Hy. apply list_elem_of_singleton in Hy. lia.
  - destruct (IH (Z.max y0 a)) as [Hin Hle]. split.
    + apply elem_of_cons in Hin as [Hin|Hin]; [|by do 2 right].
      rewrite Hin. destruct (Z.max_spec y0 a) as [[_ ->]|[_ ->]]; [right; left|left].
    + intros y Hy. apply elem_of_cons in Hy as [->|Hy].
      * specialize (Hle (Z.max y0 a) ltac:(left)). lia.
      * apply elem_of_cons in Hy as [->|Hy].
        -- specialize (Hle (Z.max y0 a) ltac:(left)). lia.
        -- apply Hle. by right.
Qed.

Lemma yearBounds_Some data mn mx :
  yearBounds data = Some (mn, mx) →
  (∀ it, it ∈ data → 0 < year it → mn + 10 ≤ year it ≤ mx - 10)
  ∧ (∃ a, a ∈ data ∧ year a = mn + 10)
  ∧ (∃ b, b ∈ data ∧ year b = mx - 10).
Proof.
  unfold yearBounds. destruct (filter _ _) as [|y0 ys] eqn:Hf; [done|].
  intros [= <- <-].
  destruct (foldl_min_spec y0 ys) as [Hmin Hle].
  destruct (foldl_max_spec y0 ys) as [Hmax Hge].
  rewrite <-Hf in Hmin, Hle, Hmax, Hge.
  split_and!.
  - intros it Hit Hpos.
    assert (year it ∈ filter (λ y, 0 < y) (year <$> data)) as Hy.
    { apply list_elem_of_filter. split; [done|]. apply list_elem_of_fmap. by exists it. }
    specialize (Hle _ Hy). specialize (Hge _ Hy). lia.
  - apply list_elem_of_filter in Hmin as [_ Hmin].
    apply list_elem_of_fmap in Hmin as (a & Ha & Hin). exists a. split; [done|]. lia.
  - apply list_elem_of_filter in Hmax as [_ Hmax].
    apply list_elem_of_fmap in Hmax as (b & Hb & Hin). exists b. split; [done|]. lia.
Qed.


(** *** The layout *)

Lemma shown_spec f it :
  shown f it = true ↔ 0 < year it ∧ (f = "all" ∨ paradigm it = VStr f).
Proof.
  unfold shown. destruct (Z.leb_spec (year it) 0) as [Hle|Hlt].
  { split; [done|]. intros [? _]. lia. }
  destruct (String.eqb_spec f "all") as [->|Hne].
  { split; [|done]. intros _. split; [done|by left]. }
  rewrite strict_eq_str_spec. split.
  - intros Hp. split; [done|by right].
  - intros [_ [?|Hp]]; done.
Qed.

Lemma elem_of_getFiltered data f it :
  it ∈ getFiltered data f
  ↔ it ∈ data ∧ 0 < year it ∧ (f = "all" ∨ paradigm it = VStr f).
Proof.
  unfold getFiltered. rewrite list_elem_of_filter, Is_true_true, shown_spec. tauto.
Qed.

Lemma layoutDots_items w mn mx items :
  d <$> layoutDots w mn mx items = items.
Proof.
  unfold layoutDots. induction items as [|it items IH]; [done|].
  rewrite !fmap_cons. simpl. f_equal. exact IH.
Qed.

Lemma layoutDots_length w mn mx items :
  length (layoutDots w mn mx items) = length items.
Proof. unfold layoutDots. by rewrite length_fmap. Qed.

Lemma jitter_range seed :
  (- (66 # 5) <= inject_Z (Z.rem seed 30 - 15) * (3 # 10) <= 21 # 5)%Q.
Proof.
  pose proof (Z.rem_bound_abs seed 30 ltac:(lia)) as Hb.
  assert (-44 ≤ Z.rem seed 30 - 15 ≤ 14) as [Hlo Hhi] by lia.
  generalize dependent (Z.rem seed 30 - 15). intros k Hlo Hhi.
  unfold Qle, Qmult, inject_Z. simpl. lia.
Qed.

Lemma yearToX_range w mn mx yr :
  mn ≤ yr ≤ mx → mn < mx → (PADDING_left + PADDING_right <= w)%Q →
  (PADDING_left <= yearToX w mn mx yr <= w - PADDING_right)%Q.
Proof.
  intros Hy Hlt Hw. unfold yearToX. cbv zeta.
  set (frac := (inject_Z (yr - mn) / inject_Z (mx - mn))%Q).
  assert (0 < inject_Z (mx - mn))%Q as Hpos.
  { change 0%Q with (inject_Z 0). rewrite <-Zlt_Qlt. lia. }
  assert (0 <= frac)%Q as H0.
  { unfold frac. apply Qle_shift_div_l; [done|]. rewrite Qmult_0_l.
    change 0%Q with (inject_Z 0). rewrite <-Zle_Qle. lia. }
  assert (frac <= 1)%Q as H1.
  { unfold frac. apply Qle_shift_div_r; [done|]. rewrite Qmult_1_l.
    rewrite <-Zle_Qle. lia. }
  assert (0 <= w - PADDING_left - PADDING_right)%Q as Hu by lra.
  pose proof (Qmult_le_0_compat _ _ H0 Hu) as Hlo.
  assert (frac * (w - PADDING_left - PADDING_right)
          <= 1 * (w - PADDING_left - PADDING_right))%Q as Hhi
    by (by apply Qmult_le_compat_r).
  split; lra.
Qed.

Lemma scoreToY_range s :
  (-1 <= s <= 1)%Q → (65 <= scoreToY s <= 495)%Q.
Proof.
  intros [Hlo Hhi]. unfold scoreToY, h, PADDING_top, PADDING_bottom. cbv zeta.
  unfold Qdiv. change (/ 2)%Q with (1 # 2)%Q. split; lra.
Qed.

(** Every dot stands for an item of the data with a positive year that the
    current filter admits.  On a canvas at least as wide as the horizontal
    padding it lies between the left and the right padding, and when the
    item's score is between -1 and 1 (or missing) its ordinate is between 51.8
    and 499.2: the band from 65 to 495 of the scores, widened by the jitter,
    which ranges from -13.2 to 4.2. *)
Theorem dots_within_plot wd data mn mx f p :
  yearBounds data = Some (mn, mx) →
  (PADDING_left + PADDING_right <= wd)%Q →
  p ∈ layoutDots wd mn mx (getFiltered data f) →
  (d p ∈ data ∧ 0 < year (d p) ∧ (f = "all" ∨ paradigm (d p) = VStr f))
  ∧ (PADDING_left <= x p <= wd - PADDING_right)%Q
  ∧ (scoreToY (default 0%Q (score (d p))) - (66 # 5) <= y p
     <= scoreToY (default 0%Q (score (d p))) + (21 # 5))%Q
  ∧ ((-1 <= default 0%Q (score (d p)) <= 1)%Q → (259 # 5 <= y p <= 2496 # 5)%Q).
Proof.
  intros Hb Hw Hp. unfold layoutDots in Hp.
  apply list_elem_of_fmap in Hp as (it & -> & Hit). simpl.
  apply elem_of_getFiltered in Hit as (Hin & Hpos & Hf).
  destruct (yearBounds_Some _ _ _ Hb) as (Hall & _).
  specialize (Hall it Hin Hpos).
  pose proof (jitter_range (hashStr (String_ (author it) +:+ String_ (title it)))) as Hj.
  pose proof (yearToX_range wd mn mx (year it) ltac:(lia) ltac:(lia) Hw) as Hx.
  split; [by split_and!|]. split; [exact Hx|].
  destruct Hj as [Hj1 Hj2]. split; [split; lra|].
  intros Hs. apply scoreToY_range in Hs. destruct Hs. split; lra.
Qed.

(** *** Hit testing and the selection *)

Lemma scan_lt wantNote r mx my ps n i :
  scan wantNote r mx my ps n = Some i → (i < n)%nat.
Proof.
  induction n as [|n IH]; simpl; [done|].
  destruct (ps !! n) as [p|]; [|intros H; apply IH in H; lia].
  destruct (negb _); [intros H; apply IH in H; lia|].
  destruct (Qle_bool _ _); [intros [= <-]; lia|intros H; apply IH in H; lia].
Qed.

Lemma getHitIndex_range ps mx my :
  -1 ≤ getHitIndex ps mx my < Z.of_nat (length ps).
Proof.
  unfold getHitIndex.
  destruct (scan true _ _ _ _ _) as [i|] eqn:H1; [apply scan_lt in H1; lia|].
  destruct (scan false _ _ _ _ _) as [i|] eqn:H2; [apply scan_lt in H2; lia|].
  lia.
Qed.

Lemma draw_laid_out mn mx st : laid_out mn mx (draw mn mx st).
Proof. done. Qed.

Lemma handle_laid_out mn mx ev st :
  laid_out mn mx st → laid_out mn mx (handle mn mx ev st).
Proof.
  intros Hl. destruct ev; simpl; repeat case_match; done.
Qed.

Lemma handle_positions mn mx ev st :
  laid_out mn mx st →
  (∀ f, ev ≠ FilterButton f) →
  d <$> positions (handle mn mx ev st) = d <$> positions st.
Proof.
  intros Hl Hf. unfold laid_out in Hl.
  destruct ev; simpl; repeat case_match; simpl;
    rewrite ?Hl, ?layoutDots_items; try done.
  by destruct (Hf f).
Qed.

Lemma handle_selection mn mx ev st :
  laid_out mn mx st → selection_inv st → selection_inv (handle mn mx ev st).
Proof.
  intros Hl Hs.
  assert (∀ st', selectedIdx st' = selectedIdx st → popup st' = popup st →
                 d <$> positions st' = d <$> positions st → selection_inv st') as Hkeep.
  { intros st' Hsel Hpop Hpos. unfold selection_inv in *.
    rewrite Hsel, Hpop, <-!list_lookup_fmap, Hpos.
    rewrite <-(length_fmap d (positions st')), Hpos, length_fmap.
    by rewrite <-!list_lookup_fmap in Hs. }
  destruct ev as [mx' my'|mx' my'| |f|wd].
  - apply Hkeep; [simpl; by case_match..|by apply handle_positions].
  - simpl. pose proof (getHitIndex_range (positions st) mx' my') as Hr.
    destruct (Z.geb_spec (getHitIndex (positions st) mx' my') 0) as [Hge|Hlt].
    + right. simpl. rewrite <-Hl.
      assert (is_Some (positions st !! Z.to_nat (getHitIndex (positions st) mx' my')))
        as [p Hp] by (apply lookup_lt_is_Some; lia).
      split_and!; [lia|lia|rewrite Hp; by eexists|done].
    + left. done.
  - apply Hkeep; [done..|by apply handle_positions].
  - left. done.
  - apply Hkeep; [done..|by apply handle_positions].
Qed.

Lemma reachable_inv mn mx data0 st :
  reachable mn mx data0 st →
  data st = data0 ∧ laid_out mn mx st ∧ selection_inv st.
Proof.
  intros (wd & st0 & evs & Hinit & ->).
  unfold init in Hinit. destruct data0 as [|it0 data0]; [done|].
  destruct (yearBounds (it0 :: data0)) as [[mn' mx']|]; [|done].
  simpl in Hinit. injection Hinit as -> -> <-.
  induction evs as [|ev evs IH] using rev_ind.
  - split_and!; [done|done|by left].
  - unfold run in *. rewrite foldl_app. simpl. destruct IH as (Hd & Hl & Hs).
    split_and!; [by rewrite handle_data|by apply handle_laid_out|by apply handle_selection].
Qed.

(** The dots that hit testing uses are always those of the last drawing for
    the current filter and width: after any sequence of mouse, filter and
    resize events [canvas._positions] is the layout of the items that
    [getFiltered] selects from the unchanged data, one dot per item and in
    their order. *)
Theorem positions_follow_filter mn mx data0 st :
  reachable mn mx data0 st →
  positions st = layoutDots (width st) mn mx (getFiltered data0 (filter_ st))
  ∧ d <$> positions st = getFiltered data0 (filter_ st)
  ∧ ∀ mx' my', -1 ≤ getHitIndex (positions st) mx' my'
               < Z.of_nat (length (getFiltered data0 (filter_ st))).
Proof.
  intros Hr. destruct (reachable_inv _ _ _ _ Hr) as (Hd & Hl & _).
  unfold laid_out in Hl. rewrite Hd in Hl.
  split_and!; [done|by rewrite Hl, layoutDots_items|..];
    intros mx' my'; pose proof (getHitIndex_range (positions st) mx' my') as Hr';
    rewrite Hl, layoutDots_length in Hr'; rewrite Hl; lia.
Qed.

(** The popup and the selection go together: either nothing is selected and
    the popup is hidden, or the selected index is that of a dot and the popup
    shows that dot's item, which the current filter admits.  Choosing a filter
    and clicking beside every dot both clear the selection. *)
Theorem popup_shows_selected_dot mn mx data0 st :
  reachable mn mx data0 st →
  selection_inv st
  ∧ (∀ it, popup st = Some it →
           it ∈ data0 ∧ 0 < year it
           ∧ (filter_ st = "all" ∨ paradigm it = VStr (filter_ st)))
  ∧ (∀ f, let st' := handle mn mx (FilterButton f) st in
          filter_ st' = f ∧ selectedIdx st' = -1 ∧ popup st' = None)
  ∧ (∀ mx' my', getHitIndex (positions st) mx' my' = -1 →
          let st' := handle mn mx (Click mx' my') st in
          selectedIdx st' = -1 ∧ popup st' = None).
Proof.
  intros Hr. destruct (reachable_inv _ _ _ _ Hr) as (Hd & Hl & Hs).
  split_and!; [done| |done|].
  - intros it Hpop. destruct Hs as [[_ Hnone]|(_ & _ & Hsome)]; [congruence|].
    rewrite Hpop, <-list_lookup_fmap in Hsome. symmetry in Hsome.
    apply list_elem_of_lookup_2 in Hsome.
    unfold laid_out in Hl. rewrite Hl, layoutDots_items, Hd in Hsome.
    by apply elem_of_getFiltered.
  - intros mx' my' Hmiss. simpl. rewrite Hmiss. done.
Qed.

(** *** Year ticks *)

Lemma tickStep_pos mn mx : 0 < tickStep mn mx.
Proof. unfold tickStep. case_match; lia. Qed.

Lemma ticks_loop_spec fuel step mx y0 :
  0 < step → mx - y0 < Z.of_nat fuel →
  ∀ y, y ∈ ticks_loop fuel step mx y0 ↔ y0 ≤ y ≤ mx ∧ (step | y - y0).
Proof.
  intros Hstep. revert y0. induction fuel as [|k IH]; intros y0 Hfuel y; simpl.
  - rewrite elem_of_nil. split; [done|]. lia.
  - destruct (Z.leb_spec y0 mx) as [Hle|Hgt].
    + rewrite elem_of_cons, IH by lia. split.
      * intros [->|[Hy [q Hq]]].
        { split; [lia|]. exists 0. lia. }
        split; [lia|]. exists (q + 1). lia.
      * intros [Hy [q Hq]]. destruct (decide (y = y0)) as [|Hne]; [by left|right].
        assert (1 ≤ q) by nia. split; [nia|]. exists (q - 1). lia.
    + rewrite elem_of_nil. split; [done|]. lia.
Qed.

Lemma ticks_loop_ge fuel step mx y0 y :
  0 < step → y ∈ ticks_loop fuel step mx y0 → y0 ≤ y.
Proof.
  intros Hstep. revert y0. induction fuel as [|k IH]; intros y0; simpl;
    [by rewrite elem_of_nil|].
  destruct (y0 <=? mx); [|by rewrite elem_of_nil].
  rewrite elem_of_cons. intros [->|Hin]; [lia|]. apply IH in Hin. lia.
Qed.

Lemma ticks_loop_sorted fuel step mx y0 :
  0 < step → StronglySorted Z.lt (ticks_loop fuel step mx y0).
Proof.
  intros Hstep. revert y0. induction fuel as [|k IH]; intros y0; simpl; [constructor|].
  destruct (y0 <=? mx); [|constructor]. constructor; [apply IH|].
  apply Forall_forall. intros y Hy. apply ticks_loop_ge in Hy; lia.
Qed.

Lemma firstTick_spec mn step :
  0 < step →
  mn ≤ firstTick mn step < mn + step ∧ (step | firstTick mn step).
Proof.
  intros Hstep. unfold firstTick.
  pose proof (Z.div_mod (- mn) step ltac:(lia)).
  pose proof (Z.mod_pos_bound (- mn) step ltac:(lia)).
  split; [nia|]. by exists (- (- mn / step)).
Qed.

(** The axis carries one tick at every multiple of the step (25 years, or 50
    when the range exceeds 200 years) between [minYear] and [maxYear], both
    included, and at no other year; the ticks are drawn in ascending order. *)
Theorem year_ticks_are_multiples mn mx :
  let step := tickStep mn mx in
  (∀ y, y ∈ yearTicks mn mx ↔ mn ≤ y ≤ mx ∧ (step | y))
  ∧ StronglySorted Z.lt (yearTicks mn mx)
  ∧ (step = 50 ↔ 200 < mx - mn) ∧ (step = 25 ↔ mx - mn ≤ 200).
Proof.
  cbv zeta. pose proof (tickStep_pos mn mx) as Hstep.
  destruct (firstTick_spec mn (tickStep mn mx) Hstep) as [Hfirst [c Hc]].
  split_and!.
  - intros y. unfold yearTicks. cbv zeta.
    destruct (decide (mn ≤ mx)) as [Hle|Hgt].
    + rewrite ticks_loop_spec by lia. split.
      * intros [Hy [q Hq]]. split; [lia|]. exists (q + c). lia.
      * intros [Hy [q Hq]]. split.
        -- split; [|lia]. destruct (decide (c ≤ q)) as [Hcq|Hcq]; [nia|].
           assert (q * tickStep mn mx ≤ (c - 1) * tickStep mn mx) by nia. lia.
        -- exists (q - c). lia.
    + replace (Z.to_nat (mx - mn + 1)) with 0%nat by lia. simpl.
      rewrite elem_of_nil. split; [done|]. lia.
  - by apply ticks_loop_sorted.
  - unfold tickStep. destruct (Z.gtb_spec (mx - mn) 200); split; lia.
  - unfold tickStep. destruct (Z.gtb_spec (mx - mn) 200); split; lia.
Qed.

(** *** The example timeline *)

Lemma example_timeline_init :
  init 980 example_items = Some (1942, 1968, example_timeline).
Proof. by vm_compute. Qed.

Lemma example_timeline_reachable evs :
  reachable 1942 1968 example_items (run 1942 1968 evs example_timeline).
Proof. exists 980%Q, example_timeline, evs. split; [apply example_timeline_init|done]. Qed.

Lemma dots_within_plot_witness :
  yearBounds example_items = Some (1942, 1968)
  ∧ (PADDING_left + PADDING_right <= 980)%Q
  ∧ (PADDING_left <= yearToX 980 1942 1968 1958 <= 980 - PADDING_right)%Q.
Proof.
  assert (yearBounds example_items = Some (1942, 1968)) as Hb by (by vm_compute).
  assert (PADDING_left + PADDING_right <= 980)%Q as Hw by (by vm_compute).
  assert ({| x := yearToX 980 1942 1968 1958;
             y := (scoreToY (4 # 5)
                   + inject_Z (Z.rem (hashStr (String_ (author mm1958)
                                               +:+ String_ (title mm1958))) 30 - 15)
                     * (3 # 10))%Q;
             d := mm1958 |}
          ∈ layoutDots 980 1942 1968 (getFiltered example_items "all")) as Hp.
  { apply list_elem_of_fmap. exists mm1958. split; [reflexivity|].
    apply elem_of_getFiltered. split_and!; [left|done|by left]. }
  split; [exact Hb|]. split; [exact Hw|].
  exact (proj1 (proj2 (dots_within_plot 980 example_items 1942 1968 "all" _ Hb Hw Hp))).
Defined.

Lemma positions_follow_filter_witness :
  reachable 1942 1968 example_items
    (run 1942 1968 [FilterButton "academic"] example_timeline)
  ∧ d <$> positions (run 1942 1968 [FilterButton "academic"] example_timeline)
    = getFiltered example_items "academic".
Proof.
  split; [apply example_timeline_reachable|].
  exact (proj1 (proj2 (positions_follow_filter 1942 1968 example_items _
                         (example_timeline_reachable [FilterButton "academic"])))).
Defined.

Lemma popup_shows_selected_dot_witness :
  reachable 1942 1968 example_items
    (run 1942 1968 [Click 572 108; Resize 800] example_timeline)
  ∧ selection_inv (run 1942 1968 [Click 572 108; Resize 800] example_timeline).
Proof.
  split; [apply example_timeline_reachable|].
  exact (proj1 (popup_shows_selected_dot 1942 1968 example_items _
                  (example_timeline_reachable [Click 572 108; Resize 800]))).
Defined.

End TimelineViewFacts.

(** ** More of the periodicals charts *)

Module PeriodicalsPageFacts.
Import JS Periodicals Catalog PeriodicalsPage JSFacts.

(** *** [parseInt] on decimal numerals *)

Lemma digit_cases (P : N → Prop) :
  P 0%N → P 1%N → P 2%N → P 3%N → P 4%N → P 5%N → P 6%N → P 7%N → P 8%N → P 9%N →
  ∀ d, (d < 10)%N → P d.
Proof.
  intros ?????????? d Hd.
  assert (d = 0 ∨ d = 1 ∨ d = 2 ∨ d = 3 ∨ d = 4 ∨ d = 5 ∨ d = 6 ∨ d = 7 ∨ d = 8 ∨ d = 9)%N
    as Hc by lia.
  repeat (destruct Hc as [->|Hc]; [assumption|]). by subst.
Qed.

Ltac by_digit d H := pattern d; revert d H; apply digit_cases.

Lemma digit_of_char d : (d < 10)%N → digit_of (pretty_N_char d) = Some (Z.of_N d).
Proof. intros H. by_digit d H; reflexivity. Qed.

Lemma digit_char_not_dash c : digit_char c → Ascii.eqb c "-" = false.
Proof. intros (d & H & ->). by_digit d H; reflexivity. Qed.

(** Reading a numeral digit by digit yields its value. *)
Lemma digits_prefix_go x :
  (0 < x)%N →
  ∃ m, ∀ acc s,
    digits_prefix digit_of 10 acc (pretty_N_go x s)
    = digits_prefix digit_of 10 (Some (m * default 0 acc + Z.of_N x)) s.
Proof.
  induction (N.lt_wf_0 x) as [x _ IH]. intros Hx.
  assert (Z.of_N x = 10 * Z.of_N (x `div` 10) + Z.of_N (x `mod` 10)) as Hdm.
  { rewrite <-(N2Z.inj_mul 10), <-N2Z.inj_add. f_equal. apply N.div_mod. lia. }
  assert (x `mod` 10 < 10)%N as Hmod by (apply N.mod_lt; lia).
  destruct (decide (x `div` 10 = 0)%N) as [Hz|Hnz].
  - exists 10. intros acc s. rewrite pretty_N_go_step, Hz, pretty_N_go_0 by done.
    simpl. rewrite digit_of_char by done. rewrite Hz in Hdm.
    by replace (10 * default 0 acc + Z.of_N x)
      with (10 * default 0 acc + Z.of_N (x `mod` 10)) by lia.
  - assert (x `div` 10 < x)%N as Hlt by (apply N.div_lt; lia).
    assert (0 < x `div` 10)%N as Hpos by (destruct (x `div` 10)%N; [done|lia]).
    destruct (IH _ Hlt Hpos) as [m Hm].
    exists (10 * m). intros acc s. rewrite pretty_N_go_step, Hm by done.
    simpl. rewrite digit_of_char by done.
    by replace (10 * m * default 0 acc + Z.of_N x)
      with (10 * (m * default 0 acc + Z.of_N (x `div` 10)) + Z.of_N (x `mod` 10)) by lia.
Qed.

(** A numeral starts with a digit, followed by another digit or by nothing of
    its own. *)
Lemma pretty_N_go_head x s :
  (0 < x)%N →
  ∃ c r, digit_char c ∧ pretty_N_go x s = String c r
         ∧ (r = s ∨ ∃ c' r', digit_char c' ∧ r = String c' r').
Proof.
  revert s. induction (N.lt_wf_0 x) as [x _ IH]. intros s Hx.
  assert (digit_char (pretty_N_char (x `mod` 10))) as Hc.
  { exists (x `mod` 10)%N. split; [apply N.mod_lt; lia|done]. }
  rewrite pretty_N_go_step by done.
  destruct (decide (x `div` 10 = 0)%N) as [Hz|Hnz].
  - rewrite Hz, pretty_N_go_0. eexists _, _. split_and!; [done|done|by left].
  - assert (x `div` 10 < x)%N as Hlt by (apply N.div_lt; lia).
    assert (0 < x `div` 10)%N as Hpos by (destruct (x `div` 10)%N; [done|lia]).
    destruct (IH _ Hlt (String (pretty_N_char (x `mod` 10)) s) Hpos)
      as (c & r & Hd & -> & Hr).
    exists c, r. split_and!; [done|done|]. right.
    destruct Hr as [->|Hr]; [|done].
    exists (pretty_N_char (x `mod` 10)), s. by split.
Qed.

(** The characters that a numeral adds are digits. *)
Lemma pretty_N_go_digits x s :
  ∃ ds, pretty_N_go x s = ds +:+ s ∧ ∀ c, c ∈ chars ds → digit_char c.
Proof.
  revert s. induction (N.lt_wf_0 x) as [x _ IH]. intros s.
  destruct (decide (0 < x)%N) as [Hx|Hx].
  - rewrite pretty_N_go_step by done.
    assert (x `div` 10 < x)%N as Hlt by (apply N.div_lt; lia).
    destruct (IH _ Hlt (String (pretty_N_char (x `mod` 10)) s)) as (ds & -> & Hds).
    exists (ds +:+ String (pretty_N_char (x `mod` 10)) "").
    split.
    + unfold String.app. clear. induction ds as [|a ds IHds]; [done|].
      simpl. by rewrite IHds.
    + intros c Hin.
      assert (chars (ds +:+ String (pretty_N_char (x `mod` 10)) "")
              = chars ds ++ [pretty_N_char (x `mod` 10)]) as Heq.
      { unfold String.app. clear. induction ds as [|a ds IHds]; [done|].
        simpl. by rewrite IHds. }
      rewrite Heq, elem_of_app, list_elem_of_singleton in Hin.
      destruct Hin as [Hin| ->]; [by apply Hds|].
      exists (x `mod` 10)%N. split; [apply N.mod_lt; lia|done].
  - assert (x = 0%N) as -> by lia. exists "". rewrite pretty_N_go_0.
    split; [done|]. intros c Hc. by apply elem_of_nil in Hc.
Qed.

Lemma fmap_id_option (o : option Z) : (λ n, n) <$> o = o.
Proof. by destruct o. Qed.

Lemma parseInt_digits c r :
  digit_char c → (r = "" ∨ ∃ c' r', digit_char c' ∧ r = String c' r') →
  parseInt (String c r) = digits_prefix digit_of 10 None (String c r)
  ∧ parseInt (String "-" (String c r))
    = Z.opp <$> digits_prefix digit_of 10 None (String c r).
Proof.
  intros (d & Hd & ->) Hr.
  destruct Hr as [->|(c' & r' & (d' & Hd' & ->) & ->)].
  - by_digit d Hd; split; reflexivity.
  - by_digit d Hd; by_digit d' Hd';
      (split; [apply fmap_id_option|reflexivity]).
Qed.

Lemma parseInt_pretty_N_go x :
  (0 < x)%N →
  parseInt (pretty_N_go x "") = Some (Z.of_N x)
  ∧ parseInt ("-" +:+ pretty_N_go x "") = Some (- Z.of_N x).
Proof.
  intros Hx. destruct (pretty_N_go_head x "" Hx) as (c & r & Hc & Hgo & Hr).
  destruct (digits_prefix_go x Hx) as [m Hm].
  specialize (Hm None ""). simpl in Hm. rewrite Z.mul_0_r, Z.add_0_l in Hm.
  unfold String.app. simpl. rewrite Hgo in *.
  destruct (parseInt_digits c r Hc Hr) as [-> ->]. by rewrite Hm.
Qed.

Lemma parseInt_pretty (n : Z) : parseInt (pretty n) = Some n.
Proof.
  destruct n as [|p|p]; [reflexivity|..].
  - change (pretty (Z.pos p)) with (pretty_N_go (N.pos p) "").
    apply (parseInt_pretty_N_go (N.pos p)). lia.
  - change (pretty (Z.neg p)) with ("-" +:+ pretty_N_go (N.pos p) "").
    apply (parseInt_pretty_N_go (N.pos p)). lia.
Qed.

Lemma windowStart_digits ds rest :
  (∀ c, c ∈ chars ds → digit_char c) →
  windowStart (ds +:+ String "-" rest) = ds.
Proof.
  unfold String.app. induction ds as [|a ds IH]; intros Hds; [done|].
  simpl. rewrite digit_char_not_dash by (apply Hds; left).
  f_equal. apply IH. intros c Hc. apply Hds. by right.
Qed.

Lemma pretty_nonneg_digits (a : Z) :
  0 ≤ a → ∀ c, c ∈ chars (pretty a) → digit_char c.
Proof.
  intros Ha. destruct a as [|p|p]; [| |lia].
  - intros c Hc. apply list_elem_of_singleton in Hc as ->. by exists 0%N.
  - change (pretty (Z.pos p)) with (pretty_N_go (N.pos p) "").
    destruct (pretty_N_go_digits (N.pos p) "") as (ds & -> & Hds).
    assert (ds +:+ "" = ds) as ->; [|done].
    unfold String.app. clear. induction ds as [|a ds IH]; [done|]. simpl. by rewrite IH.
Qed.

(** A window key "a-b" with a decimal start year [a] is plotted at [a + 2]:
    [split('-')[0]] is the numeral of [a], which [parseInt] reads back. *)
Theorem windowMid_of_range (a : Z) (rest : string) :
  0 ≤ a →
  windowStart (pretty a +:+ String "-" rest) = pretty a
  ∧ parseInt (pretty a) = Some a
  ∧ windowMid (pretty a +:+ String "-" rest) = Some (a + 2).
Proof.
  intros Ha.
  assert (windowStart (pretty a +:+ String "-" rest) = pretty a) as Hs
    by (apply windowStart_digits; by apply pretty_nonneg_digits).
  split_and!; [done|apply parseInt_pretty|].
  unfold windowMid. by rewrite Hs, parseInt_pretty.
Qed.

Lemma windowMid_of_range_witness :
  0 ≤ 1955 ∧ windowMid "1955-1959" = Some 1957.
Proof.
  split; [lia|]. exact (proj2 (proj2 (windowMid_of_range 1955 "1959" ltac:(lia)))).
Defined.

(** *** [setupCanvas] *)



(** *** Topic buttons *)

Lemma indexOf_None key l : indexOf key l = None ↔ key ∉ l.
Proof.
  induction l as [|k l IH]; simpl.
  - split; [intros _; apply not_elem_of_nil|done].
  - rewrite not_elem_of_cons. destruct (String.eqb_spec k key) as [->|Hne].
    + split; [done|]. intros [? _]. done.
    + destruct (indexOf key l) as [i|]; simpl.
      * split; [done|]. intros [_ Hn]. by apply IH in Hn.
      * split; [|done]. intros _. split; [done|]. by apply IH.
Qed.

Lemma indexOf_Some key l i : indexOf key l = Some i → l !! i = Some key.
Proof.
  revert i. induction l as [|k l IH]; intros i; simpl; [done|].
  destruct (String.eqb_spec k key) as [->|Hne]; [by intros [= <-]|].
  destruct (indexOf key l) as [j|]; simpl; [|done].
  intros [= <-]. simpl. by apply IH.
Qed.

Lemma indexOf_is_Some key l : is_Some (indexOf key l) ↔ key ∈ l.
Proof.
  destruct (indexOf key l) as [i|] eqn:Hi.
  - split; [|by eexists]. intros _. apply indexOf_Some in Hi.
    by apply list_elem_of_lookup_2 in Hi.
  - apply indexOf_None in Hi. split; [by intros [? ?]|done].
Qed.

Lemma delete_NoDup (l : list string) i key :
  NoDup l → l !! i = Some key →
  NoDup (delete i l) ∧ ∀ k, k ∈ delete i l ↔ k ∈ l ∧ k ≠ key.
Proof.
  intros Hnd Hi. rewrite delete_take_drop.
  rewrite <-(take_drop_middle l i key Hi) in Hnd at 1.
  apply NoDup_app in Hnd as (Hn1 & Hdisj & Hn2).
  apply NoDup_cons in Hn2 as [Hnotin Hn2].
  split.
  - apply NoDup_app. split_and!; [done| |done].
    intros k Hk Hk'. apply (Hdisj k Hk). by right.
  - intros k. rewrite <-(take_drop_middle l i key Hi) at 3.
    rewrite !elem_of_app, elem_of_cons. split.
    + intros [Hk|Hk].
      * split; [by left|]. intros ->. apply (Hdisj key Hk). left.
      * split; [by right; right|]. by intros ->.
    + intros [[Hk|[->|Hk]] Hne]; [by left|done|by right].
Qed.

Lemma clickTopic_selection i b st :
  NoDup (selectedTopics st) →
  buttons st !! i = Some b →
  let st' := clickTopic i st in
  NoDup (selectedTopics st')
  ∧ (btn_topic b ∈ selectedTopics st' ↔ btn_topic b ∉ selectedTopics st)
  ∧ (∀ k, k ≠ btn_topic b → k ∈ selectedTopics st' ↔ k ∈ selectedTopics st).
Proof.
  intros Hnd Hi. cbv zeta. unfold clickTopic. rewrite Hi. cbn [selectedTopics].
  destruct (indexOf (btn_topic b) (selectedTopics st)) as [idx|] eqn:Hidx.
  - apply indexOf_Some in Hidx.
    destruct (delete_NoDup _ _ _ Hnd Hidx) as [Hnd' Hin].
    apply list_elem_of_lookup_2 in Hidx.
    split_and!; [done| |].
    + rewrite Hin. split; [by intros [_ ?]|done].
    + intros k Hk. rewrite Hin. tauto.
  - apply indexOf_None in Hidx. split_and!.
    + apply NoDup_app. split_and!; [done| |apply NoDup_singleton].
      intros k Hk Hk'. apply list_elem_of_singleton in Hk'. by subst.
    + rewrite elem_of_app, list_elem_of_singleton. tauto.
    + intros k Hk. rewrite elem_of_app, list_elem_of_singleton. tauto.
Qed.

Lemma clickTopic_inv topicKeys i st :
  NoDup topicKeys → buttons_inv topicKeys st → buttons_inv topicKeys (clickTopic i st).
Proof.
  intros Hkeys (Hnd & Hk & Hact).
  destruct (buttons st !! i) as [b|] eqn:Hi;
    [|unfold clickTopic; rewrite Hi; by split_and!].
  destruct (clickTopic_selection i b st Hnd Hi) as (Hnd' & Hb & Hother).
  split_and!; [done| |].
  - unfold clickTopic. rewrite Hi. cbn [buttons].
    rewrite list_fmap_insert. cbn [btn_topic].
    rewrite list_insert_id; [done|]. by rewrite list_lookup_fmap, Hi.
  - intros b' Hb'. unfold clickTopic in Hb'. rewrite Hi in Hb'. cbn [buttons] in Hb'.
    apply list_elem_of_lookup_1 in Hb' as [j Hj].
    destruct (decide (j = i)) as [->|Hne].
    + rewrite list_lookup_insert_eq in Hj by (by apply lookup_lt_Some in Hi).
      injection Hj as <-. cbn [btn_topic btn_active]. rewrite Hb.
      specialize (Hact b ltac:(by eapply list_elem_of_lookup_2)).
      destruct (btn_active b); simpl; split; try done.
      * intros Hn. exfalso. apply Hn. by apply Hact.
      * intros _ Hin. apply Hact in Hin. done.
    + rewrite list_lookup_insert_ne in Hj by done.
      assert (btn_topic b' ≠ btn_topic b) as Hdiff.
      { intros Heq. apply Hne.
        apply (NoDup_lookup topicKeys j i (btn_topic b')); [done|..];
          rewrite <-Hk, list_lookup_fmap; [by rewrite Hj|by rewrite Hi, Heq]. }
      rewrite (Hother _ Hdiff). apply Hact. by eapply list_elem_of_lookup_2.
Qed.

Lemma topicsStart_inv topicKeys : buttons_inv topicKeys (topicsStart topicKeys).
Proof.
  split_and!.
  - cbn [topicsStart selectedTopics]. unfold initialTopics.
    repeat (apply NoDup_cons; split;
            [rewrite ?elem_of_cons, elem_of_nil; intros H; intuition discriminate|]).
    apply NoDup_nil_2.
  - cbn [topicsStart buttons]. unfold buildTopicButtons.
    rewrite <-list_fmap_compose. clear. induction topicKeys as [|k l IH]; [done|].
    rewrite fmap_cons. simpl. f_equal. exact IH.
  - intros b Hb. cbn [topicsStart buttons selectedTopics] in *.
    unfold buildTopicButtons in Hb. apply list_elem_of_fmap in Hb as (k & -> & _).
    cbn [btn_active btn_topic]. rewrite bool_decide_eq_true. apply indexOf_is_Some.
Qed.

(** After any clicks on topic buttons the selection has no duplicate and the
    buttons show it: a button is active exactly when its topic is selected.  A
    click on a button selects its topic when it was not selected and removes
    it when it was, and changes the selection of no other topic. *)
Theorem topic_buttons_follow_selection topicKeys idxs :
  NoDup topicKeys →
  let st := clicks idxs (topicsStart topicKeys) in
  buttons_inv topicKeys st
  ∧ ∀ i b, buttons st !! i = Some b →
      let st' := clickTopic i st in
      (btn_topic b ∈ selectedTopics st' ↔ btn_topic b ∉ selectedTopics st)
      ∧ (∀ k, k ≠ btn_topic b → k ∈ selectedTopics st' ↔ k ∈ selectedTopics st).
Proof.
  intros Hkeys. cbv zeta.
  assert (buttons_inv topicKeys (clicks idxs (topicsStart topicKeys))) as Hinv.
  { unfold clicks. induction idxs as [|i idxs IH] using rev_ind;
      [apply topicsStart_inv|].
    rewrite foldl_app. simpl. by apply clickTopic_inv. }
  split; [done|]. intros i b Hi. destruct Hinv as (Hnd & _).
  destruct (clickTopic_selection i b _ Hnd Hi) as (_ & ? & ?). done.
Qed.

Lemma topic_buttons_follow_selection_witness :
  NoDup ["dcf_npv"; "bond_valuation"]
  ∧ buttons_inv ["dcf_npv"; "bond_valuation"]
      (clicks [1%nat; 0%nat; 1%nat] (topicsStart ["dcf_npv"; "bond_valuation"])).
Proof.
  assert (NoDup ["dcf_npv"; "bond_valuation"]) as Hnd.
  { repeat (apply NoDup_cons; split;
            [rewrite ?elem_of_cons, elem_of_nil; intros H; intuition discriminate|]).
    apply NoDup_nil_2. }
  split; [exact Hnd|].
  exact (proj1 (topic_buttons_follow_selection _ [1%nat; 0%nat; 1%nat] Hnd)).
Defined.

(** *** The scale of the topic chart *)

Lemma raise_le m v : (m <= raise m v)%Q ∧ (v <= raise m v)%Q.
Proof.
  unfold raise. destruct (Qle_bool v m) eqn:Hle.
  - apply Qle_bool_iff in Hle. split; [apply Qle_refl|done].
  - split; [|apply Qle_refl]. apply Qlt_le_weak, Qnot_le_lt.
    intros Hc. apply Qle_bool_iff in Hc. congruence.
Qed.

Lemma fold_raise_le {A} (f : Q → A → Q) (g : A → Q → Prop) (l : list A) (m0 : Q) :
  (∀ m x, (m <= f m x)%Q) →
  (∀ m x v, g x v → (v <= f m x)%Q) →
  (m0 <= foldl f m0 l)%Q ∧ ∀ x v, x ∈ l → g x v → (v <= foldl f m0 l)%Q.
Proof.
  intros Hmono Hg. revert m0. induction l as [|a l IH]; intros m0; simpl.
  - split; [apply Qle_refl|]. intros x v Hx. by apply elem_of_nil in Hx.
  - destruct (IH (f m0 a)) as [Hle Hall]. split.
    + eapply Qle_trans; [apply Hmono|exact Hle].
    + intros x v Hx Hv. apply elem_of_cons in Hx as [->|Hx].
      * eapply Qle_trans; [by apply Hg|exact Hle].
      * by eapply Hall.
Qed.

Lemma scanMax_le prac acad selected :
  (5 # 100 <= scanMax prac acad selected)%Q
  ∧ ∀ wi tk, wi ∈ allWindows prac acad → tk ∈ selected →
      (valueOf prac wi tk <= scanMax prac acad selected)%Q
      ∧ (valueOf acad wi tk <= scanMax prac acad selected)%Q.
Proof.
  unfold scanMax.
  set (inner := λ (wi : string) (m : Q) (tk : string),
         raise (raise m (valueOf prac wi tk)) (valueOf acad wi tk)).
  assert (∀ wi m,
            (m <= foldl (inner wi) m selected)%Q
            ∧ ∀ tk v, tk ∈ selected →
                (v = valueOf prac wi tk ∨ v = valueOf acad wi tk) →
                (v <= foldl (inner wi) m selected)%Q) as Hinner.
  { intros wi m.
    apply (fold_raise_le (inner wi)
             (λ tk v, v = valueOf prac wi tk ∨ v = valueOf acad wi tk)).
    - intros m' tk. unfold inner.
      eapply Qle_trans; [apply (raise_le m' (valueOf prac wi tk))|apply raise_le].
    - intros m' tk v [-> | ->]; unfold inner.
      + eapply Qle_trans; [apply (raise_le m' (valueOf prac wi tk))|apply raise_le].
      + apply raise_le. }
  destruct (fold_raise_le (λ m wi, foldl (inner wi) m selected)
              (λ wi v, ∃ tk, tk ∈ selected
                             ∧ (v = valueOf prac wi tk ∨ v = valueOf acad wi tk))
              (allWindows prac acad) (5 # 100)%Q) as [Hle Hall].
  - intros m wi. apply (proj1 (Hinner wi m)).
  - intros m wi v (tk & Htk & Hv). by apply (proj2 (Hinner wi m) tk v).
  - split; [exact Hle|]. intros wi tk Hwi Htk. split.
    + apply (Hall wi); [done|]. exists tk. split; [done|by left].
    + apply (Hall wi); [done|]. exists tk. split; [done|by right].
Qed.

Lemma maxVal_ceiling prac acad selected :
  maxVal prac acad selected
  = (inject_Z (Qround.Qceiling (scanMax prac acad selected * 10)) / 10)%Q
  ∧ 1 ≤ Qround.Qceiling (scanMax prac acad selected * 10)
  ∧ (scanMax prac acad selected <= maxVal prac acad selected)%Q.
Proof.
  destruct (scanMax_le prac acad selected) as [Hmin _].
  set (s := scanMax prac acad selected) in *.
  pose proof (Qround.Qle_ceiling (s * 10)) as Hc.
  assert (s <= inject_Z (Qround.Qceiling (s * 10)) / 10)%Q as Hs.
  { apply Qle_shift_div_l; [done|exact Hc]. }
  assert (1 ≤ Qround.Qceiling (s * 10)) as Hk.
  { assert (0 < inject_Z (Qround.Qceiling (s * 10)))%Q as Hpos
      by (eapply Qlt_le_trans; [|exact Hc]; lra).
    change 0%Q with (inject_Z 0) in Hpos. rewrite <-Zlt_Qlt in Hpos. lia. }
  unfold maxVal. cbv zeta. fold s.
  destruct (Qle_bool _ _) eqn:Hb; [done|].
  exfalso. assert (5 # 100 <= inject_Z (Qround.Qceiling (s * 10)) / 10)%Q as Hle
    by (eapply Qle_trans; [exact Hmin|exact Hs]).
  apply Qle_bool_iff in Hle. congruence.
Qed.

(** The scale of the topic chart is a positive number of tenths that no
    plotted frequency exceeds, so that a frequency that is not negative is
    drawn between the top and the bottom of the chart. *)
Theorem topic_scale_covers_values prac acad selected :
  let mv := maxVal prac acad selected in
  (∃ k, 1 ≤ k ∧ mv = (inject_Z k / 10)%Q)
  ∧ (∀ wi tk, wi ∈ allWindows prac acad → tk ∈ selected →
       (valueOf prac wi tk <= mv)%Q ∧ (valueOf acad wi tk <= mv)%Q)
  ∧ (∀ h val, (0 <= topics_chartH h)%Q → (0 <= val <= mv)%Q →
       (topics_pad_top <= topics_yPos prac acad selected h val
        <= topics_pad_top + topics_chartH h)%Q).
Proof.
  cbv zeta. destruct (maxVal_ceiling prac acad selected) as (Heq & Hk & Hs).
  destruct (scanMax_le prac acad selected) as [_ Hall].
  split_and!.
  - by eexists.
  - intros wi tk Hwi Htk. destruct (Hall wi tk Hwi Htk) as [Hp Ha].
    split; (eapply Qle_trans; [|exact Hs]); done.
  - intros h val Hh [Hv0 Hv1]. unfold topics_yPos.
    set (mv := maxVal prac acad selected) in *.
    assert (0 < mv)%Q as Hpos.
    { rewrite Heq. apply Qlt_shift_div_l; [done|]. rewrite Qmult_0_l.
      change 0%Q with (inject_Z 0). rewrite <-Zlt_Qlt. lia. }
    assert (0 <= val / mv)%Q as H0
      by (apply Qle_shift_div_l; [done|]; by rewrite Qmult_0_l).
    assert (val / mv <= 1)%Q as H1
      by (apply Qle_shift_div_r; [done|]; by rewrite Qmult_1_l).
    assert (0 <= 1 - val / mv)%Q as Ha by lra.
    assert (1 - val / mv <= 1)%Q as Hb by lra.
    pose proof (Qmult_le_0_compat _ _ Ha Hh) as Hlo.
    assert ((1 - val / mv) * topics_chartH h <= 1 * topics_chartH h)%Q as Hhi
      by (by apply Qmult_le_compat_r).
    split; lra.
Qed.

End PeriodicalsPageFacts.

(** ** The paradigm spectrum *)

Module SpectrumFacts.
Import JS Periodicals Spectrum JSFacts PeriodicalsFacts.

Lemma Qle_bool_false a b : Qle_bool a b = false → (b < a)%Q.
Proof.
  intros Hb. apply Qnot_le_lt. intros Hc. apply Qle_bool_iff in Hc. congruence.
Qed.

Lemma clamp_spec v :
  (- yBound <= clamp v <= yBound)%Q
  ∧ ((- yBound <= v <= yBound)%Q → (clamp v == v)%Q)
  ∧ ((yBound <= v)%Q → clamp v = yBound)
  ∧ ((v < - yBound)%Q → clamp v = (- yBound)%Q).
Proof.
  unfold clamp, yBound. cbv zeta.
  destruct (Qle_bool (1 # 2) v) eqn:H1.
  - apply Qle_bool_iff in H1. change (Qle_bool (- (1 # 2)) (1 # 2)) with true. cbv iota.
    split_and!; [lra|lra|intros; lra|done|intros; lra].
  - apply Qle_bool_false in H1. destruct (Qle_bool (- (1 # 2)) v) eqn:H2.
    + apply Qle_bool_iff in H2. split_and!; [lra|lra|intros; lra|intros; lra|intros; lra].
    + apply Qle_bool_false in H2. split_and!; [lra|lra|intros; lra|intros; lra|done].
Qed.

Lemma yPos_range h c :
  (0 <= chartH h)%Q → (- yBound <= c <= yBound)%Q →
  (pad_top <= yPos h c <= pad_top + chartH h)%Q.
Proof.
  intros Hh [Hlo Hhi]. unfold yPos, yBound in *.
  set (t := (((1 # 2) - c) / (2 * (1 # 2)))%Q).
  assert (0 <= t)%Q as H0.
  { unfold t. apply Qle_shift_div_l; [done|]. lra. }
  assert (t <= 1)%Q as H1.
  { unfold t. apply Qle_shift_div_r; [done|]. lra. }
  pose proof (Qmult_le_0_compat _ _ H0 Hh) as Ha.
  assert (t * chartH h <= 1 * chartH h)%Q as Hb by (by apply Qmult_le_compat_r).
  split; lra.
Qed.

Lemma yPos_edges h :
  (yPos h yBound == pad_top)%Q ∧ (yPos h (- yBound) == pad_top + chartH h)%Q.
Proof. unfold yPos, yBound. split; field. Qed.

(** Every dot of the paradigm spectrum lies between the top and the bottom of
    the chart, whatever its score: a score of 0.5 or more is drawn on the top
    edge and a score below -0.5 on the bottom edge, while the entry kept for
    the tooltip holds the score itself, that of the dot's window in the
    series. *)
Theorem spectrum_dots_within_chart w h minYear maxYear source series p :
  (0 <= chartH h)%Q →
  p ∈ sourceDots w h minYear maxYear source series →
  series !! window p = Some (score p)
  ∧ name p = source
  ∧ sx p = xPos w minYear maxYear (windowMid (window p))
  ∧ (pad_top <= sy p <= pad_top + chartH h)%Q
  ∧ ((yBound <= score p)%Q → (sy p == pad_top)%Q)
  ∧ ((score p < - yBound)%Q → (sy p == pad_top + chartH h)%Q)
  ∧ ((- yBound <= score p <= yBound)%Q →
       (sy p == pad_top + ((yBound - score p) / (2 * yBound)) * chartH h)%Q).
Proof.
  intros Hh Hp. unfold sourceDots in Hp.
  apply list_elem_of_fmap in Hp as (wi & -> & Hwi). cbn [window score name sx sy].
  apply sortedKeys_spec in Hwi as [v Hv]. rewrite Hv. cbn [from_option]. unfold id.
  destruct (clamp_spec v) as (Hrange & Hid & Htop & Hbot).
  split_and!; [done|done|done|by apply yPos_range|by apply yPos_range|..].
  - intros Hge. rewrite (Htop Hge). apply yPos_edges.
  - intros Hlt. rewrite (Hbot Hlt). apply yPos_edges.
  - intros Hin. unfold yPos. by rewrite (Hid Hin).
Qed.

Lemma spectrum_dots_within_chart_witness :
  (0 <= chartH 300)%Q
  ∧ (pad_top <= yPos 300 (clamp (1 # 4)) <= pad_top + chartH 300)%Q.
Proof.
  assert (0 <= chartH 300)%Q as Hh by (by vm_compute).
  split; [exact Hh|].
  assert ({| sx := xPos 800 1945 1965 (windowMid "1950-1954");
             sy := yPos 300 (clamp (1 # 4)); name := "JF"; window := "1950-1954";
             score := 1 # 4 |}
          ∈ sourceDots 800 300 1945 1965 "JF" two_windows) as Hp.
  { apply list_elem_of_fmap. exists "1950-1954". split; [reflexivity|].
    apply sortedKeys_spec. by eexists. }
  exact (proj1 (proj2 (proj2 (proj2
           (spectrum_dots_within_chart 800 300 1945 1965 "JF" two_windows _ Hh Hp))))).
Defined.

(** *** The tooltip *)



End SpectrumFacts.
